(** * Chains of states, NEB, IDPP and preconditioned MEP of [ase/neb.py]

    A shallow embedding of the classes [ChainOfStates], [NEB], [IDPP] and
    [PreconMEP].  NumPy's [float64] is Rocq's primitive binary64 [float];
    an [ndarray] is a shape with row-major data; methods that mutate [self]
    or raise are computations in a state-and-exception monad in which the
    state reached so far survives a raise, as it does in Python. *)

From Stdlib Require Import String ZArith List Bool Lia Floats.
Import ListNotations.

Set Implicit Arguments.

(** ** Python exceptions and results *)

Inductive exception : Type :=
| ValueError (msg : string)
| NotImplementedError (msg : string)
| TypeError (msg : string)
| RuntimeError (msg : string)
| AssertionError
| IndexError
| ZeroDivisionError.

Inductive result (A : Type) : Type :=
| Ok (a : A)
| Raise (e : exception).

Arguments Ok {A} a.
Arguments Raise {A} e.

Definition rbind {A B} (r : result A) (f : A -> result B) : result B :=
  match r with
  | Ok a => f a
  | Raise e => Raise e
  end.

Notation "'try' x := r 'in' k" := (rbind r (fun x => k))
  (at level 10, x pattern, k at level 200).

(** A method of an object of type [S]: it returns or raises, and leaves the
    object in some state either way. *)
Definition M (S A : Type) : Type := S -> result A * S.

Definition ret {S A} (a : A) : M S A := fun s => (Ok a, s).
Definition raise {S A} (e : exception) : M S A := fun s => (Raise e, s).
Definition lift {S A} (r : result A) : M S A := fun s => (r, s).
Definition get {S} : M S S := fun s => (Ok s, s).
Definition put {S} (s : S) : M S unit := fun _ => (Ok tt, s).
Definition modify {S} (f : S -> S) : M S unit := fun s => (Ok tt, f s).

Definition bind {S A B} (m : M S A) (f : A -> M S B) : M S B :=
  fun s =>
    match m s with
    | (Ok a, s') => f a s'
    | (Raise e, s') => (Raise e, s')
    end.

Notation "x <- m ;; k" := (bind m (fun x => k))
  (at level 61, m at next level, right associativity).
Notation "m ;; k" := (bind m (fun _ => k))
  (at level 61, right associativity).

(** A method of a base class run on an object of a derived class [T] that
    holds the base part [S]. *)
Definition zoom {S T A} (proj : T -> S) (upd : S -> T -> T) (m : M S A) : M T A :=
  fun t => let (r, s') := m (proj t) in (r, upd s' t).

(** ** Lists as Python sequences *)

(** [l[1:-1]] *)
Definition interior {A} (l : list A) : list A := removelast (tl l).

(** [l[i] = x] on an index in range; the callers check the range. *)
Fixpoint list_update {A} (l : list A) (i : nat) (x : A) : list A :=
  match l, i with
  | [], _ => []
  | _ :: t, O => x :: t
  | h :: t, S j => h :: list_update t j x
  end.

(** [l[i]], raising [IndexError] out of range. *)
Definition getitem {A} (l : list A) (i : nat) : result A :=
  match nth_error l i with
  | Some x => Ok x
  | None => Raise IndexError
  end.

(** [l[-1]] *)
Definition getitem_last {A} (l : list A) : result A :=
  match l with
  | [] => Raise IndexError
  | x :: t => Ok (last t x)
  end.

Fixpoint map2 {A B C} (f : A -> B -> C) (l1 : list A) (l2 : list B) : list C :=
  match l1, l2 with
  | a :: t1, b :: t2 => f a b :: map2 f t1 t2
  | _, _ => []
  end.

(** ** float64 *)

Module F64.
Local Open Scope float_scope.

(** Python's [bool(x)] on a float: [x != 0.0]. *)
Definition truthy (x : float) : bool := negb (x =? 0).

Definition gtb (x y : float) : bool := y <? x.

(** The builtins [max(a, b)] and [min(a, b)]: the first argument unless
    the second compares strictly beyond it. *)
Definition py_max (a b : float) : float := if gtb b a then b else a.
Definition py_min (a b : float) : float := if b <? a then b else a.

Definition isnan (x : float) : bool := negb (x =? x).

Definition isfinite (x : float) : bool := (abs x <? infinity).

(** [np.maximum], which propagates NaN; the step of [ndarray.max]. *)
Definition np_maximum (a b : float) : float :=
  if isnan a then a else if isnan b then b else if a <? b then b else a.

Definition square (x : float) : float := x * x.

(** The float of a small natural number (an [int] meeting a [float64]). *)
Definition of_nat (n : nat) : float := of_uint63 (Uint63.of_Z (Z.of_nat n)).

(** NumPy's sort order on [float64], which places NaN last:
    [a < b || (b != b && a == a)]. *)
Definition npy_lt (a b : float) : bool :=
  (a <? b) || (negb (b =? b) && (a =? a)).
End F64.

(** ** ndarray *)

Record ndarray : Type := mk_ndarray { shape : list nat; data : list float }.

Definition size_of_shape (sh : list nat) : nat := fold_right Nat.mul 1 sh.

Definition well_shaped (a : ndarray) : Prop :=
  length (data a) = size_of_shape (shape a).

Definition shape_eqb (s1 s2 : list nat) : bool :=
  if list_eq_dec Nat.eq_dec s1 s2 then true else false.

Definition np_full (sh : list nat) (v : float) : ndarray :=
  mk_ndarray sh (repeat v (size_of_shape sh)).

Definition np_zeros (sh : list nat) : ndarray := np_full sh 0%float.

(** [len(a)], the extent of the first axis. *)
Definition len0 (a : ndarray) : nat := hd 0 (shape a).

(** Number of scalars in one entry along the first axis. *)
Definition stride0 (a : ndarray) : nat := size_of_shape (tl (shape a)).

(** [a.reshape(-1)] *)
Definition ravel (a : ndarray) : ndarray :=
  mk_ndarray [length (data a)] (data a).

(** [a.reshape(sh)] for an explicit shape. *)
Definition reshape (a : ndarray) (sh : list nat) : result ndarray :=
  if size_of_shape sh =? length (data a)
  then Ok (mk_ndarray sh (data a))
  else Raise (ValueError "cannot reshape array").

(** [a.reshape((-1, 3))] *)
Definition reshape_rows3 (a : ndarray) : result ndarray :=
  if length (data a) mod 3 =? 0
  then Ok (mk_ndarray [length (data a) / 3; 3] (data a))
  else Raise (ValueError "cannot reshape array").

(** [a[i]] along the first axis. *)
Definition getitem0 (a : ndarray) (i : nat) : result ndarray :=
  if i <? len0 a
  then Ok (mk_ndarray (tl (shape a))
             (firstn (stride0 a) (skipn (i * stride0 a) (data a))))
  else Raise IndexError.

(** The bounds of [a[n1:n2]] after clipping to the first axis. *)
Definition clip_lo (a : ndarray) (n1 : nat) : nat := Nat.min n1 (len0 a).
Definition clip_hi (a : ndarray) (n1 n2 : nat) : nat :=
  Nat.max (clip_lo a n1) (Nat.min n2 (len0 a)).

(** [a[n1:n2]] along the first axis. *)
Definition slice0 (a : ndarray) (n1 n2 : nat) : ndarray :=
  let lo := clip_lo a n1 in
  let hi := clip_hi a n1 n2 in
  mk_ndarray ((hi - lo) :: tl (shape a))
    (firstn ((hi - lo) * stride0 a) (skipn (lo * stride0 a) (data a))).

(** Leading axes of extent one are dropped when a value is broadcast into a
    target of lower rank. *)
Fixpoint strip_ones (rank : nat) (sh : list nat) : list nat :=
  match sh with
  | 1 :: t => if rank <? length sh then strip_ones rank t else sh
  | _ => sh
  end.

(** Whether a value [v] is stored entry by entry into a target of shape
    [tsh].  Stretching an inner axis of extent one is not modelled: every
    caller stores arrays of the target's own extents. *)
Definition assignable (v : ndarray) (tsh : list nat) : bool :=
  shape_eqb (strip_ones (length tsh) (shape v)) tsh
  && (length (data v) =? size_of_shape tsh).

Definition could_not_broadcast : exception :=
  ValueError "could not broadcast input array".

(** [a[n1:n2] = v] *)
Definition set_slice0 (a : ndarray) (n1 n2 : nat) (v : ndarray) : result ndarray :=
  let lo := clip_lo a n1 in
  let hi := clip_hi a n1 n2 in
  if assignable v ((hi - lo) :: tl (shape a))
  then Ok (mk_ndarray (shape a)
             (firstn (lo * stride0 a) (data a) ++ data v
                ++ skipn (hi * stride0 a) (data a)))
  else Raise could_not_broadcast.

(** The array [a] after the entry [i] of its first axis, a view, has been
    overwritten in place with the scalars [v]. *)
Definition store0 (a : ndarray) (i : nat) (v : list float) : ndarray :=
  mk_ndarray (shape a)
    (firstn (i * stride0 a) (data a) ++ v ++ skipn ((i + 1) * stride0 a) (data a)).

(** [a[i] = v] and [a[i, :, :] = v] *)
Definition setitem0 (a : ndarray) (i : nat) (v : ndarray) : result ndarray :=
  if i <? len0 a
  then if assignable v (tl (shape a))
       then Ok (store0 a i (data v))
       else Raise could_not_broadcast
  else Raise IndexError.

(** [a[i]] and [a[i] = x] on a one-dimensional array. *)
Definition item (a : ndarray) (i : nat) : float := nth i (data a) 0%float.

Definition set_scalar (a : ndarray) (i : nat) (x : float) : result ndarray :=
  if i <? len0 a
  then Ok (mk_ndarray (shape a) (list_update (data a) i x))
  else Raise IndexError.

(** Entry-wise operations.  Two arrays meet entry by entry when they have
    one shape; operands of different shapes raise (stretching is not
    modelled: the chain only combines arrays of one image's extents). *)
Definition amap (f : float -> float) (a : ndarray) : ndarray :=
  mk_ndarray (shape a) (map f (data a)).

Definition same_layout (a b : ndarray) : bool :=
  shape_eqb (shape a) (shape b) && (length (data a) =? length (data b)).

Definition operands_could_not_be_broadcast : exception :=
  ValueError "operands could not be broadcast together".

Definition amap2 (f : float -> float -> float) (a b : ndarray) : result ndarray :=
  if same_layout a b
  then Ok (mk_ndarray (shape a) (map2 f (data a) (data b)))
  else Raise operands_could_not_be_broadcast.

(** What the model leaves to NumPy: [np.argsort] of an array of more than
    16 entries, which its quicksort partitions first, and [a.sum()] over 8
    or more contiguous entries, which it adds in blocks. *)
Class Numpy : Type := {
  argsort_long : list float -> list nat;
  sum_blocked : list float -> float
}.

Module Np.
Local Open Scope float_scope.

Definition add (a b : ndarray) : result ndarray := amap2 PrimFloat.add a b.
Definition sub (a b : ndarray) : result ndarray := amap2 PrimFloat.sub a b.
(** [a * x], [x * a] and [a / x] for a scalar [x]. *)
Definition mul_s (a : ndarray) (x : float) : ndarray := amap (fun y => y * x) a.
Definition s_mul (x : float) (a : ndarray) : ndarray := amap (fun y => x * y) a.
Definition div_s (a : ndarray) (x : float) : ndarray := amap (fun y => y / x) a.

(** A reduction along an axis adds from the left, in index order, from
    zero. *)
Definition sum (l : list float) : float := fold_left PrimFloat.add l 0.

(** [a.sum()] over all of a contiguous array: in index order below 8
    entries. *)
Definition total `{Numpy} (l : list float) : float :=
  if (length l <? 8)%nat then sum l else sum_blocked l.

(** [np.vdot(a, b)] on real arrays: the sum of the products of the
    flattened operands, taken in index order. *)
Definition vdot (a b : ndarray) : result float :=
  if (length (data a) =? length (data b))%nat
  then Ok (sum (map2 PrimFloat.mul (data a) (data b)))
  else Raise (ValueError "cannot reshape array").

(** [np.linalg.norm(a)]: the square root of [a.ravel()] dotted with
    itself. *)
Definition norm (a : ndarray) : float :=
  sqrt (sum (map2 PrimFloat.mul (data a) (data a))).

(** [a.max()] *)
Definition max (l : list float) : result float :=
  match l with
  | [] => Raise (ValueError "zero-size array to reduction operation maximum which has no identity")
  | x :: t => Ok (fold_left F64.np_maximum t x)
  end.

(** [np.cumsum(l)] *)
Fixpoint cumsum_from (acc : float) (l : list float) : list float :=
  match l with
  | [] => []
  | x :: t => (acc + x) :: cumsum_from (acc + x) t
  end.

Definition cumsum (l : list float) : list float :=
  match l with
  | [] => []
  | x :: t => x :: cumsum_from x t
  end.

(** [np.argsort(v)] on at most 16 entries: NumPy's default sort does such
    an array by insertion alone, an index moving left past every index
    whose value is strictly greater in NumPy's order.  [desc] holds the
    indices placed so far, the last of them first. *)
Fixpoint sift (lt : nat -> nat -> bool) (vi : nat) (desc : list nat) : list nat :=
  match desc with
  | [] => [vi]
  | vk :: rest => if lt vi vk then vk :: sift lt vi rest else vi :: desc
  end.

Definition argsort_desc (v : list float) : list nat :=
  fold_left (fun desc vi =>
               sift (fun a b => F64.npy_lt (nth a v 0) (nth b v 0)) vi desc)
            (seq 0 (length v)) [].

(** A longer array is partitioned before its parts are sorted by insertion;
    where that leaves equal entries is the library's own. *)
Definition argsort `{Numpy} (v : list float) : list nat :=
  if (length v <=? 16)%nat then rev (argsort_desc v) else argsort_long v.
End Np.

(** ** What the chain borrows from the rest of ASE and from its libraries *)

(** [np.empty] hands out memory that holds whatever was there before. *)
Class Memory : Type := { uninitialized : float }.

Definition np_empty `{Memory} (sh : list nat) : ndarray := np_full sh uninitialized.

(** Modelled from the spec: the configuration of its data model ([ase.Atoms]
    is not among the sources): [N] atoms in a fixed order, each with an
    atomic number and a position, a cell, a three-entry periodic-boundary
    mask and an optional calculator, known here by its identity. *)
Record Atoms : Type := mk_Atoms {
  positions : ndarray;
  numbers : list Z;
  cell : ndarray;
  pbc : bool * bool * bool;
  calc : option nat
}.

(** The calculator contract: an oracle for the energy and the forces of a
    configuration, one per calculator identity. *)
Class Calculator : Type := {
  potential_energy : nat -> Atoms -> float;
  calculator_forces : nat -> Atoms -> ndarray
}.

Module Atoms.
(** [len(atoms)] *)
Definition len (a : Atoms) : nat := len0 (positions a).

Definition get_positions (a : Atoms) : ndarray := positions a.

Definition with_positions (p : ndarray) (a : Atoms) : Atoms :=
  mk_Atoms p (numbers a) (cell a) (pbc a) (calc a).

(** Modelled from the spec: a configuration keeps its atom count, so new
    positions must have the shape of the old ones; constraints on atoms
    are outside the chain. *)
Definition set_positions (a : Atoms) (p : ndarray) : result Atoms :=
  if shape_eqb (shape p) (shape (positions a))
  then Ok (with_positions p a)
  else Raise (ValueError "Array has wrong shape").

Definition no_calculator : exception :=
  RuntimeError "Atoms object has no calculator.".

Definition get_potential_energy `{Calculator} (a : Atoms) : result float :=
  match calc a with
  | Some c => Ok (potential_energy c a)
  | None => Raise no_calculator
  end.

Definition get_forces `{Calculator} (a : Atoms) : result ndarray :=
  match calc a with
  | Some c => Ok (calculator_forces c a)
  | None => Raise no_calculator
  end.

(** Every per-atom array of a configuration has one entry per atom, and a
    position has three coordinates. *)
Definition well_formed (a : Atoms) : Prop :=
  shape (positions a) = [len a; 3] /\ well_shaped (positions a)
  /\ length (numbers a) = len a.
End Atoms.

(** The geometry kernel, which is not among the sources.  [find_mic] returns
    the minimum-image vectors and their lengths; [superpose target p] is the
    position array of [p] after the rigid motion that brings it closest to
    [target]. *)
Class Geometry : Type := {
  find_mic : ndarray -> ndarray -> bool * bool * bool -> ndarray * ndarray;
  superpose : ndarray -> ndarray -> ndarray
}.

(** Modelled from the spec: [align(ref, target)] "rigidly rotates and
    translates target to minimize RMSD against ref"
    ([ase.build.minimize_rotation_and_translation] is not among the
    sources).  It moves the atoms of its second argument and nothing else. *)
Definition minimize_rotation_and_translation `{Geometry} (target atoms : Atoms) : Atoms :=
  Atoms.with_positions (superpose (positions target) (positions atoms)) atoms.

(** ** ChainOfStates *)

Module ChainOfStates.

Record t : Type := mk {
  images : list Atoms;
  nsteps : nat;
  natoms : nat;
  nimages : nat
}.

Definition with_images (l : list Atoms) (self : t) : t :=
  mk l (nsteps self) (natoms self) (nimages self).

(** [(a != b).any()] on the periodic-boundary masks. *)
Definition pbc_differ (p q : bool * bool * bool) : bool :=
  let '(p1, p2, p3) := p in
  let '(q1, q2, q3) := q in
  negb (Bool.eqb p1 q1) || negb (Bool.eqb p2 q2) || negb (Bool.eqb p3 q3).

(** [(a != b).any()] on two arrays of atomic numbers of one length. *)
Definition numbers_differ (a b : list Z) : bool :=
  existsb (fun x => x) (map2 (fun x y => negb (x =? y)%Z) a b).

Definition different_numbers_of_atoms : exception :=
  ValueError "Images have different numbers of atoms".
Definition different_boundary_conditions : exception :=
  ValueError "Images have different boundary conditions".
Definition different_orders : exception :=
  ValueError "Images have atoms in different orders".

(** The loop of [__init__] over the images. *)
Fixpoint check_images (first : Atoms) (n : nat) (imgs : list Atoms) : result unit :=
  match imgs with
  | [] => Ok tt
  | img :: rest =>
      if negb (Atoms.len img =? n) then Raise different_numbers_of_atoms
      else if pbc_differ (pbc img) (pbc first) then Raise different_boundary_conditions
      else if numbers_differ (numbers img) (numbers first) then Raise different_orders
      else check_images first n rest
  end.

Definition negative_dimensions : exception :=
  ValueError "negative dimensions are not allowed".

Definition __init__ (imgs : list Atoms) : result t :=
  try first := getitem imgs 0 in
  let n := Atoms.len first in
  try _ := check_images first n imgs in
  Ok (mk imgs 0 n (length imgs)).

Section Methods.
Context `{Memory}.

(** The loop of [get_positions] over [self.images[1:-1]]. *)
Fixpoint get_positions_loop (n : nat) (imgs : list Atoms) (n1 : nat)
    (positions : ndarray) : result ndarray :=
  match imgs with
  | [] => Ok positions
  | image :: rest =>
      let n2 := n1 + n in
      try positions' := set_slice0 positions n1 n2 (Atoms.get_positions image) in
      get_positions_loop n rest n2 positions'
  end.

(** A chain of fewer than two images asks [np.empty] for a negative
    number of rows. *)
Definition negative_rows (self : t) : bool :=
  (nimages self <? 2) && (0 <? natoms self).

Definition get_positions (self : t) : result ndarray :=
  if negative_rows self then Raise negative_dimensions else
  let positions := np_empty [(nimages self - 2) * natoms self; 3] in
  get_positions_loop (natoms self) (interior (images self)) 0 positions.

Definition get_dofs (self : t) : result ndarray :=
  try p := get_positions self in Ok (ravel p).
End Methods.

(** [image.set_positions(...)] on image [i] of the chain. *)
Definition set_image (i : nat) (a : Atoms) (self : t) : t :=
  with_images (list_update (images self) i a) self.

(** The loop of [set_positions] over [enumerate(self.images[1:-1])]: the
    image numbered [i] by [enumerate] is image [i + 1] of the chain, the
    object the chain holds at that place. *)
Fixpoint set_positions_loop (positions : ndarray) (idx : list nat) (n1 : nat) : M t unit :=
  match idx with
  | [] => ret tt
  | i :: rest =>
      self <- get ;;
      image <- lift (getitem (images self) (S i)) ;;
      let n2 := n1 + natoms self in
      image' <- lift (Atoms.set_positions image (slice0 positions n1 n2)) ;;
      modify (set_image (S i) image') ;;
      set_positions_loop positions rest n2
  end.

Definition set_positions (positions : ndarray) : M t unit :=
  self <- get ;;
  set_positions_loop positions (seq 0 (length (interior (images self)))) 0.

(** [set_dofs] calls [self.set_positions], the method of the object's own
    class, which a derived class overrides. *)
Definition set_dofs {S} (base : S -> t) (set_positions : ndarray -> M S unit)
    (dofs : ndarray) : M S unit :=
  self <- get ;;
  positions <- lift (if (nimages (base self) <? 2) && (0 <? natoms (base self))
                     then reshape_rows3 dofs  (* a negative extent is inferred *)
                     else reshape dofs [(nimages (base self) - 2) * natoms (base self); 3]) ;;
  set_positions positions.

(** [__len__] *)
Definition len (self : t) : nat := (nimages self - 2) * natoms self.

Definition get_forces {S} : M S ndarray :=
  raise (NotImplementedError "").

(** [(a**2).sum(axis=1)] on the entries [j] of one entry of the first
    axis, whose trailing axes hold [r] scalars. *)
Definition sum_axis1_block (d1 r : nat) (block : list float) : list float :=
  map (fun c => Np.sum (map (fun j => F64.square (nth (j * r + c) block 0%float)) (seq 0 d1)))
      (seq 0 r).

(** [np.sqrt((a**2).sum(axis=1)).max()] *)
Definition max_row_norm (a : ndarray) : result float :=
  match shape a with
  | d0 :: d1 :: rest =>
      let r := size_of_shape rest in
      Np.max (map PrimFloat.sqrt
                (flat_map (fun i => sum_axis1_block d1 r
                                      (firstn (d1 * r) (skipn (i * (d1 * r)) (data a))))
                          (seq 0 d0)))
  | _ => Raise (ValueError "axis 1 is out of bounds")
  end.

(** The loop of [get_fmax_all] over [range(self.nimages - 2)]. *)
Fixpoint get_fmax_all_loop (n : nat) (f_i : ndarray) (idx : list nat) : result (list float) :=
  match idx with
  | [] => Ok []
  | i :: rest =>
      let n1 := n * i in
      let n2 := n + n * i in
      try m := max_row_norm (slice0 f_i n1 n2) in
      try ms := get_fmax_all_loop n f_i rest in
      Ok (m :: ms)
  end.

(** [get_fmax_all(self)] calls [self.get_forces()], the method of the
    object's own class. *)
Definition get_fmax_all {S} (base : S -> t) (get_forces : M S ndarray) : M S (list float) :=
  self <- get ;;
  let n := natoms (base self) in
  f_i <- get_forces ;;
  self' <- get ;;
  lift (get_fmax_all_loop n f_i (seq 0 (nimages (base self') - 2))).

End ChainOfStates.

(** ** NEB *)

(** The communicator of [ase.parallel]: its size and the rank of this
    process. *)
Record World : Type := mk_World { size : nat; rank : nat }.

(** The argument [k]: one number, or one number per spring. *)
Inductive spring_constants : Type :=
| Scalar (x : float)
| Springs (l : list float).

Module NEB.

Record t : Type := mk {
  base : ChainOfStates.t;
  climb : bool;
  parallel : bool;
  emax : float;
  remove_rotation_and_translation : bool;
  dynamic_relaxation : bool;
  fmax : float;
  scale_fmax : float;
  method : string;
  k : list float;
  world : World;
  real_forces : option ndarray;
  energies : option ndarray;
  imax : option nat
}.

Definition images (self : t) : list Atoms := ChainOfStates.images (base self).
Definition natoms (self : t) : nat := ChainOfStates.natoms (base self).
Definition nimages (self : t) : nat := ChainOfStates.nimages (base self).

Definition with_base (b : ChainOfStates.t) (self : t) : t :=
  mk b (climb self) (parallel self) (emax self) (remove_rotation_and_translation self)
     (dynamic_relaxation self) (fmax self) (scale_fmax self) (method self) (k self)
     (world self) (real_forces self) (energies self) (imax self).

Definition with_emax (e : float) (self : t) : t :=
  mk (base self) (climb self) (parallel self) e (remove_rotation_and_translation self)
     (dynamic_relaxation self) (fmax self) (scale_fmax self) (method self) (k self)
     (world self) (real_forces self) (energies self) (imax self).

Definition with_real_forces (f : ndarray) (self : t) : t :=
  mk (base self) (climb self) (parallel self) (emax self) (remove_rotation_and_translation self)
     (dynamic_relaxation self) (fmax self) (scale_fmax self) (method self) (k self)
     (world self) (Some f) (energies self) (imax self).

Definition with_energies (e : ndarray) (self : t) : t :=
  mk (base self) (climb self) (parallel self) (emax self) (remove_rotation_and_translation self)
     (dynamic_relaxation self) (fmax self) (scale_fmax self) (method self) (k self)
     (world self) (real_forces self) (Some e) (imax self).

Definition with_imax (i : nat) (self : t) : t :=
  mk (base self) (climb self) (parallel self) (emax self) (remove_rotation_and_translation self)
     (dynamic_relaxation self) (fmax self) (scale_fmax self) (method self) (k self)
     (world self) (real_forces self) (energies self) (Some i).

Definition set_image (i : nat) (a : Atoms) (self : t) : t :=
  with_base (ChainOfStates.set_image i a (base self)) self.

Definition scaled_without_relaxation : exception :=
  ValueError "Scaled convergence criteria only implemented in series with dynamic_relaxation.".

Definition known_method (m : string) : bool :=
  existsb (String.eqb m) ["aseneb"; "eb"; "improvedtangent"]%string.

(** [assert world.size == 1 or world.size % (self.nimages - 2) == 0] *)
Definition world_fits (w : World) (n : nat) : result bool :=
  if size w =? 1 then Ok true
  else if n =? 2 then Raise ZeroDivisionError
  else Ok ((Z.of_nat (size w) mod (Z.of_nat n - 2) =? 0)%Z).

Definition __init__ (imgs : list Atoms) (k : spring_constants) (fmax : float)
    (climb parallel remove_rotation_and_translation : bool) (world : World)
    (method : string) (dynamic_relaxation : bool) (scale_fmax : float) : result t :=
  try b := ChainOfStates.__init__ imgs in
  if negb dynamic_relaxation && F64.truthy scale_fmax
  then Raise scaled_without_relaxation
  else if negb (known_method method) then Raise (NotImplementedError method)
  else
    let k := match k with
             | Scalar x => repeat x (ChainOfStates.nimages b - 1)
             | Springs l => l
             end in
    try _ := (if parallel
              then try fits := world_fits world (ChainOfStates.nimages b) in
                   if fits then Ok tt else Raise AssertionError
              else Ok tt) in
    Ok (mk b climb parallel nan remove_rotation_and_translation dynamic_relaxation
           fmax scale_fmax method k world None None None).

(** A call binds its positional arguments to the parameters the method
    declares after [self] before the body runs, and raises when it is
    handed more of them. *)
Definition bind_arguments (name : string) (declared supplied : nat) : result unit :=
  if supplied <=? declared then Ok tt
  else Raise (TypeError (name ++ "() takes fewer positional arguments than were given")).

Definition dynamic_relaxation_in_parallel : exception :=
  ValueError "Dynamic relaxation does not work efficiently when parallelizing over images. Try AutoNEB routine for freezing images in parallel.".

(** The loop of [NEB.set_positions]; [get_forces] is the method of the
    object's own class.  [get_fmax_all] declares no parameter after
    [self] and is handed [self.images]. *)
Fixpoint set_positions_loop (get_forces : M t ndarray) (positions : ndarray)
    (idx : list nat) (n1 : nat) : M t unit :=
  match idx with
  | [] => ret tt
  | i :: rest =>
      self <- get ;;
      if dynamic_relaxation self then
        if parallel self then raise dynamic_relaxation_in_parallel
        else
          lift (bind_arguments "get_fmax_all" 0 1) ;;
          forces_dyn <- ChainOfStates.get_fmax_all base get_forces ;;
          f_i <- lift (getitem forces_dyn i) ;;
          self <- get ;;
          if (f_i <? fmax self)%float then
            set_positions_loop get_forces positions rest (n1 + natoms self)
          else
            let n2 := n1 + natoms self in
            image <- lift (getitem (images self) (S i)) ;;
            image' <- lift (Atoms.set_positions image (slice0 positions n1 n2)) ;;
            modify (set_image (S i) image') ;;
            set_positions_loop get_forces positions rest n2
      else
        let n2 := n1 + natoms self in
        image <- lift (getitem (images self) (S i)) ;;
        image' <- lift (Atoms.set_positions image (slice0 positions n1 n2)) ;;
        modify (set_image (S i) image') ;;
        set_positions_loop get_forces positions rest n2
  end.

Definition set_positions_with (get_forces : M t ndarray) (positions : ndarray) : M t unit :=
  self <- get ;;
  set_positions_loop get_forces positions (seq 0 (length (interior (images self)))) 0.

Definition shared_calculator : exception :=
  ValueError "One or more NEB images share the same calculator.  Each image must have its own calculator.  You may wish to use the ase.neb.SingleCalculatorNEB class instead, although using separate calculators is recommended.".

(** [[image.calc for image in images if image.calc is not None]] *)
Fixpoint calculators (imgs : list Atoms) : list nat :=
  match imgs with
  | [] => []
  | image :: rest =>
      match calc image with
      | Some c => c :: calculators rest
      | None => calculators rest
      end
  end.

(** [len(set(l)) != len(l)] *)
Fixpoint has_duplicates (l : list nat) : bool :=
  match l with
  | [] => false
  | c :: rest => existsb (Nat.eqb c) rest || has_duplicates rest
  end.

Section Forces.
Context `{Memory} `{Calculator} `{Geometry} `{Numpy}.
Local Open Scope float_scope.

(** The loop [for i in range(1, self.nimages)] that re-aligns each image
    on its predecessor. *)
Fixpoint align_loop (idx : list nat) : M t unit :=
  match idx with
  | [] => ret tt
  | i :: rest =>
      self <- get ;;
      target <- lift (getitem (images self) (i - 1)) ;;
      atoms <- lift (getitem (images self) i) ;;
      modify (set_image i (minimize_rotation_and_translation target atoms)) ;;
      align_loop rest
  end.

(** The energies of the two end images, which [aseneb] does not read. *)
Definition endpoint_energies (self : t) (energies : ndarray) : result ndarray :=
  if negb (method self =? "aseneb")%string then
    try first := getitem (images self) 0 in
    try e0 := Atoms.get_potential_energy first in
    try energies := set_scalar energies 0 e0 in
    try final := getitem_last (images self) in
    try e1 := Atoms.get_potential_energy final in
    set_scalar energies (len0 energies - 1) e1
  else Ok energies.

(** "Do all images - one at a time". *)
Fixpoint evaluate_serial (imgs : list Atoms) (idx : list nat)
    (energies forces x : ndarray) : result (ndarray * ndarray) :=
  match idx with
  | [] => Ok (energies, forces)
  | i :: rest =>
      try image := getitem imgs i in
      try e := Atoms.get_potential_energy image in
      try energies := set_scalar energies i e in
      try f := Atoms.get_forces image in
      try forces := setitem0 forces (i - 1)%nat f in
      try x := setitem0 x (i - 1)%nat (Atoms.get_positions image) in
      evaluate_serial imgs rest energies forces x
  end.

(** One thread of the shared-memory mode: it fills its own entries of
    the two arrays; an exception ends the thread and nothing else.  The
    threads write disjoint entries and the oracle is a function, so
    their outcome does not depend on the interleaving. *)
Definition run (image : Atoms) (i : nat) (ef : ndarray * ndarray) : ndarray * ndarray :=
  let (energies, forces) := ef in
  match Atoms.get_potential_energy image with
  | Raise _ => ef
  | Ok e =>
      match set_scalar energies i e with
      | Raise _ => ef
      | Ok energies' =>
          match Atoms.get_forces image with
          | Raise _ => (energies', forces)
          | Ok f =>
              match setitem0 forces (i - 1)%nat f with
              | Raise _ => (energies', forces)
              | Ok forces' => (energies', forces')
              end
          end
      end
  end.

Fixpoint threads (imgs : list Atoms) (idx : list nat) : result (list (Atoms * nat)) :=
  match idx with
  | [] => Ok []
  | i :: rest =>
      try image := getitem imgs i in
      try ts := threads imgs rest in
      Ok ((image, i) :: ts)
  end.

Definition evaluate_threads (imgs : list Atoms) (idx : list nat)
    (energies forces : ndarray) : result (ndarray * ndarray) :=
  try ts := threads imgs idx in
  Ok (fold_left (fun ef (th : Atoms * nat) => run (fst th) (snd th) ef) ts (energies, forces)).

(** The distributed mode as one rank sees it, every rank holding the
    same images: rank [q] evaluates one image into its own arrays. *)
Definition rank_image (self : t) (q : nat) : nat :=
  (q * (nimages self - 2) / size (world self) + 1)%nat.

Definition rank_evaluate (self : t) (energies forces : ndarray) (q : nat)
    : result (ndarray * ndarray) :=
  let i := rank_image self q in
  try image := getitem (images self) i in
  try e := Atoms.get_potential_energy image in
  try energies := set_scalar energies i e in
  try f := Atoms.get_forces image in
  try forces := setitem0 forces (i - 1)%nat f in
  Ok (energies, forces).

Definition failed {A} (r : result A) : bool :=
  match r with Ok _ => false | Raise _ => true end.

(** The broadcasts: entry [i] arrives from the rank
    [(i - 1) * size // (nimages - 2)]. *)
Fixpoint broadcast_loop (self : t) (energies0 forces0 : ndarray) (idx : list nat)
    (energies forces : ndarray) : result (ndarray * ndarray) :=
  match idx with
  | [] => Ok (energies, forces)
  | i :: rest =>
      let root := ((i - 1) * size (world self) / (nimages self - 2))%nat in
      try sent := rank_evaluate self energies0 forces0 root in
      try energies := set_scalar energies i (item (fst sent) i) in
      try f := getitem0 (snd sent) (i - 1)%nat in
      try forces := setitem0 forces (i - 1)%nat f in
      broadcast_loop self energies0 forces0 rest energies forces
  end.

Definition parallel_failed : exception := RuntimeError "Parallel NEB failed!".

Definition evaluate_distributed (self : t) (idx : list nat)
    (energies forces : ndarray) : result (ndarray * ndarray) :=
  try own := rank_evaluate self energies forces (rank (world self)) in
  if existsb (fun q => failed (rank_evaluate self energies forces q))
             (seq 0 (size (world self)))
  then Raise parallel_failed
  else broadcast_loop self energies forces idx (fst own) (snd own).

Definition evaluate (self : t) (energies forces x : ndarray) : result (ndarray * ndarray) :=
  let idx := seq 1 (nimages self - 2) in
  if negb (parallel self) then evaluate_serial (images self) idx energies forces x
  else if (size (world self) =? 1)%nat then evaluate_threads (images self) idx energies forces
  else evaluate_distributed self idx energies forces.

(** [deltavmax] and [deltavmin] at image [i]. *)
Definition deltav (energies : ndarray) (i : nat) : float * float :=
  let up := abs (item energies (i + 1) - item energies i) in
  let down := abs (item energies (i - 1) - item energies i) in
  (F64.py_max up down, F64.py_min up down).

(** The tangent at image [i], from the spring directions [t1] (towards
    image [i]) and [t2] (away from it). *)
Definition tangent_of (self : t) (energies : ndarray) (imax i : nat)
    (t1 : ndarray) (nt1 : float) (t2 : ndarray) (nt2 : float) : result ndarray :=
  if (method self =? "eb")%string then
    try tangent := Np.add (Np.div_s t1 nt1) (Np.div_s t2 nt2) in
    Ok (Np.div_s tangent (Np.norm tangent))
  else if (method self =? "improvedtangent")%string then
    try tangent :=
      (if F64.gtb (item energies (i + 1)) (item energies i)
          && F64.gtb (item energies i) (item energies (i - 1))
       then Ok t2
       else if (item energies (i + 1) <? item energies i)
               && (item energies i <? item energies (i - 1))
       then Ok t1
       else
         let (deltavmax, deltavmin) := deltav energies i in
         if F64.gtb (item energies (i + 1)) (item energies (i - 1))
         then Np.add (Np.mul_s t2 deltavmax) (Np.mul_s t1 deltavmin)
         else Np.add (Np.mul_s t2 deltavmin) (Np.mul_s t1 deltavmax)) in
    Ok (Np.div_s tangent (Np.norm tangent))
  else
    if (i <? imax)%nat then Ok t2
    else if (imax <? i)%nat then Ok t1
    else Np.add t1 t2.

(** [tt], which only [aseneb] computes and reads. *)
Definition tt_of (tangent : ndarray) : float :=
  Np.sum (map2 PrimFloat.mul (data tangent) (data tangent)).

(** [abs(i - self.imax) == 1] *)
Definition beside (i imax : nat) : bool :=
  ((i =? imax + 1) || (i + 1 =? imax))%nat.

(** The force [f] of image [i] after the updates in place that the
    method prescribes. *)
Definition effective_force (self : t) (energies : ndarray) (imax : nat)
    (eqlength : float) (i : nat) (t1 : ndarray) (nt1 : float) (t2 : ndarray)
    (nt2 : float) (tangent f : ndarray) : result ndarray :=
  try ft := Np.vdot f tangent in
  if (i =? imax)%nat && climb self then
    if (method self =? "aseneb")%string
    then Np.sub f (Np.s_mul (2 * ft / tt_of tangent) tangent)
    else Np.sub f (Np.s_mul (2 * ft) tangent)
  else if (method self =? "eb")%string then
    try f := Np.sub f (Np.s_mul ft tangent) in
    try k1 := getitem (k self) (i - 1) in
    let f1 := Np.mul_s (Np.div_s (Np.s_mul (- (nt1 - eqlength)) t1) nt1) k1 in
    try k2 := getitem (k self) i in
    let f2 := Np.mul_s (Np.div_s (Np.s_mul (nt2 - eqlength) t2) nt2) k2 in
    if climb self && beside i imax then
      let (deltavmax, deltavmin) := deltav energies i in
      try spring := Np.add f1 f2 in
      Np.add f (Np.div_s (Np.mul_s spring deltavmin) deltavmax)
    else
      try spring := Np.add f1 f2 in
      Np.add f spring
  else if (method self =? "improvedtangent")%string then
    try f := Np.sub f (Np.s_mul ft tangent) in
    try k2 := getitem (k self) i in
    try k1 := getitem (k self) (i - 1) in
    let f_spring := Np.s_mul (nt2 * k2 - nt1 * k1) tangent in
    Np.add f f_spring
  else
    let tt := tt_of tangent in
    try f := Np.sub f (Np.s_mul (ft / tt) tangent) in
    try k1 := getitem (k self) (i - 1) in
    try k2 := getitem (k self) i in
    try springs := Np.sub (Np.mul_s t1 k1) (Np.mul_s t2 k2) in
    try st := Np.vdot springs tangent in
    Np.sub f (Np.s_mul (st / tt) tangent).

(** [force_i] and the tolerance it is held against. *)
Definition force_norm (self : t) (i : nat) (forces : ndarray) : result float :=
  let n := natoms self in
  let n1 := (n * (i - 1))%nat in
  try rows := reshape_rows3 forces in
  ChainOfStates.max_row_norm (slice0 rows n1 (n1 + n)).

Definition tolerance (self : t) (imax i : nat) : result float :=
  let n := natoms self in
  let n1 := (n * (i - 1))%nat in
  let n1_imax := ((imax - 1) * n)%nat in
  try positions := ChainOfStates.get_positions (base self) in
  let pos_imax := slice0 positions n1_imax (n1_imax + n) in
  try d := Np.sub (slice0 positions n1 (n1 + n)) pos_imax in
  let rel_pos := sqrt (Np.total (map F64.square (data d))) in
  Ok (fmax self * (1 + rel_pos * scale_fmax self)).

(** The block [if self.dynamic_relaxation:] at the end of the loop
    body. *)
Definition relax (self : t) (imax i : nat) (forces : ndarray) : result ndarray :=
  if dynamic_relaxation self then
    try force_i := force_norm self i forces in
    try tol := tolerance self imax i in
    if force_i <? tol then
      if (i - 1 =? imax - 1)%nat then Ok forces
      else setitem0 forces (i - 1) (np_zeros [1; natoms self; 3]%nat)
    else Ok forces
  else Ok forces.

(** The spring direction from image [i] to image [i + 1]. *)
Definition spring_direction (self : t) (i : nat) : result ndarray :=
  try next := getitem (images self) (i + 1) in
  try image := getitem (images self) i in
  try d := Np.sub (Atoms.get_positions next) (Atoms.get_positions image) in
  Ok (fst (find_mic d (cell image) (pbc image))).

(** One turn of the loop [for i in range(1, self.nimages - 1)]: from
    [t1], [nt1] and [forces] to [t2], [nt2] and [forces]. *)
Definition image_step (self : t) (energies : ndarray) (imax : nat) (eqlength : float)
    (i : nat) (st : ndarray * float * ndarray) : result (ndarray * float * ndarray) :=
  let '(t1, nt1, forces) := st in
  try t2 := spring_direction self i in
  let nt2 := Np.norm t2 in
  try tangent := tangent_of self energies imax i t1 nt1 t2 nt2 in
  try f := getitem0 forces (i - 1) in
  try f := effective_force self energies imax eqlength i t1 nt1 t2 nt2 tangent f in
  let forces := store0 forces (i - 1) (data f) in
  try forces := relax self imax i forces in
  Ok (t2, nt2, forces).

Fixpoint forces_loop (self : t) (energies : ndarray) (imax : nat) (eqlength : float)
    (idx : list nat) (st : ndarray * float * ndarray) : result ndarray :=
  match idx with
  | [] => Ok (snd st)
  | i :: rest =>
      try st := image_step self energies imax eqlength i st in
      forces_loop self energies imax eqlength rest st
  end.

(** [eqlength], which only [eb] computes and reads. *)
Definition equilibrium_length (self : t) : result float :=
  if (method self =? "eb")%string then
    try final := getitem (images self) (nimages self - 1) in
    try first := getitem (images self) 0 in
    try beeline := Np.sub (Atoms.get_positions final) (Atoms.get_positions first) in
    Ok (Np.norm beeline / F64.of_nat (nimages self - 1))
  else Ok 0.

(** [get_forces] from the evaluation of the images on; [self] is the
    object as the alignment left it. *)
Definition project (self : t) : M t ndarray :=
  let forces := np_empty [nimages self - 2; natoms self; 3]%nat in
  let energies := np_empty [nimages self] in
  let x := np_empty [nimages self - 2; natoms self; 3]%nat in
  energies <- lift (endpoint_energies self energies) ;;
  ef <- lift (evaluate self energies forces x) ;;
  let (energies, forces) := ef in
  modify (with_energies energies) ;;
  real <- lift (set_slice0 (np_zeros [nimages self; natoms self; 3]%nat)
                  1 (nimages self - 1) forces) ;;
  modify (with_real_forces real) ;;
  top <- lift (getitem_last (Np.argsort (interior (data energies)))) ;;
  let imax := (1 + top)%nat in
  modify (with_imax imax) ;;
  modify (with_emax (item energies imax)) ;;
  t1 <- lift (spring_direction self 0) ;;
  eqlength <- lift (equilibrium_length self) ;;
  let nt1 := Np.norm t1 in
  forces <- lift (forces_loop self energies imax eqlength
                    (seq 1 (nimages self - 2)) (t1, nt1, forces)) ;;
  lift (reshape_rows3 forces).

Definition get_forces : M t ndarray :=
  self <- get ;;
  (if has_duplicates (calculators (images self)) then raise shared_calculator
   else ret tt) ;;
  (if (nimages self <? 2)%nat then raise ChainOfStates.negative_dimensions
   else ret tt) ;;
  (if remove_rotation_and_translation self
   then align_loop (seq 1 (nimages self - 1))
   else ret tt) ;;
  self <- get ;;
  project self.

Definition set_positions : ndarray -> M t unit := set_positions_with get_forces.

Definition get_positions (self : t) : result ndarray :=
  ChainOfStates.get_positions (base self).

Definition get_dofs (self : t) : result ndarray :=
  ChainOfStates.get_dofs (base self).

Definition set_dofs : ndarray -> M t unit :=
  ChainOfStates.set_dofs base set_positions.

Definition get_fmax_all : M t (list float) :=
  ChainOfStates.get_fmax_all base get_forces.

(** [get_potential_energy] *)
Definition get_potential_energy (self : t) : float := emax self.
End Forces.
End NEB.

(** ** IDPP *)

(** [x**y] for an exponent other than those NumPy turns into a
    multiplication or a square root: the [pow] of the C library. *)
Class Libm : Type := { pow : float -> float -> float }.

Module IDPP.

Record t : Type := mk { target : ndarray; mic : bool }.

Section Calculate.
Context `{Geometry} `{Libm} `{Numpy}.
Local Open Scope float_scope.

(** Row [j] of a two-dimensional array of row length [r]. *)
Definition row (r : nat) (l : list float) (j : nat) : list float :=
  firstn r (skipn (j * r) l).

(** [P - p]: the row [p] taken from every row of [P]. *)
Definition minus_row (P : ndarray) (p : list float) : ndarray :=
  mk_ndarray (shape P)
    (flat_map (fun j => map2 PrimFloat.sub (row 3 (data P) j) p) (seq 0 (len0 P))).

(** [np.sqrt((Di**2).sum(1))] *)
Definition row_lengths (Di : ndarray) : ndarray :=
  mk_ndarray [len0 Di]
    (map (fun j => sqrt (Np.sum (map F64.square (row (stride0 Di) (data Di) j))))
         (seq 0 (len0 Di))).

(** The body of [for p in P]: the displacements [Di] from atom [i] and
    their lengths [di]. *)
Definition displacements (self : t) (atoms : Atoms) (i : nat) : ndarray * ndarray :=
  let P := Atoms.get_positions atoms in
  let Di := minus_row P (row 3 (data P) i) in
  if mic self then find_mic Di (cell atoms) (pbc atoms)
  else (Di, row_lengths Di).

Definition ragged : exception :=
  ValueError "setting an array element with a sequence.".

(** [np.array(rows)] for a list of arrays that must all have the shape
    [sh]. *)
Fixpoint stack (sh : list nat) (rows : list ndarray) : result (list float) :=
  match rows with
  | [] => Ok []
  | a :: rest =>
      if shape_eqb (shape a) sh && (length (data a) =? size_of_shape sh)%nat
      then try tail := stack sh rest in Ok (data a ++ tail)
      else Raise ragged
  end.

(** [l[::step] = v] on a flat array. *)
Fixpoint set_every (step : nat) (v : float) (countdown : nat) (l : list float) : list float :=
  match l with
  | [] => []
  | x :: rest =>
      match countdown with
      | O => v :: set_every step v (step - 1) rest
      | S c => x :: set_every step v c rest
      end
  end.

(** Column [c] of atom [j] summed over the first axis of an array of
    shape [(n, n, 3)]. *)
Definition sum_axis0 (n : nat) (l : list float) : list float :=
  flat_map (fun j =>
              map (fun c => Np.sum (map (fun i => nth (i * (n * 3) + j * 3 + c) l 0) (seq 0 n)))
                  (seq 0 3))
           (seq 0 n).

(** [calculate]: the energy and the forces it stores in [results]. *)
Definition calculate (self : t) (atoms : Atoms) : result (float * ndarray) :=
  let P := Atoms.get_positions atoms in
  let n := len0 P in
  let rows := map (displacements self atoms) (seq 0 n) in
  try d := stack [n] (map snd rows) in
  try D := stack [n; 3]%nat (map fst rows) in
  let d := mk_ndarray [n; n] d in
  try dd := Np.sub d (target self) in
  let d := set_every (n + 1) 1 0 (data d) in
  let d4 := map (fun x => pow x 4) d in
  let e := 0.5 * Np.total (map2 PrimFloat.div (map F64.square (data dd)) d4) in
  let coefficient :=
    map2 PrimFloat.div
         (map2 PrimFloat.mul (data dd)
               (map (fun q => 1 - q) (map2 PrimFloat.div (map (fun x => 2 * x) (data dd)) d)))
         (map (fun x => pow x 5) d) in
  let weighted :=
    map2 PrimFloat.mul (flat_map (fun c => [c; c; c]) coefficient) D in
  let f := mk_ndarray [n; 3]%nat (map (fun x => -2 * x) (sum_axis0 n weighted)) in
  Ok (e, f).

(** The claim's words, with the spec's indices: [D_ij = p_j - p_i],
    [d_ij] its length, [Delta_ij = d_ij - T_ij], and [d_ij] replaced by
    one on the diagonal. *)
Definition D_ (self : t) (atoms : Atoms) (i j c : nat) : float :=
  nth (j * 3 + c) (data (fst (displacements self atoms i))) 0.

Definition d_raw (self : t) (atoms : Atoms) (i j : nat) : float :=
  nth j (data (snd (displacements self atoms i))) 0.

Definition Delta (self : t) (atoms : Atoms) (i j : nat) : float :=
  d_raw self atoms i j - nth (i * len0 (positions atoms) + j) (data (target self)) 0.

Definition d_ (self : t) (atoms : Atoms) (i j : nat) : float :=
  if (i =? j)%nat then 1 else d_raw self atoms i j.

Definition pairs (n : nat) : list (nat * nat) :=
  flat_map (fun i => map (fun j => (i, j)) (seq 0 n)) (seq 0 n).

(** [E = 1/2 sum_ij Delta_ij^2 / d_ij^4] *)
Definition energy_formula (self : t) (atoms : Atoms) : float :=
  0.5 * Np.total (map (fun ij => F64.square (Delta self atoms (fst ij) (snd ij))
                               / pow (d_ self atoms (fst ij) (snd ij)) 4)
                    (pairs (len0 (positions atoms)))).

(** [Delta_ij (1 - 2 Delta_ij / d_ij) / d_ij^5] *)
Definition weight (self : t) (atoms : Atoms) (i j : nat) : float :=
  Delta self atoms i j * (1 - 2 * Delta self atoms i j / d_ self atoms i j)
  / pow (d_ self atoms i j) 5.

(** The force on atom [i] as the claim writes it: the sum runs over the
    second index. *)
Definition force_formula_claimed (self : t) (atoms : Atoms) (i c : nat) : float :=
  -2 * Np.sum (map (fun j => weight self atoms i j * D_ self atoms i j c)
                   (seq 0 (len0 (positions atoms)))).

(** The same sum over the first index: the force on atom [j]. *)
Definition force_formula (self : t) (atoms : Atoms) (j c : nat) : float :=
  -2 * Np.sum (map (fun i => weight self atoms i j * D_ self atoms i j c)
                   (seq 0 (len0 (positions atoms)))).
End Calculate.
End IDPP.

(** ** PreconMEP *)

(** The preconditioner contract of [ase.optimize.precon], which is not
    among the sources: an object built by name, rebuilt from a
    configuration, with its inner product, its norm, its solve (which also
    rebuilds it) and its forward product. *)
Class Preconditioner : Type := {
  precon : Type;
  make_precon : string -> result precon;
  rebuild : precon -> Atoms -> precon;
  P_dot : precon -> ndarray -> ndarray -> float;
  P_norm : precon -> ndarray -> float;
  P_apply : precon -> ndarray -> Atoms -> ndarray * precon;
  P_Pdot : precon -> ndarray -> ndarray
}.

(** The interpolant of [scipy.interpolate.CubicSpline] with the
    "not-a-knot" end condition: [fit] builds it from knots it has accepted,
    [spline_at sp nu u] is its derivative of order [nu] at [u]. *)
Class Interpolation : Type := {
  spline : Type;
  fit : ndarray -> ndarray -> spline;
  spline_at : spline -> nat -> float -> ndarray
}.

(** What [CubicSpline(x, y)] asks of its knots [x] and values [y] before it
    fits; [np.any(np.diff(x) <= 0)] is the last of its tests. *)
Fixpoint some_step_not_positive (l : list float) : bool :=
  match l with
  | a :: ((b :: _) as rest) => (b - a <=? 0)%float || some_step_not_positive rest
  | _ => false
  end.

Definition CubicSpline `{Interpolation} (x y : ndarray) : result spline :=
  if negb (length (shape x) =? 1) then Raise (ValueError "`x` must be 1-dimensional.")
  else if len0 x <? 2 then Raise (ValueError "`x` must contain at least 2 elements.")
  else if negb (len0 x =? len0 y)
  then Raise (ValueError "The length of `y` along `axis`=0 doesn't match the length of `x`")
  else if negb (forallb F64.isfinite (data x))
  then Raise (ValueError "`x` must contain only finite values.")
  else if negb (forallb F64.isfinite (data y))
  then Raise (ValueError "`y` must contain only finite values.")
  else if some_step_not_positive (data x)
  then Raise (ValueError "`x` must be strictly increasing sequence.")
  else Ok (fit x y).

(** The argument [norm] of [spline_fit]: the string ['precon'] or a
    function. *)
Inductive norm_argument : Type :=
| precon_norm
| callable (f : ndarray -> float).

Module PreconMEP.
Section Class.
Context `{Memory} `{Calculator} `{Geometry} `{Numpy} `{Preconditioner} `{Interpolation}.
Local Open Scope float_scope.

Record t : Type := mk {
  base : ChainOfStates.t;
  precon_method : string;
  precons : list precon;
  method : string;
  k : list float;
  residuals : ndarray;
  fmax_history : list float;
  get_all_forces : option (list Atoms -> ndarray)
}.

Definition images (self : t) : list Atoms := ChainOfStates.images (base self).
Definition natoms (self : t) : nat := ChainOfStates.natoms (base self).
Definition nimages (self : t) : nat := ChainOfStates.nimages (base self).

Definition with_base (b : ChainOfStates.t) (self : t) : t :=
  mk b (precon_method self) (precons self) (method self) (k self)
     (residuals self) (fmax_history self) (get_all_forces self).

Definition with_precons (l : list precon) (self : t) : t :=
  mk (base self) (precon_method self) l (method self) (k self)
     (residuals self) (fmax_history self) (get_all_forces self).

Definition with_residuals (r : ndarray) (self : t) : t :=
  mk (base self) (precon_method self) (precons self) (method self) (k self)
     r (fmax_history self) (get_all_forces self).

(** [str.lower] on the letters A to Z. *)
Definition lower_ascii (c : Ascii.ascii) : Ascii.ascii :=
  let n := Ascii.nat_of_ascii c in
  if (65 <=? n)%nat && (n <=? 90)%nat then Ascii.ascii_of_nat (n + 32) else c.

Fixpoint lower (s : string) : string :=
  match s with
  | EmptyString => EmptyString
  | String c rest => String (lower_ascii c) (lower rest)
  end.

Definition __init__ (imgs : list Atoms) (precon_name method : string)
    (k : spring_constants) (get_all_forces : option (list Atoms -> ndarray)) : result t :=
  try b := ChainOfStates.__init__ imgs in
  try P0 := make_precon precon_name in
  try first := getitem imgs 0 in
  let P0 := rebuild P0 first in
  let Ps := P0 :: map (rebuild P0) (tl imgs) in
  let method := lower method in
  if negb (existsb (String.eqb method) ["neb"; "string"]%string)
  then Raise (ValueError "method must be one of ['neb', 'string']")
  else
    let k := match k with
             | Scalar x => repeat x (ChainOfStates.nimages b - 1)
             | Springs l => l
             end in
    if (ChainOfStates.nimages b <? 2)%nat then Raise ChainOfStates.negative_dimensions
    else
    Ok (mk b precon_name Ps method k (np_empty [ChainOfStates.nimages b - 2]%nat)
           [] get_all_forces).

(** [d_P[i]] for [i >= 1]. *)
Definition distance (self : t) (norm : norm_argument) (i : nat) : result float :=
  try image := getitem (images self) i in
  try previous := getitem (images self) (i - 1) in
  try d := Np.sub (positions image) (positions previous) in
  let dx := ravel (fst (find_mic d (cell previous) (pbc previous))) in
  match norm with
  | precon_norm =>
      try Pi := getitem (precons self) i in
      try Pp := getitem (precons self) (i - 1) in
      Ok (sqrt (0.5 * (P_dot Pi dx dx + P_dot Pp dx dx)))
  | callable f => Ok (f dx)
  end.

(** The loop of [spline_fit] over [range(1, self.nimages)]: the rows
    of [x] and the entries of [d_P]. *)
Fixpoint spline_fit_loop (self : t) (norm : norm_argument) (idx : list nat)
    (x d_P : ndarray) : result (ndarray * ndarray) :=
  match idx with
  | [] => Ok (x, d_P)
  | i :: rest =>
      try image := getitem (images self) i in
      try x := setitem0 x i (ravel (positions image)) in
      try d := distance self norm i in
      try d_P := set_scalar d_P i d in
      spline_fit_loop self norm rest x d_P
  end.

(** The knots [s = d_P.cumsum() / d_P.sum()]. *)
Definition reaction_coordinate (d_P : ndarray) : ndarray :=
  Np.div_s (mk_ndarray (shape d_P) (Np.cumsum (data d_P))) (Np.total (data d_P)).

Definition path_lengths (self : t) (norm : norm_argument) : result (ndarray * ndarray) :=
  let d_P := np_zeros [nimages self] in
  let x := np_zeros [nimages self; 3 * natoms self]%nat in
  try first := getitem (images self) 0 in
  try x := setitem0 x 0 (ravel (positions first)) in
  spline_fit_loop self norm (seq 1 (nimages self - 1)) x d_P.

Definition spline_fit (self : t) (norm : norm_argument) : result (ndarray * spline) :=
  try xd := path_lengths self norm in
  let s := reaction_coordinate (snd xd) in
  try x_spline := CubicSpline s (fst xd) in
  Ok (s, x_spline).

Definition shared_calculator : exception :=
  ValueError "One or more NEB images share the same calculator.  Each image must have its own calculator.  ".

(** The raw forces of the interior images. *)
Fixpoint raw_forces_loop (imgs : list Atoms) (idx : list nat) (forces : ndarray)
    : result ndarray :=
  match idx with
  | [] => Ok forces
  | i :: rest =>
      try image := getitem imgs i in
      try f := Atoms.get_forces image in
      try forces := setitem0 forces (i - 1)%nat f in
      raw_forces_loop imgs rest forces
  end.

Definition raw_forces (self : t) : result ndarray :=
  let forces := np_empty [nimages self - 2; natoms self; 3]%nat in
  match get_all_forces self with
  | Some all =>
      let v := all (interior (images self)) in
      if assignable v (shape forces) then Ok (mk_ndarray (shape forces) (data v))
      else Raise could_not_broadcast
  | None =>
      if NEB.has_duplicates (NEB.calculators (images self)) then Raise shared_calculator
      else raw_forces_loop (images self) (seq 1 (nimages self - 2)) forces
  end.

(** [np.linalg.norm(v, np.inf)] *)
Definition norm_inf (v : ndarray) : result float :=
  Np.max (map abs (data v)).

(** One turn of the loop of [get_forces] over the interior images. *)
Definition image_step (s : ndarray) (x_spline : spline) (i : nat) (forces : ndarray)
    : M t ndarray :=
  self <- get ;;
  f <- lift (getitem0 forces (i - 1)) ;;
  let f_vec := ravel f in
  Pi <- lift (getitem (precons self) i) ;;
  image <- lift (getitem (images self) i) ;;
  let (pf_vec, Pi) := P_apply Pi f_vec image in
  modify (with_precons (list_update (precons self) i Pi)) ;;
  let t_P := spline_at x_spline 1 (item s i) in
  let t_P := Np.div_s t_P (P_norm Pi t_P) in
  along <- lift (Np.vdot t_P f_vec) ;;
  pf_vec <- lift (Np.sub pf_vec (Np.s_mul along t_P)) ;;
  residual <- lift (norm_inf (P_Pdot Pi pf_vec)) ;;
  self <- get ;;
  residuals <- lift (set_scalar (residuals self) (i - 1) residual) ;;
  modify (with_residuals residuals) ;;
  pf_vec <- (if (method self =? "neb")%string then
               k1 <- lift (getitem (k self) (i - 1)) ;;
               k2 <- lift (getitem (k self) i) ;;
               let kbar := 0.5 * (k1 + k2) / (F64.of_nat (nimages self * nimages self)) in
               let eta_Pn :=
                 Np.s_mul (kbar * P_dot Pi (spline_at x_spline 2 (item s i)) t_P) t_P in
               lift (Np.add pf_vec eta_Pn)
             else ret pf_vec) ;;
  block <- lift (reshape pf_vec [natoms self; 3]%nat) ;;
  lift (setitem0 forces (i - 1) block).

Fixpoint forces_loop (s : ndarray) (x_spline : spline) (idx : list nat) (forces : ndarray)
    : M t ndarray :=
  match idx with
  | [] => ret forces
  | i :: rest =>
      forces <- image_step s x_spline i forces ;;
      forces_loop s x_spline rest forces
  end.

Definition get_forces : M t ndarray :=
  self <- get ;;
  forces <- (if (nimages self <? 2)%nat then raise ChainOfStates.negative_dimensions
             else lift (raw_forces self)) ;;
  fit <- lift (spline_fit self precon_norm) ;;
  let (s, x_spline) := fit in
  modify (with_residuals (amap (fun _ => 0) (residuals self))) ;;
  forces_loop s x_spline (seq 1 (nimages self - 2)) forces.

Definition set_positions (positions : ndarray) : M t unit :=
  zoom base with_base (ChainOfStates.set_positions positions).

Definition set_dofs : ndarray -> M t unit :=
  ChainOfStates.set_dofs base set_positions.

Definition get_dofs (self : t) : result ndarray :=
  ChainOfStates.get_dofs (base self).

Definition force_function (X : ndarray) : M t ndarray :=
  set_dofs X ;;
  f <- get_forces ;;
  ret (ravel f).

Definition get_fmax_all (self : t) : ndarray := residuals self.

(** [get_residual]: [np.max(self.residuals)] *)
Definition get_residual (self : t) : result float := Np.max (data (residuals self)).
End Class.
End PreconMEP.

(** ** Error kinds of the spec *)

(** "Atom count, pbc, or atomic numbers differ across images." *)
Definition ShapeMismatch (e : exception) : Prop :=
  e = ChainOfStates.different_numbers_of_atoms
  \/ e = ChainOfStates.different_boundary_conditions
  \/ e = ChainOfStates.different_orders.

(** "Unknown method, [scale_fmax] without [dynamic_relaxation]." *)
Definition ConfigError (e : exception) : Prop :=
  e = NEB.scaled_without_relaxation \/ exists m, e = NotImplementedError m.

(** The images agree with the first one in atom count, periodic-boundary
    mask and atomic numbers. *)
Definition consistent (imgs : list Atoms) : Prop :=
  forall first, hd_error imgs = Some first ->
    Forall (fun img => Atoms.len img = Atoms.len first
                       /\ pbc img = pbc first
                       /\ numbers img = numbers first) imgs.

(** ** Calls an optimizer makes on a band *)


Section Optimizer.
Context `{Memory} `{Calculator} `{Geometry} `{Numpy}.


End Optimizer.

(** ** Concrete surroundings, to run the methods on examples *)

Module Demo.
Local Open Scope float_scope.

#[export] Instance memory : Memory := {| uninitialized := 7 |}.

(** [np.mean(p, axis=0)] of an array of shape [(n, 3)]. *)
Definition centroid (p : ndarray) : list float :=
  map (fun c => Np.sum (map (fun j => nth (j * 3 + c) (data p) 0) (seq 0 (len0 p)))
                / F64.of_nat (len0 p))
      (seq 0 3).

(** The rigid motion without its rotation: the centroid of [p] is brought
    onto the centroid of [target].  For a configuration of one atom this
    is the motion of least RMSD. *)
Definition translate_onto (target p : ndarray) : ndarray :=
  let c0 := centroid target in
  let c := centroid p in
  mk_ndarray (shape p)
    (flat_map (fun j => map2 PrimFloat.add (map2 PrimFloat.sub (IDPP.row 3 (data p) j) c) c0)
              (seq 0 (len0 p))).

(** Space without a periodic axis: a vector is its own minimum image. *)
#[export] Instance free_space : Geometry :=
  {| find_mic := fun d _ _ => (d, IDPP.row_lengths d);
     superpose := translate_onto |}.

(** A flat potential-energy surface with a sideways force that grows
    with the identity of the calculator: energy [0], force
    [(0, c / 8, 0)] on every atom. *)
#[export] Instance sideways : Calculator :=
  {| potential_energy := fun _ _ => 0;
     calculator_forces := fun c a =>
       mk_ndarray (shape (positions a))
         (flat_map (fun _ => [0; F64.of_nat c / 8; 0]) (seq 0 (Atoms.len a))) |}.

(** Powers by repeated multiplication, exact on the small values of the
    examples. *)
Fixpoint power (x : float) (n : nat) : float :=
  match n with
  | O => 1
  | S m => x * power x m
  end.

Definition exponent (y : float) : nat :=
  if y =? 4 then 4%nat else if y =? 5 then 5%nat else 0%nat.

#[export] Instance libm : Libm := {| pow := fun x y => power x (exponent y) |}.

(** Long arrays sorted by insertion and added in index order too; the
    examples have four images at most. *)
#[export] Instance in_order : Numpy :=
  {| argsort_long := fun v => rev (Np.argsort_desc v);
     sum_blocked := Np.sum |}.

(** The identity preconditioner. *)
#[export] Instance identity : Preconditioner :=
  {| precon := unit;
     make_precon := fun _ => Ok tt;
     rebuild := fun P _ => P;
     P_dot := fun _ u v => Np.sum (map2 PrimFloat.mul (data u) (data v));
     P_norm := fun _ v => Np.norm v;
     P_apply := fun P g _ => (g, P);
     P_Pdot := fun _ v => v |}.

(** The polygon through the knots in place of the cubic spline: its
    value, its slope, and zero beyond. *)
Fixpoint segment (knots : list float) (u : float) (j : nat) : nat :=
  match knots with
  | _ :: ((b :: (_ :: _)) as rest) => if u <? b then j else segment rest u (S j)
  | _ => j
  end.

Definition polygon_at (sp : ndarray * ndarray) (nu : nat) (u : float) : ndarray :=
  let (s, x) := sp in
  let j := segment (data s) u 0 in
  let r := stride0 x in
  let lo := IDPP.row r (data x) j in
  let hi := IDPP.row r (data x) (j + 1) in
  let slope := map2 (fun a b => (b - a) / (item s (j + 1) - item s j)) lo hi in
  mk_ndarray [r]
    match nu with
    | 0%nat => map2 (fun a m => a + (u - item s j) * m) lo slope
    | 1%nat => slope
    | _ => map (fun _ => 0) slope
    end.

#[export] Instance polygon : Interpolation :=
  {| spline := ndarray * ndarray;
     fit := fun s x => (s, x);
     spline_at := polygon_at |}.

(** One atom of atomic number 1 at [(x, y, 0)] in free space, with the
    calculator [c]. *)
Definition atom (x y : float) (c : nat) : Atoms :=
  mk_Atoms (mk_ndarray [1; 3]%nat [x; y; 0]) [1%Z] (np_zeros [3; 3]%nat)
           (false, false, false) (Some c).

(** Bands of one atom along the first axis, one unit apart. *)
Definition three : list Atoms := [atom 0 0 0; atom 1 0 1; atom 2 0 2].
Definition four : list Atoms := [atom 0 0 0; atom 1 0 1; atom 2 0 2; atom 3 0 3].

Definition alone : World := mk_World 1 0.

(** A band over [imgs] with springs [1/2] and [fmax = 1/2]. *)
Definition band (imgs : list Atoms) (method : string) (climb rrt relax : bool) : NEB.t :=
  NEB.mk (ChainOfStates.mk imgs 0 1 (length imgs)) climb false nan rrt relax
         0.5 0 method (repeat 0.5 (length imgs - 1)) alone None None None.


Definition mep (imgs : list Atoms) : PreconMEP.t :=
  PreconMEP.mk (ChainOfStates.mk imgs 0 1 (length imgs)) "ID"
               (map (fun _ => tt) imgs) "string" (repeat 0.5 (length imgs - 1))
               (np_zeros [length imgs - 2]%nat) [] None.

(** Two atoms one unit apart, and the target that puts them two units
    apart. *)
Definition pair : Atoms :=
  mk_Atoms (mk_ndarray [2; 3]%nat [0; 0; 0; 1; 0; 0]) [1%Z; 1%Z] (np_zeros [3; 3]%nat)
           (false, false, false) None.

Definition apart : IDPP.t := IDPP.mk (mk_ndarray [2; 2]%nat [0; 2; 2; 0]) false.
End Demo.

(** ** Invariants used by the properties *)

(** A chain keeps [nimages] equal to the number of its images, has the two
    end images, and every image has [natoms] atoms. *)
Definition chain_ok (c : ChainOfStates.t) : Prop :=
  ChainOfStates.nimages c = length (ChainOfStates.images c)
  /\ 2 <= ChainOfStates.nimages c
  /\ Forall (fun img => shape (positions img) = [ChainOfStates.natoms c; 3])
            (ChainOfStates.images c).

(** The images [l] with the positions of the [j]th and later blocks of [n]
    rows of [X] written into them in turn. *)
Fixpoint write_from (n : nat) (X : ndarray) (j : nat) (l : list Atoms) : list Atoms :=
  match l with
  | [] => []
  | img :: rest =>
      Atoms.with_positions (slice0 X (j * n) (j * n + n)) img :: write_from n X (S j) rest
  end.

(** A vector of [3 * N * (M - 2)] degrees of freedom. *)
Definition dofs_fit (c : ChainOfStates.t) (x : ndarray) : Prop :=
  shape x = [3 * ChainOfStates.natoms c * (ChainOfStates.nimages c - 2)] /\ well_shaped x.

(** The array [x.reshape(((M - 2) * N, 3))]. *)
Definition as_positions (c : ChainOfStates.t) (x : ndarray) : ndarray :=
  mk_ndarray [(ChainOfStates.nimages c - 2) * ChainOfStates.natoms c; 3] (data x).

(** What a call leaves in place whatever it does: the chain's sizes and the
    band's options. *)
Definition same_options (s s' : NEB.t) : Prop :=
  NEB.natoms s' = NEB.natoms s
  /\ NEB.nimages s' = NEB.nimages s
  /\ NEB.remove_rotation_and_translation s' = NEB.remove_rotation_and_translation s
  /\ NEB.dynamic_relaxation s' = NEB.dynamic_relaxation s
  /\ NEB.parallel s' = NEB.parallel s
  /\ NEB.climb s' = NEB.climb s
  /\ NEB.method s' = NEB.method s
  /\ NEB.k s' = NEB.k s
  /\ NEB.fmax s' = NEB.fmax s
  /\ NEB.scale_fmax s' = NEB.scale_fmax s.

(** The chain, and so every image, is the very same. *)
Definition same_images (s s' : NEB.t) : Prop :=
  NEB.base s' = NEB.base s /\ same_options s s'.

(** The first image is the same and no image is added or dropped. *)
Definition same_first (s s' : NEB.t) : Prop :=
  nth_error (NEB.images s') 0 = nth_error (NEB.images s) 0
  /\ length (NEB.images s') = length (NEB.images s)
  /\ same_options s s'.

(** Both end images are the same. *)
Definition same_ends (s s' : NEB.t) : Prop :=
  getitem_last (NEB.images s') = getitem_last (NEB.images s) /\ same_first s s'.

(** Every run of [m] relates the state it starts in to the state it
    leaves. *)
Definition preserves {S A} (R : S -> S -> Prop) (m : M S A) : Prop :=
  forall s r s', m s = (r, s') -> R s s'.

(** An array has the shape [sh] and as many scalars as [sh] asks for. *)
Definition laid_out (sh : list nat) (a : ndarray) : Prop :=
  shape a = sh /\ length (data a) = size_of_shape sh.

(** The energies and the forces, in their layouts. *)
Definition evaluated (self : NEB.t) (ef : ndarray * ndarray) : Prop :=
  laid_out [NEB.nimages self] (fst ef)
  /\ laid_out [NEB.nimages self - 2; NEB.natoms self; 3] (snd ef).

(** The force on image [i] once it is nudged, before dynamic relaxation
    looks at it: the loop body of [get_forces] on the raw force of the
    image, with [t1] the spring direction from image [i - 1]. *)
Definition nudged_force `{Geometry} (self : NEB.t) (energies : ndarray) (imax : nat)
    (eqlength : float) (raw : ndarray) (i : nat) : result ndarray :=
  try t1 := NEB.spring_direction self (i - 1) in
  try t2 := NEB.spring_direction self i in
  try tangent := NEB.tangent_of self energies imax i t1 (Np.norm t1) t2 (Np.norm t2) in
  try f := getitem0 raw (i - 1) in
  NEB.effective_force self energies imax eqlength i t1 (Np.norm t1) t2 (Np.norm t2) tangent f.

(** Whether the largest per-atom norm of the force [g] of image [i] is
    below [fmax * (1 + rel * scale_fmax)]. *)
Definition below_tolerance `{Memory} `{Numpy} (self : NEB.t) (imax i : nat) (g : ndarray)
    : result bool :=
  try force_i := ChainOfStates.max_row_norm g in
  try tol := NEB.tolerance self imax i in
  Ok (force_i <? tol)%float.

(** What [get_forces] leaves in the block of image [i], whose nudged force
    is [g]: with dynamic relaxation, zeros when [g] is below tolerance and
    [i] is not [imax]; otherwise [g]. *)
Definition relaxed `{Memory} `{Numpy} (self : NEB.t) (imax i : nat) (g : ndarray)
    (block : result ndarray) : Prop :=
  (NEB.dynamic_relaxation self = false -> block = Ok g)
  /\ (NEB.dynamic_relaxation self = true ->
      exists b, below_tolerance self imax i g = Ok b
                /\ block = Ok (if b && negb (i =? imax)
                               then np_zeros [NEB.natoms self; 3] else g)).

(** The rows of image [i] in the array that [get_forces] returns for images
    of [n] atoms. *)
Definition rows_of_image (n i : nat) (F : ndarray) : ndarray :=
  slice0 F ((i - 1) * n) ((i - 1) * n + n).

(** The force of image [i] without its component along the tangent. *)
Definition perpendicular_force `{Geometry} (self : NEB.t) (energies : ndarray) (imax : nat)
    (raw : ndarray) (i : nat) : result ndarray :=
  try t1 := NEB.spring_direction self (i - 1) in
  try t2 := NEB.spring_direction self i in
  try tangent := NEB.tangent_of self energies imax i t1 (Np.norm t1) t2 (Np.norm t2) in
  try f := getitem0 raw (i - 1) in
  try ft := Np.vdot f tangent in
  Np.sub f (Np.s_mul ft tangent).

(** The spring contribution [f1 + f2] of [eb] at image [i]. *)
Definition spring_force `{Geometry} (self : NEB.t) (eqlength : float) (i : nat)
    : result ndarray :=
  try t1 := NEB.spring_direction self (i - 1) in
  try t2 := NEB.spring_direction self i in
  try k1 := getitem (NEB.k self) (i - 1) in
  try k2 := getitem (NEB.k self) i in
  Np.add
    (Np.mul_s (Np.div_s (Np.s_mul (- (Np.norm t1 - eqlength)) t1) (Np.norm t1)) k1)
    (Np.mul_s (Np.div_s (Np.s_mul (Np.norm t2 - eqlength) t2) (Np.norm t2)) k2).

(** The claim's quotient: [deltaV_min / deltaV_max], taken to be zero when
    [deltaV_max] is zero. *)
Definition guarded_quotient (deltavmin deltavmax : float) : float :=
  if (deltavmax =? 0)%float then 0%float else (deltavmin / deltavmax)%float.

(** The chain keeps [natoms] and [nimages]. *)
Definition same_sizes (c c' : ChainOfStates.t) : Prop :=
  ChainOfStates.natoms c' = ChainOfStates.natoms c
  /\ ChainOfStates.nimages c' = ChainOfStates.nimages c.

(** The string keeps [natoms] and [nimages]. *)
Definition same_extents `{Preconditioner} (s s' : PreconMEP.t) : Prop :=
  same_sizes (PreconMEP.base s) (PreconMEP.base s').

(** NumPy's sort order, on the floats as their specification has them. *)
Definition sf_lt (x y : spec_float) : bool :=
  SFltb x y || (negb (SFeqb y y) && SFeqb x x).

(** The head of [interpolate(images, mic)]: [pos1] and the step [d] from
    one image to the next. *)
Definition interpolation_line `{Geometry} (mic : bool) (images : list Atoms)
    : result (ndarray * ndarray) :=
  try first := getitem images 0 in
  try final := getitem_last images in
  let pos1 := Atoms.get_positions first in
  let pos2 := Atoms.get_positions final in
  try d := Np.sub pos2 pos1 in
  let d := if mic then fst (find_mic d (cell first) (pbc first)) else d in
  Ok (pos1, Np.div_s d (F64.of_nat (length images) - 1)%float).

(** The loop of [interpolate] over [range(1, len(images) - 1)], on the
    list it was handed. *)
Fixpoint interpolate_loop (pos1 d : ndarray) (idx : list nat) : M (list Atoms) unit :=
  match idx with
  | [] => ret tt
  | i :: rest =>
      images <- get ;;
      image <- lift (getitem images i) ;;
      p <- lift (Np.add pos1 (Np.s_mul (F64.of_nat i) d)) ;;
      image' <- lift (Atoms.set_positions image p) ;;
      modify (fun l => list_update l i image') ;;
      interpolate_loop pos1 d rest
  end.

(** The function [interpolate(images, mic=False)] of the module. *)
Definition interpolate `{Geometry} (mic : bool) : M (list Atoms) unit :=
  images <- get ;;
  line <- lift (interpolation_line mic images) ;;
  interpolate_loop (fst line) (snd line) (seq 1 (length images - 2)).

(** The point [pos1 + i * d]. *)
Definition point (pos1 d : ndarray) (i : nat) : ndarray :=
  mk_ndarray (shape pos1)
    (map2 PrimFloat.add (data pos1) (map (fun y => (F64.of_nat i * y)%float) (data d))).

(** The images [l] moved onto the points [j], [j + 1], ... of the line. *)
Fixpoint place (pos1 d : ndarray) (j : nat) (l : list Atoms) : list Atoms :=
  match l with
  | [] => []
  | img :: rest => Atoms.with_positions (point pos1 d j) img :: place pos1 d (S j) rest
  end.

(** The step of the straight line through [n] images from [first] to
    [final]: [(pos2 - pos1) / (n - 1.0)]. *)
Definition straight_step (first final : Atoms) (n : nat) : ndarray :=
  Np.div_s (mk_ndarray (shape (positions final))
              (map2 PrimFloat.sub (data (positions final)) (data (positions first))))
           (F64.of_nat n - 1)%float.

(** Two configurations that differ in their positions at most. *)
Definition same_atoms (a b : Atoms) : Prop :=
  numbers b = numbers a /\ cell b = cell a /\ pbc b = pbc a /\ calc b = calc a.

(** What [interpolate] leaves of a list of images whatever it does: their
    number, the first and the last image, and of every image all but its
    positions. *)
Definition same_line_ends (l l' : list Atoms) : Prop :=
  length l' = length l
  /\ nth_error l' 0 = nth_error l 0
  /\ getitem_last l' = getitem_last l
  /\ Forall2 same_atoms l l'.

(** [idpp_interpolate] on a band: it installs pair potentials and runs an
    optimizer of [ase.optimize], which is not among the sources. *)
Class Initializer : Type := { idpp_interpolate : bool -> M NEB.t unit }.

(** A function on the list [self.images], run on the band that holds it. *)
Definition on_images {A} (m : M (list Atoms) A) : M NEB.t A :=
  zoom NEB.images
       (fun l self => NEB.with_base (ChainOfStates.with_images l (NEB.base self)) self) m.

(** [ChainOfStates.interpolate(self, method, mic)] on a band. *)
Definition chain_interpolate `{Geometry} `{Initializer} (method : string) (mic : bool)
    : M NEB.t unit :=
  on_images (interpolate mic) ;;
  if (method =? "idpp")%string then idpp_interpolate mic else ret tt.

(** [NEB.interpolate(self, method, mic)] *)
Definition neb_interpolate `{Geometry} `{Initializer} (method : string) (mic : bool)
    : M NEB.t unit :=
  self <- get ;;
  (if NEB.remove_rotation_and_translation self then
     first <- lift (getitem (NEB.images self) 0) ;;
     final <- lift (getitem_last (NEB.images self)) ;;
     modify (NEB.set_image (length (NEB.images self) - 1)
                           (minimize_rotation_and_translation first final))
   else ret tt) ;;
  chain_interpolate method mic.

(** The initializer that leaves the band as it is. *)
Definition idle : Initializer := {| idpp_interpolate := fun _ => ret tt |}.

(** What [_guess_nimages] writes to [sys.stdout]: that there appears to be
    one band only, or the number it guessed. *)
Inductive notice : Type :=
| one_band
| guessed (nimages : nat).

Definition could_not_guess : exception :=
  RuntimeError "Could not guess number of images per band.".

(** [self.images[i].get_potential_energy()] *)
Definition energy_of `{Calculator} (images : list Atoms) (i : nat) : result float :=
  try image := getitem images i in Atoms.get_potential_energy image.

(** The loop of [_guess_nimages] over [enumerate(self.images[1:], start=1)]:
    the number it breaks with, or [None] when it runs to its end. *)
Fixpoint first_repeat `{Calculator} (images : list Atoms) (e_first : float)
    (rest : list Atoms) (index : nat) : result (option nat) :=
  match rest with
  | [] => Ok None
  | image :: rest' =>
      try e := Atoms.get_potential_energy image in
      if (e =? e_first)%float then
        match energy_of images (index + 1) with
        | Raise IndexError => Ok (Some index)
        | Raise other => Raise other
        | Ok e_next =>
            if (e_next =? e_first)%float then Ok (Some (index + 1)) else Ok (Some index)
        end
      else first_repeat images e_first rest' (S index)
  end.

(** [NEBTools._guess_nimages] on [self.images], with what it returns and
    what it writes. *)
Definition _guess_nimages `{Calculator} (images : list Atoms) : result (nat * notice) :=
  try e_first := energy_of images 0 in
  try found := first_repeat images e_first (tl images) 1 in
  match found with
  | None => Ok (length images, one_band)
  | Some nimages =>
      try e_last := energy_of images (nimages - 1) in
      try e_nextlast := energy_of images (2 * nimages - 1) in
      if negb (e_last =? e_nextlast)%float then Raise could_not_guess
      else Ok (nimages, guessed nimages)
  end.

(** A potential that is the second coordinate of the first atom, with no
    force. *)
Definition by_height : Calculator :=
  {| potential_energy := fun _ a => nth 1 (data (positions a)) 0%float;
     calculator_forces := fun _ a => np_zeros (shape (positions a)) |}.

(** Two bands of three images, one band of three images, and one band
    whose ends have one energy. *)
Definition two_bands : list Atoms :=
  [Demo.atom 0 0 0; Demo.atom 1 2 1; Demo.atom 2 1 2;
   Demo.atom 0 0 3; Demo.atom 1 3 4; Demo.atom 2 1 5].

Definition rising_band : list Atoms := [Demo.atom 0 0 0; Demo.atom 1 2 1; Demo.atom 2 1 2].

Definition level_band : list Atoms := [Demo.atom 0 0 0; Demo.atom 1 2 1; Demo.atom 2 0 2].

(** The force of image [i] with its component along the tangent turned
    round: what the climbing image gets. *)
Definition climbing_force `{Geometry} (self : NEB.t) (energies : ndarray) (imax : nat)
    (raw : ndarray) (i : nat) : result ndarray :=
  try t1 := NEB.spring_direction self (i - 1) in
  try t2 := NEB.spring_direction self i in
  try tangent := NEB.tangent_of self energies imax i t1 (Np.norm t1) t2 (Np.norm t2) in
  try f := getitem0 raw (i - 1) in
  try ft := Np.vdot f tangent in
  if (NEB.method self =? "aseneb")%string
  then Np.sub f (Np.s_mul (2 * ft / NEB.tt_of tangent)%float tangent)
  else Np.sub f (Np.s_mul (2 * ft)%float tangent).

(** What the calculator of image [i] gave is in the two arrays: its energy
    at [energies[i]], its forces at [forces[j]]. *)
Definition recorded `{Calculator} (imgs : list Atoms) (n : nat)
    (energies forces : ndarray) (i j : nat) : Prop :=
  exists image c,
    getitem imgs i = Ok image /\ calc image = Some c
    /\ item energies i = potential_energy c image
    /\ getitem0 forces j = Ok (mk_ndarray [n; 3] (data (calculator_forces c image))).



(** An image without a calculator. *)
Definition bare (x : float) : Atoms :=
  mk_Atoms (mk_ndarray [1; 3]%nat [x; 0; 0]%float) [1%Z] (np_zeros [3; 3]%nat)
           (false, false, false) None.



(** The string with other spring constants. *)
Definition with_springs `{Preconditioner} (k' : list float) (self : PreconMEP.t)
    : PreconMEP.t :=
  PreconMEP.mk (PreconMEP.base self) (PreconMEP.precon_method self)
    (PreconMEP.precons self) (PreconMEP.method self) k' (PreconMEP.residuals self)
    (PreconMEP.fmax_history self) (PreconMEP.get_all_forces self).

(** A band whose first image has no calculator. *)
Definition headless (method : string) : NEB.t :=
  NEB.mk (ChainOfStates.mk [bare 0; Demo.atom 1 0 1; Demo.atom 2 0 2] 0 1 3)
         false false nan false false 0.5 0 method [0.5; 0.5]%float Demo.alone
         None None None.

(** * Properties *)

Unset Implicit Arguments.

(** ** Construction *)

Lemma pbc_differ_false (p q : bool * bool * bool) :
  ChainOfStates.pbc_differ p q = false <-> p = q.
Proof.
  destruct p as [[[] []] []], q as [[[] []] []]; simpl; split; congruence.
Qed.

Lemma numbers_differ_false (a b : list Z) :
  length a = length b -> (ChainOfStates.numbers_differ a b = false <-> a = b).
Proof.
  unfold ChainOfStates.numbers_differ.
  revert b; induction a as [|x a IH]; destruct b as [|y b]; simpl; intros Hlen;
    try discriminate; [tauto|].
  injection Hlen as Hlen. specialize (IH b Hlen).
  destruct (Z.eqb_spec x y) as [->|Hxy]; simpl.
  - rewrite IH. split; congruence.
  - split; congruence.
Qed.

Lemma check_images_raise (first : Atoms) (n : nat) (imgs : list Atoms) (e : exception) :
  ChainOfStates.check_images first n imgs = Raise e -> ShapeMismatch e.
Proof.
  unfold ShapeMismatch.
  induction imgs as [|img rest IH]; simpl; [discriminate|].
  destruct (negb (Atoms.len img =? n)); [intros [= <-]; auto|].
  destruct (ChainOfStates.pbc_differ (pbc img) (pbc first)); [intros [= <-]; auto|].
  destruct (ChainOfStates.numbers_differ (numbers img) (numbers first));
    [intros [= <-]; auto|exact IH].
Qed.

Lemma check_images_ok (first : Atoms) (n : nat) (imgs : list Atoms) :
  length (numbers first) = n ->
  Forall (fun img => length (numbers img) = Atoms.len img) imgs ->
  ChainOfStates.check_images first n imgs = Ok tt <->
  Forall (fun img => Atoms.len img = n /\ pbc img = pbc first
                     /\ numbers img = numbers first) imgs.
Proof.
  intros Hn Hwf.
  induction Hwf as [|img rest Himg Hrest IH]; simpl.
  - split; auto.
  - destruct (Nat.eqb_spec (Atoms.len img) n) as [Hlen|Hlen]; simpl.
    + destruct (ChainOfStates.pbc_differ (pbc img) (pbc first)) eqn:Hp.
      * split; [discriminate|].
        intros Hall. inversion Hall as [|? ? (_ & Hpbc & _) _]; subst.
        apply pbc_differ_false in Hpbc. congruence.
      * apply pbc_differ_false in Hp.
        destruct (ChainOfStates.numbers_differ (numbers img) (numbers first)) eqn:Hz.
        -- split; [discriminate|].
           intros Hall. inversion Hall as [|? ? (_ & _ & Hnum) _]; subst.
           apply numbers_differ_false in Hnum; congruence.
        -- apply numbers_differ_false in Hz; [|congruence].
           rewrite IH. split.
           ++ intros Hall. constructor; auto.
           ++ intros Hall. inversion Hall; auto.
    + split; [discriminate|].
      intros Hall. inversion Hall as [|? ? (Hl & _) _]. contradiction.
Qed.

Lemma chain_init_consistent (imgs : list Atoms) :
  Forall Atoms.well_formed imgs ->
  forall first, hd_error imgs = Some first ->
  (consistent imgs ->
   ChainOfStates.__init__ imgs
   = Ok (ChainOfStates.mk imgs 0 (Atoms.len first) (length imgs)))
  /\ (~ consistent imgs ->
      exists e, ChainOfStates.__init__ imgs = Raise e /\ ShapeMismatch e).
Proof.
  intros Hwf first Hfirst.
  destruct imgs as [|a rest]; [discriminate|]. injection Hfirst as ->.
  assert (Hnum : Forall (fun img => length (numbers img) = Atoms.len img) (first :: rest)).
  { eapply Forall_impl; [|exact Hwf]. intros img (_ & _ & Hl). exact Hl. }
  assert (Hn : length (numbers first) = Atoms.len first).
  { inversion Hnum; assumption. }
  pose proof (check_images_ok first _ (first :: rest) Hn Hnum) as Hok.
  unfold ChainOfStates.__init__, getitem. cbn [nth_error rbind].
  split.
  - intros Hcons. specialize (Hcons first eq_refl).
    apply Hok in Hcons. rewrite Hcons. reflexivity.
  - intros Hnot.
    destruct (ChainOfStates.check_images first (Atoms.len first) (first :: rest))
      as [[]|e] eqn:Hc.
    + exfalso. apply Hnot. intros f [= <-]. apply Hok. reflexivity.
    + exists e. split; [reflexivity|]. eapply check_images_raise; eassumption.
Qed.

(** C9. Constructing a chain fails with a shape-mismatch error when the
    images differ in atom count, periodic-boundary mask or atomic numbers;
    constructing an NEB over consistent images fails with a configuration
    error when the method is unknown or [scale_fmax] is non-zero without
    [dynamic_relaxation]; with consistent images, a known method, no such
    [scale_fmax] and a communicator that fits, construction returns the
    band over those images. *)
Theorem construction_errors
    (imgs : list Atoms) (k : spring_constants) (fmax : float)
    (climb parallel rrt : bool) (world : World) (method : string)
    (relax : bool) (scale_fmax : float) :
  imgs <> [] ->
  Forall Atoms.well_formed imgs ->
  let neb := NEB.__init__ imgs k fmax climb parallel rrt world method relax scale_fmax in
  (~ consistent imgs ->
   exists e, ChainOfStates.__init__ imgs = Raise e /\ neb = Raise e /\ ShapeMismatch e)
  /\ (consistent imgs ->
      NEB.known_method method = false \/ (relax = false /\ F64.truthy scale_fmax = true) ->
      exists e, neb = Raise e /\ ConfigError e)
  /\ (consistent imgs ->
      exists chain, ChainOfStates.__init__ imgs = Ok chain
                    /\ ChainOfStates.images chain = imgs)
  /\ (consistent imgs ->
      NEB.known_method method = true ->
      relax = true \/ F64.truthy scale_fmax = false ->
      (parallel = true -> NEB.world_fits world (length imgs) = Ok true) ->
      exists band, neb = Ok band /\ NEB.images band = imgs).
Proof.
  intros Hne Hwf neb. subst neb.
  destruct imgs as [|first rest]; [congruence|].
  destruct (chain_init_consistent (first :: rest) Hwf first eq_refl) as [Hok Hbad].
  unfold NEB.__init__.
  repeat split.
  - intros Hnot. destruct (Hbad Hnot) as (e & He & Hshape).
    exists e. rewrite He. split; [reflexivity|]. split; [reflexivity|exact Hshape].
  - intros Hcons Hconfig. rewrite (Hok Hcons). cbn [rbind].
    destruct relax, (F64.truthy scale_fmax) eqn:Ht; cbn [negb andb];
      try (eexists; split; [reflexivity|left; reflexivity]).
    all: destruct Hconfig as [Hm|[? ?]]; try discriminate.
    all: rewrite Hm; cbn [negb]; eexists; split; [reflexivity|right; eauto].
  - intros Hcons. rewrite (Hok Hcons). eexists; split; reflexivity.
  - intros Hcons Hm Hscale Hworld. rewrite (Hok Hcons). cbn [rbind].
    rewrite Hm. cbn [negb].
    assert (Hs : negb relax && F64.truthy scale_fmax = false).
    { destruct Hscale as [->| ->]; [reflexivity|apply andb_false_r]. }
    rewrite Hs. cbn [ChainOfStates.nimages].
    destruct parallel.
    + rewrite (Hworld eq_refl). cbn [rbind]. eexists; split; reflexivity.
    + cbn [rbind]. eexists; split; reflexivity.
Qed.

Lemma construction_errors_witness :
  exists band,
    NEB.__init__ Demo.three (Scalar 0.5%float) 0.5%float false false false Demo.alone
                 "aseneb" false 0%float = Ok band
    /\ NEB.images band = Demo.three.
Proof.
  refine (proj2 (proj2 (proj2
            (construction_errors Demo.three (Scalar 0.5%float) 0.5%float false false false
               Demo.alone "aseneb" false 0%float _ _))) _ _ _ _).
  - discriminate.
  - repeat constructor.
  - intros first [= <-]. repeat constructor.
  - reflexivity.
  - right. reflexivity.
  - discriminate.
Defined.

(** ** Degrees of freedom *)

(** ** Lists *)

Lemma shape_eqb_refl (sh : list nat) : shape_eqb sh sh = true.
Proof. unfold shape_eqb. destruct (list_eq_dec Nat.eq_dec sh sh); congruence. Qed.

Lemma shape_eqb_eq (s1 s2 : list nat) : shape_eqb s1 s2 = true -> s1 = s2.
Proof. unfold shape_eqb. destruct (list_eq_dec Nat.eq_dec s1 s2); congruence. Qed.

Lemma list_update_length {A} (l : list A) (i : nat) (x : A) :
  length (list_update l i x) = length l.
Proof.
  revert i; induction l as [|h t IH]; intros [|i]; simpl; auto.
Qed.

Lemma list_update_app {A} (pre : list A) (x y : A) (post : list A) :
  list_update (pre ++ x :: post) (length pre) y = pre ++ y :: post.
Proof.
  induction pre as [|h t IH]; simpl; [reflexivity|]. now rewrite IH.
Qed.

Lemma nth_error_middle {A} (pre : list A) (x : A) (post : list A) :
  nth_error (pre ++ x :: post) (length pre) = Some x.
Proof.
  induction pre as [|h t IH]; simpl; auto.
Qed.

Lemma ends_split {A} (l : list A) :
  2 <= length l -> exists first mid final, l = first :: mid ++ [final].
Proof.
  intros Hl. destruct l as [|first rest]; [simpl in Hl; lia|].
  destruct (exists_last (l := rest)) as (mid & final & ->).
  { intros ->. simpl in Hl. lia. }
  eauto.
Qed.

Lemma interior_ends {A} (first : A) (mid : list A) (final : A) :
  interior (first :: mid ++ [final]) = mid.
Proof. unfold interior. simpl. apply removelast_last. Qed.

Lemma write_from_length n X j l : length (write_from n X j l) = length l.
Proof. revert j; induction l; simpl; auto. Qed.

(** ** Slices *)

Lemma slice0_block (X : ndarray) (r c a n : nat) :
  shape X = [r; c] -> a * n + n <= r ->
  slice0 X (a * n) (a * n + n)
  = mk_ndarray [n; c] (firstn (n * c) (skipn (a * n * c) (data X))).
Proof.
  intros Hs Hr. unfold slice0, clip_hi, clip_lo, len0, stride0. rewrite Hs. simpl.
  rewrite !Nat.mul_1_r.
  replace (Nat.min (a * n) r) with (a * n) by lia.
  replace (Nat.min (a * n + n) r) with (a * n + n) by lia.
  replace (Nat.max (a * n) (a * n + n)) with (a * n + n) by lia.
  replace (a * n + n - a * n) with n by lia. reflexivity.
Qed.

Lemma set_positions_loop_spec (X : ndarray) (r : nat) (first final : Atoms) :
  forall (todo pre : list Atoms) (c : ChainOfStates.t),
  shape X = [r; 3] ->
  ChainOfStates.images c = first :: (pre ++ todo) ++ [final] ->
  Forall (fun img => shape (positions img) = [ChainOfStates.natoms c; 3]) todo ->
  (length pre + length todo) * ChainOfStates.natoms c <= r ->
  ChainOfStates.set_positions_loop X (seq (length pre) (length todo))
    (length pre * ChainOfStates.natoms c) c
  = (Ok tt,
     ChainOfStates.with_images
       (first :: (pre ++ write_from (ChainOfStates.natoms c) X (length pre) todo) ++ [final]) c).
Proof.
  induction todo as [|x todo IH]; intros pre c HX Himgs Hshape Hr.
  - simpl. unfold ret. f_equal. destruct c; simpl in *. subst. reflexivity.
  - cbn [length seq ChainOfStates.set_positions_loop].
    unfold bind at 1. unfold get at 1.
    rewrite Himgs. unfold getitem. cbn [nth_error].
    rewrite <- app_assoc. cbn [app]. rewrite nth_error_middle.
    unfold bind at 1. unfold lift at 1.
    inversion Hshape as [|? ? Hx Htodo]; subst.
    unfold Atoms.set_positions.
    cbn [length] in Hr.
    rewrite (slice0_block X r 3 (length pre) (ChainOfStates.natoms c)) by (auto; lia).
    cbn [shape]. rewrite Hx, shape_eqb_refl.
    unfold bind at 1. unfold lift at 1.
    unfold bind at 1. unfold modify at 1.
    set (x' := Atoms.with_positions _ x).
    set (c' := ChainOfStates.set_image (S (length pre)) x' c).
    assert (Himgs' : ChainOfStates.images c'
                     = first :: ((pre ++ [x']) ++ todo) ++ [final]).
    { subst c'. unfold ChainOfStates.set_image, ChainOfStates.with_images.
      cbn [ChainOfStates.images]. rewrite Himgs. cbn [list_update].
      rewrite <- !app_assoc. cbn [app].
      rewrite (list_update_app pre x x' (todo ++ [final])). reflexivity. }
    assert (Hn : ChainOfStates.natoms c' = ChainOfStates.natoms c) by reflexivity.
    specialize (IH (pre ++ [x']) c' HX Himgs').
    rewrite Hn in IH. rewrite length_app in IH. cbn [length] in IH.
    replace (length pre + 1) with (S (length pre)) in IH by lia.
    replace (length pre * ChainOfStates.natoms c + ChainOfStates.natoms c)
      with (S (length pre) * ChainOfStates.natoms c) by lia.
    rewrite IH by (auto; lia).
    f_equal. subst c'. unfold ChainOfStates.set_image, ChainOfStates.with_images.
    cbn [ChainOfStates.nsteps ChainOfStates.natoms ChainOfStates.nimages].
    f_equal. cbn [write_from]. rewrite <- !app_assoc. cbn [app].
    rewrite (slice0_block X r 3 (length pre) (ChainOfStates.natoms c)) by (auto; lia).
    reflexivity.
Qed.

Lemma firstn_add {A} (p q : nat) (l : list A) :
  firstn (p + q) l = firstn p l ++ firstn q (skipn p l).
Proof.
  revert l; induction p as [|p IH]; intros l; [reflexivity|].
  destruct l as [|h t]; simpl; [now rewrite firstn_nil|]. now rewrite IH.
Qed.

Lemma firstn_three {A} (a v b : list A) (p q : nat) :
  length a = p -> length v = q -> firstn (p + q) (a ++ v ++ b) = a ++ v.
Proof.
  intros <- <-. rewrite app_assoc, <- length_app.
  rewrite firstn_app, firstn_all, Nat.sub_diag. simpl. now rewrite app_nil_r.
Qed.

Lemma skipn_three {A} (a v b : list A) (p q k : nat) :
  length a = p -> length v = q -> skipn (p + q + k) (a ++ v ++ b) = skipn k b.
Proof.
  intros <- <-. rewrite app_assoc, <- length_app.
  rewrite skipn_app. rewrite skipn_all2 by lia. simpl. f_equal. lia.
Qed.

Lemma length_firstn_skipn {A} (p q : nat) (l : list A) :
  p + q <= length l -> length (firstn q (skipn p l)) = q.
Proof. intros Hl. rewrite length_firstn, length_skipn. lia. Qed.

Lemma strip_ones_same (sh : list nat) : strip_ones (length sh) sh = sh.
Proof.
  destruct sh as [|[|[|d]] t]; try reflexivity.
  cbn [strip_ones]. now rewrite Nat.ltb_irrefl.
Qed.

Lemma assignable_same (v : ndarray) :
  well_shaped v -> assignable v (shape v) = true.
Proof.
  intros Hv. unfold assignable. rewrite strip_ones_same, shape_eqb_refl.
  simpl. apply Nat.eqb_eq. exact Hv.
Qed.

Lemma get_positions_loop_spec (X : ndarray) (r n : nat) :
  shape X = [r; 3] -> length (data X) = r * 3 ->
  forall (todo : list Atoms) (a : nat) (acc : ndarray),
  shape acc = [r; 3] -> length (data acc) = r * 3 ->
  (a + length todo) * n <= r ->
  ChainOfStates.get_positions_loop n (write_from n X a todo) (a * n) acc
  = Ok (mk_ndarray [r; 3]
          (firstn (a * n * 3) (data acc)
             ++ firstn (length todo * n * 3) (skipn (a * n * 3) (data X))
             ++ skipn ((a + length todo) * n * 3) (data acc))).
Proof.
  intros HX HXl.
  induction todo as [|x todo IH]; intros a acc Hacc Haccl Hr.
  - simpl. rewrite Nat.add_0_r, firstn_skipn. destruct acc; simpl in *. now subst.
  - cbn [write_from ChainOfStates.get_positions_loop length] in *.
    unfold Atoms.get_positions, Atoms.with_positions. cbn [positions].
    assert (Hle : a * n + n + length todo * n <= r).
    { rewrite Nat.mul_add_distr_r in Hr. simpl in Hr. lia. }
    clear Hr.
    assert (Hle2 : a * n + n <= r) by lia.
    rewrite (slice0_block X r 3 a n HX Hle2).
    set (V := firstn (n * 3) (skipn (a * n * 3) (data X))).
    assert (HV : length V = n * 3).
    { subst V. apply length_firstn_skipn. lia. }
    unfold set_slice0, clip_hi, clip_lo, len0, stride0. rewrite Hacc.
    cbn [hd tl size_of_shape fold_right shape data]. rewrite Nat.mul_1_r.
    replace (Nat.min (a * n) r) with (a * n) by lia.
    replace (Nat.min (a * n + n) r) with (a * n + n) by lia.
    replace (Nat.max (a * n) (a * n + n)) with (a * n + n) by lia.
    replace (a * n + n - a * n) with n by lia.
    assert (Hassign : assignable (mk_ndarray [n; 3] V) [n; 3] = true).
    { apply (assignable_same (mk_ndarray [n; 3] V)). unfold well_shaped. simpl. lia. }
    rewrite Hassign. cbn [rbind].
    set (acc' := mk_ndarray [r; 3] _).
    replace (a * n + n) with (S a * n) by lia.
    assert (Hacc'l : length (data acc') = r * 3).
    { subst acc'. cbn [data]. rewrite !length_app, length_firstn, length_skipn, HV. lia. }
    rewrite (IH (S a) acc' eq_refl Hacc'l) by lia.
    f_equal. f_equal. subst acc'. cbn [data].
    set (A := firstn (a * n * 3) (data acc)).
    assert (HA : length A = a * n * 3).
    { subst A. rewrite length_firstn. lia. }
    replace (S a * n * 3) with (a * n * 3 + n * 3) by lia.
    rewrite (firstn_three A V _ (a * n * 3) (n * 3) HA HV).
    replace ((S a + length todo) * n * 3)
      with (a * n * 3 + n * 3 + length todo * n * 3) by lia.
    rewrite (skipn_three A V _ (a * n * 3) (n * 3) _ HA HV).
    rewrite skipn_skipn.
    replace (length todo * n * 3 + (a * n + n) * 3)
      with ((a + S (length todo)) * n * 3) by lia.
    rewrite <- app_assoc. f_equal. rewrite app_assoc. f_equal.
    subst V.
    replace (S (length todo) * n * 3) with (n * 3 + length todo * n * 3) by lia.
    rewrite firstn_add, skipn_skipn.
    replace (n * 3 + a * n * 3) with (a * n * 3 + n * 3) by lia. reflexivity.
Qed.

Lemma dofs_fit_length (c : ChainOfStates.t) (x : ndarray) :
  dofs_fit c x ->
  length (data x) = (ChainOfStates.nimages c - 2) * ChainOfStates.natoms c * 3.
Proof.
  intros [Hs Hw]. unfold well_shaped in Hw. rewrite Hs in Hw. simpl in Hw. lia.
Qed.

Lemma set_dofs_reshape {S} (base : S -> ChainOfStates.t) (sp : ndarray -> M S unit)
    (x : ndarray) (s : S) :
  chain_ok (base s) -> dofs_fit (base s) x ->
  ChainOfStates.set_dofs base sp x s = sp (as_positions (base s) x) s.
Proof.
  intros (_ & Hm & _) Hfit. pose proof (dofs_fit_length _ _ Hfit) as Hl.
  unfold ChainOfStates.set_dofs, bind, get, lift.
  replace (ChainOfStates.nimages (base s) <? 2) with false
    by (symmetry; apply Nat.ltb_ge; lia).
  cbn [andb]. unfold reshape. cbn [size_of_shape fold_right].
  replace ((ChainOfStates.nimages (base s) - 2) * ChainOfStates.natoms (base s) * (3 * 1)
           =? length (data x)) with true
    by (symmetry; apply Nat.eqb_eq; lia).
  reflexivity.
Qed.

Lemma chain_set_then_get `{Memory} (c : ChainOfStates.t) (x : ndarray) :
  chain_ok c -> dofs_fit c x ->
  exists c',
    ChainOfStates.set_positions (as_positions c x) c = (Ok tt, c')
    /\ ChainOfStates.get_dofs c' = Ok x.
Proof.
  intros (Hlen & Hm & Hall) Hfit. pose proof (dofs_fit_length _ _ Hfit) as Hl.
  destruct (ends_split (ChainOfStates.images c)) as (first & mid & final & Himgs);
    [lia|].
  assert (Hmid : length mid = ChainOfStates.nimages c - 2).
  { rewrite Hlen, Himgs. simpl. rewrite length_app. simpl. lia. }
  set (N := ChainOfStates.natoms c) in *.
  set (X := as_positions c x).
  assert (HX : shape X = [(ChainOfStates.nimages c - 2) * N; 3]) by reflexivity.
  assert (Hmidall : Forall (fun img => shape (positions img) = [N; 3]) mid).
  { rewrite Himgs in Hall. inversion Hall as [|? ? _ Hrest]; subst.
    apply Forall_app in Hrest. tauto. }
  eexists. split.
  - unfold ChainOfStates.set_positions, bind, get.
    rewrite Himgs at 1. rewrite interior_ends.
    apply (set_positions_loop_spec X _ first final mid [] c HX); auto.
    simpl. fold N. lia.
  - unfold ChainOfStates.get_dofs, ChainOfStates.get_positions,
      ChainOfStates.negative_rows.
    cbn [ChainOfStates.with_images ChainOfStates.nimages ChainOfStates.natoms
         ChainOfStates.images].
    replace (ChainOfStates.nimages c <? 2) with false
      by (symmetry; apply Nat.ltb_ge; lia).
    cbn [andb app]. rewrite interior_ends. fold N.
    pose proof (get_positions_loop_spec X _ N HX) as Hget.
    specialize (Hget Hl mid 0 (np_empty [(ChainOfStates.nimages c - 2) * N; 3]) eq_refl).
    cbn [Nat.mul Nat.add] in Hget. cbn [length]. rewrite Hget.
    + cbn [rbind]. unfold ravel. cbn [data firstn skipn app].
      change (data X) with (data x). rewrite Hmid.
      rewrite skipn_all2
        by (unfold np_empty, np_full; cbn [data]; rewrite repeat_length; simpl; lia).
      rewrite app_nil_r, <- Hl, firstn_all.
      destruct Hfit as [Hs Hw].
      unfold well_shaped in Hw. rewrite Hs in Hw.
      cbn [size_of_shape fold_right] in Hw. rewrite Nat.mul_1_r in Hw.
      rewrite Hw, <- Hs. destruct x; reflexivity.
    + unfold np_empty, np_full. cbn [data]. rewrite repeat_length. simpl. lia.
    + fold N. lia.
Qed.

Lemma neb_with_base_base (s : NEB.t) : NEB.with_base (NEB.base s) s = s.
Proof. destruct s; reflexivity. Qed.

Lemma neb_set_positions_loop_static (gf : M NEB.t ndarray) (X : ndarray) :
  forall (idx : list nat) (n1 : nat) (s : NEB.t),
  NEB.dynamic_relaxation s = false ->
  NEB.set_positions_loop gf X idx n1 s
  = zoom NEB.base NEB.with_base (ChainOfStates.set_positions_loop X idx n1) s.
Proof.
  induction idx as [|i idx IH]; intros n1 s Hdyn.
  - unfold zoom. simpl. unfold ret. now rewrite neb_with_base_base.
  - cbn [NEB.set_positions_loop ChainOfStates.set_positions_loop].
    unfold zoom, bind, get, lift, modify. rewrite Hdyn.
    change (NEB.images s) with (ChainOfStates.images (NEB.base s)).
    change (NEB.natoms s) with (ChainOfStates.natoms (NEB.base s)).
    destruct (getitem (ChainOfStates.images (NEB.base s)) (S i)) as [image|e];
      [|now rewrite neb_with_base_base].
    destruct (Atoms.set_positions image _) as [image'|e];
      [|now rewrite neb_with_base_base].
    rewrite IH by (destruct s; exact Hdyn).
    unfold zoom. cbn [NEB.set_image NEB.with_base NEB.base].
    destruct (ChainOfStates.set_positions_loop X idx _ _) as [r b'].
    reflexivity.
Qed.

Lemma neb_set_then_get `{Memory} `{Calculator} `{Geometry} `{Numpy} (band : NEB.t) (x : ndarray) :
  chain_ok (NEB.base band) -> NEB.dynamic_relaxation band = false ->
  dofs_fit (NEB.base band) x ->
  exists band', NEB.set_dofs x band = (Ok tt, band') /\ NEB.get_dofs band' = Ok x.
Proof.
  intros Hok Hdyn Hfit.
  destruct (chain_set_then_get (NEB.base band) x Hok Hfit) as (c' & Hset & Hget).
  exists (NEB.with_base c' band). split.
  - unfold NEB.set_dofs. rewrite set_dofs_reshape by assumption.
    unfold NEB.set_positions, NEB.set_positions_with, bind, get.
    rewrite neb_set_positions_loop_static by assumption.
    unfold zoom. unfold ChainOfStates.set_positions, bind, get in Hset.
    change (NEB.images band) with (ChainOfStates.images (NEB.base band)).
    rewrite Hset. reflexivity.
  - unfold NEB.get_dofs. destruct band; exact Hget.
Qed.

Lemma mep_set_then_get `{Memory} `{Calculator} `{Geometry} `{Numpy} `{Preconditioner}
    `{Interpolation}
    (mep : PreconMEP.t) (x : ndarray) :
  chain_ok (PreconMEP.base mep) -> dofs_fit (PreconMEP.base mep) x ->
  exists mep', PreconMEP.set_dofs x mep = (Ok tt, mep') /\ PreconMEP.get_dofs mep' = Ok x.
Proof.
  intros Hok Hfit.
  destruct (chain_set_then_get (PreconMEP.base mep) x Hok Hfit) as (c' & Hset & Hget).
  exists (PreconMEP.with_base c' mep). split.
  - unfold PreconMEP.set_dofs. rewrite set_dofs_reshape by assumption.
    unfold PreconMEP.set_positions, zoom. rewrite Hset. reflexivity.
  - unfold PreconMEP.get_dofs. destruct mep; exact Hget.
Qed.

(** C6. For a chain without dynamic relaxation (the base class, the
    preconditioned MEP, and an NEB with [dynamic_relaxation] off) of at
    least two images of one atom count, and every vector [x] of length
    [3 N (M - 2)], [set_dofs(x)] returns and [get_dofs()] then returns [x]. *)
Theorem dofs_round_trip `{Memory} `{Calculator} `{Geometry} `{Numpy} `{Preconditioner}
    `{Interpolation}
    (x : ndarray) :
  (forall c : ChainOfStates.t,
      chain_ok c -> dofs_fit c x ->
      exists c', ChainOfStates.set_dofs (fun c => c) ChainOfStates.set_positions x c = (Ok tt, c')
                 /\ ChainOfStates.get_dofs c' = Ok x)
  /\ (forall band : NEB.t,
         chain_ok (NEB.base band) -> dofs_fit (NEB.base band) x ->
         NEB.dynamic_relaxation band = false ->
         exists band', NEB.set_dofs x band = (Ok tt, band') /\ NEB.get_dofs band' = Ok x)
  /\ (forall mep : PreconMEP.t,
         chain_ok (PreconMEP.base mep) -> dofs_fit (PreconMEP.base mep) x ->
         exists mep', PreconMEP.set_dofs x mep = (Ok tt, mep') /\ PreconMEP.get_dofs mep' = Ok x).
Proof.
  repeat split.
  - intros c Hok Hfit.
    destruct (chain_set_then_get c x Hok Hfit) as (c' & Hset & Hget).
    exists c'. split; [|exact Hget].
    rewrite (set_dofs_reshape (fun c => c)) by assumption. exact Hset.
  - intros band Hok Hfit Hdyn. now apply neb_set_then_get.
  - intros mep Hok Hfit. now apply mep_set_then_get.
Qed.

Section Round_trip_runs.
#[local] Existing Instances Demo.memory Demo.free_space Demo.sideways Demo.in_order
  Demo.identity Demo.polygon.

Lemma three_chain_ok : chain_ok (ChainOfStates.mk Demo.three 0 1 3).
Proof.
  unfold chain_ok. simpl. repeat split; auto. repeat constructor.
Qed.

Lemma dofs_round_trip_witness :
  exists band',
    NEB.set_dofs (mk_ndarray [3] [5; 6; 7]%float)
      (Demo.band Demo.three "aseneb" false false false) = (Ok tt, band')
    /\ NEB.get_dofs band' = Ok (mk_ndarray [3] [5; 6; 7]%float).
Proof.
  apply (proj1 (proj2 (dofs_round_trip (mk_ndarray [3] [5; 6; 7]%float)))).
  - exact three_chain_ok.
  - split; reflexivity.
  - reflexivity.
Defined.

(** With dynamic relaxation the round trip fails: [set_dofs] raises and
    the positions stay as they were. *)
Lemma dofs_round_trip_fails_with_relaxation :
  let x := mk_ndarray [3] [5; 6; 7]%float in
  let out := NEB.set_dofs x (Demo.band Demo.three "aseneb" false false true) in
  fst out <> Ok tt /\ NEB.get_dofs (snd out) <> Ok x.
Proof.
  split.
  - vm_compute. discriminate.
  - intros Heq.
    apply (f_equal (fun r => match r with
                             | Ok a => PrimFloat.eqb (nth 0 (data a) 0%float) 5
                             | Raise _ => false
                             end)) in Heq.
    vm_compute in Heq. discriminate.
Qed.
End Round_trip_runs.

(** C4. The call [self.get_fmax_all(self.images)] hands one argument to a
    method that declares none after [self]: under dynamic relaxation
    without parallelism, [set_positions] on a band with an interior image
    raises [TypeError] and moves no image. *)
Theorem set_positions_type_error `{Memory} `{Calculator} `{Geometry} `{Numpy}
    (band : NEB.t) (positions : ndarray) :
  NEB.dynamic_relaxation band = true ->
  NEB.parallel band = false ->
  3 <= length (NEB.images band) ->
  exists msg, NEB.set_positions positions band = (Raise (TypeError msg), band).
Proof.
  intros Hdyn Hpar Hlen.
  destruct (ends_split (NEB.images band)) as (first & mid & final & Himgs); [lia|].
  destruct mid as [|image mid].
  { rewrite Himgs in Hlen. simpl in Hlen. lia. }
  unfold NEB.set_positions, NEB.set_positions_with, bind, get.
  rewrite Himgs, interior_ends.
  cbn [length seq NEB.set_positions_loop]. unfold bind, get, lift.
  rewrite Hdyn, Hpar. eexists. reflexivity.
Qed.

Section Relaxed_runs.
#[local] Existing Instances Demo.memory Demo.free_space Demo.sideways Demo.in_order.

Lemma set_positions_type_error_witness :
  exists msg,
    NEB.set_positions (mk_ndarray [1; 3] [5; 6; 7]%float)
      (Demo.band Demo.three "aseneb" false false true)
    = (Raise (TypeError msg), Demo.band Demo.three "aseneb" false false true).
Proof.
  apply (set_positions_type_error (Demo.band Demo.three "aseneb" false false true)).
  - reflexivity.
  - reflexivity.
  - simpl. lia.
Defined.
End Relaxed_runs.

(** ** Frames *)

Section Preserves.
Context {S : Type} (R : S -> S -> Prop).
Hypothesis R_refl : forall s, R s s.
Hypothesis R_trans : forall s1 s2 s3, R s1 s2 -> R s2 s3 -> R s1 s3.

Lemma preserves_ret {A} (a : A) : preserves R (ret a).
Proof. intros s r s' [= _ <-]. apply R_refl. Qed.


Lemma preserves_lift {A} (x : result A) : preserves R (lift x).
Proof. intros s r s' [= _ <-]. apply R_refl. Qed.

Lemma preserves_get : preserves R get.
Proof. intros s r s' [= _ <-]. apply R_refl. Qed.

Lemma preserves_modify (f : S -> S) : (forall s, R s (f s)) -> preserves R (modify f).
Proof. intros Hf s r s' [= _ <-]. apply Hf. Qed.

Lemma preserves_bind {A B} (m : M S A) (f : A -> M S B) :
  preserves R m -> (forall a, preserves R (f a)) -> preserves R (bind m f).
Proof.
  intros Hm Hf s r s'. unfold bind.
  destruct (m s) as [[a|e] s1] eqn:Hms.
  - intros Hfa. eapply R_trans; [eapply Hm; eassumption|eapply Hf; eassumption].
  - intros [= _ <-]. eapply Hm; eassumption.
Qed.
End Preserves.

Lemma same_options_refl (s : NEB.t) : same_options s s.
Proof. unfold same_options; repeat split. Qed.

Lemma same_options_trans (s1 s2 s3 : NEB.t) :
  same_options s1 s2 -> same_options s2 s3 -> same_options s1 s3.
Proof. unfold same_options. intuition congruence. Qed.

Lemma same_images_refl (s : NEB.t) : same_images s s.
Proof. split; [reflexivity|apply same_options_refl]. Qed.

Lemma same_images_trans (s1 s2 s3 : NEB.t) :
  same_images s1 s2 -> same_images s2 s3 -> same_images s1 s3.
Proof.
  intros [H1 O1] [H2 O2]. split; [congruence|eapply same_options_trans; eassumption].
Qed.

Lemma same_first_refl (s : NEB.t) : same_first s s.
Proof. repeat split. Qed.

Lemma same_first_trans (s1 s2 s3 : NEB.t) :
  same_first s1 s2 -> same_first s2 s3 -> same_first s1 s3.
Proof.
  intros (H1 & L1 & O1) (H2 & L2 & O2).
  repeat split; try congruence;
    destruct O1 as (?&?&?&?&?&?&?&?&?&?), O2 as (?&?&?&?&?&?&?&?&?&?); congruence.
Qed.



Lemma same_images_first (s s' : NEB.t) : same_images s s' -> same_ends s s'.
Proof.
  intros [Hi Ho]. unfold same_ends, same_first, NEB.images. rewrite Hi. auto.
Qed.

Section Band_frames.
Context `{Memory} `{Calculator} `{Geometry} `{Numpy}.

Lemma project_same_images (self : NEB.t) : preserves same_images (NEB.project self).
Proof.
  unfold NEB.project.
  repeat first
    [ apply (preserves_bind same_images same_images_trans)
    | match goal with |- forall _, preserves _ _ => intro end
    | apply (preserves_lift same_images same_images_refl)
    | apply (preserves_modify same_images); intros []; repeat split
    | match goal with |- preserves _ (let (_, _) := ?p in _) => destruct p end ].
Qed.

Lemma nth_error_list_update_0 {A} (l : list A) (i : nat) (x : A) :
  1 <= i -> nth_error (list_update l i x) 0 = nth_error l 0.
Proof. destruct l, i; simpl; auto; lia. Qed.

Lemma last_default {A} (l : list A) (d d' : A) : l <> [] -> last l d = last l d'.
Proof.
  induction l as [|h t IH]; [congruence|]. intros _.
  destruct t; [reflexivity|]. simpl in *. apply IH. discriminate.
Qed.

Lemma last_list_update {A} (l : list A) (i : nat) (x d : A) :
  i + 1 < length l -> last (list_update l i x) d = last l d.
Proof.
  revert i; induction l as [|h t IH]; intros i Hi; [simpl in Hi; lia|].
  destruct i as [|i]; simpl in *.
  - destruct t; [simpl in Hi; lia|reflexivity].
  - destruct t as [|h' t']; [simpl in Hi; lia|].
    destruct (list_update (h' :: t') i x) eqn:Hu.
    + apply (f_equal (@length A)) in Hu. rewrite list_update_length in Hu. discriminate.
    + rewrite <- Hu. apply IH. lia.
Qed.

Lemma getitem_last_list_update {A} (l : list A) (i : nat) (x : A) :
  i + 1 < length l -> getitem_last (list_update l i x) = getitem_last l.
Proof.
  intros Hi. destruct l as [|h t]; [reflexivity|].
  destruct i as [|i]; simpl.
  - f_equal. apply last_default. destruct t; [simpl in Hi; lia|discriminate].
  - f_equal. simpl in Hi.
    rewrite (last_default (list_update t i x) h x).
    + rewrite last_list_update by lia. apply last_default.
      destruct t; [simpl in Hi; lia|discriminate].
    + intros Hnil. apply (f_equal (@length A)) in Hnil.
      rewrite list_update_length in Hnil. destruct t; simpl in *; [lia|discriminate].
Qed.

Lemma set_image_same_first (i : nat) (a : Atoms) (s : NEB.t) :
  1 <= i -> same_first s (NEB.set_image i a s).
Proof.
  intros Hi. destruct s as [[imgs ? ? ?] ? ? ? ? ? ? ? ? ? ? ? ? ?].
  unfold same_first, same_options. cbn -[nth_error list_update length].
  rewrite nth_error_list_update_0 by assumption. rewrite list_update_length.
  repeat split.
Qed.


Lemma align_loop_same_first (idx : list nat) :
  Forall (fun i => 1 <= i) idx -> preserves same_first (NEB.align_loop idx).
Proof.
  induction 1 as [|i idx Hi Hidx IH]; cbn [NEB.align_loop].
  - apply (preserves_ret same_first same_first_refl).
  - repeat first
      [ apply (preserves_bind same_first same_first_trans)
      | match goal with |- forall _, preserves _ _ => intro end
      | apply (preserves_lift same_first same_first_refl)
      | apply (preserves_get same_first same_first_refl)
      | apply (preserves_modify same_first); intros; now apply set_image_same_first
      | exact IH ].
Qed.

Lemma seq_from_one (n : nat) : Forall (fun i => 1 <= i) (seq 1 n).
Proof. apply Forall_forall. intros i Hi. apply in_seq in Hi. lia. Qed.

Lemma same_images_same_first (s s' : NEB.t) : same_images s s' -> same_first s s'.
Proof. intros Hs. apply same_images_first in Hs. apply Hs. Qed.





Lemma interior_length {A} (l : list A) : length (interior l) = length l - 2.
Proof.
  unfold interior. rewrite removelast_firstn_len, length_firstn. destruct l; simpl; lia.
Qed.




End Band_frames.

Section Aligned_runs.
#[local] Existing Instances Demo.memory Demo.free_space Demo.sideways Demo.in_order.


End Aligned_runs.

(** ** Layout of the arrays of [get_forces] *)

Lemma laid_out_full (sh : list nat) (v : float) : laid_out sh (np_full sh v).
Proof. split; [reflexivity|]. simpl. apply repeat_length. Qed.

Lemma assignable_length (v : ndarray) (tsh : list nat) :
  assignable v tsh = true -> length (data v) = size_of_shape tsh.
Proof.
  unfold assignable. intros Ha. apply andb_prop in Ha. now apply Nat.eqb_eq.
Qed.

Lemma store0_laid_out (d0 : nat) (rest : list nat) (a : ndarray) (i : nat) (v : list float) :
  laid_out (d0 :: rest) a -> i < d0 -> length v = size_of_shape rest ->
  laid_out (d0 :: rest) (store0 a i v).
Proof.
  intros [Hs Hl] Hi Hv. split; [exact Hs|].
  unfold store0, stride0. rewrite Hs. cbn [tl data].
  rewrite !length_app, length_firstn, length_skipn, Hv, Hl.
  cbn [size_of_shape fold_right]. fold (size_of_shape rest).
  set (st := size_of_shape rest). nia.
Qed.

Lemma setitem0_laid_out (d0 : nat) (rest : list nat) (a a' v : ndarray) (i : nat) :
  laid_out (d0 :: rest) a -> setitem0 a i v = Ok a' -> laid_out (d0 :: rest) a'.
Proof.
  intros Ha. pose proof Ha as [Hs Hl]. unfold setitem0, len0. rewrite Hs. cbn [hd tl].
  destruct (Nat.ltb_spec i d0); [|discriminate].
  destruct (assignable v rest) eqn:Hv; [|discriminate].
  intros [= <-]. apply store0_laid_out; auto. now apply assignable_length.
Qed.

Lemma set_scalar_laid_out (sh : list nat) (a a' : ndarray) (i : nat) (x : float) :
  laid_out sh a -> set_scalar a i x = Ok a' -> laid_out sh a'.
Proof.
  intros [Hs Hl]. unfold set_scalar.
  destruct (i <? len0 a); [|discriminate]. intros [= <-].
  split; [exact Hs|]. cbn [data]. now rewrite list_update_length.
Qed.

Lemma amap2_layout (f : float -> float -> float) (a b c : ndarray) :
  amap2 f a b = Ok c -> shape c = shape a /\ length (data c) = length (data a).
Proof.
  unfold amap2, same_layout.
  destruct (shape_eqb (shape a) (shape b) && (length (data a) =? length (data b))) eqn:Hl;
    [|discriminate].
  intros [= <-]. split; [reflexivity|]. cbn [data].
  apply andb_prop in Hl. destruct Hl as [_ Hl]. apply Nat.eqb_eq in Hl.
  clear -Hl. revert Hl. generalize (data a) (data b).
  induction l as [|x l IH]; intros [|y l'] Hl; simpl in *; try discriminate; auto.
Qed.

Section Band_layout.
Context `{Memory} `{Calculator} `{Geometry} `{Numpy}.

Lemma effective_force_layout (self : NEB.t) (energies : ndarray) (imax : nat)
    (eqlength : float) (i : nat) (t1 : ndarray) (nt1 : float) (t2 : ndarray) (nt2 : float)
    (tangent f g : ndarray) :
  NEB.effective_force self energies imax eqlength i t1 nt1 t2 nt2 tangent f = Ok g ->
  shape g = shape f /\ length (data g) = length (data f).
Proof.
  unfold NEB.effective_force, Np.add, Np.sub.
  repeat match goal with
         | |- context [rbind ?r _] => destruct r eqn:?; cbn [rbind]; try discriminate
         | |- context [if ?b then _ else _] => destruct b
         | |- context [let (_, _) := ?p in _] => destruct p
         end.
  all: intros Hg; repeat match goal with
                         | Hx : amap2 _ _ _ = Ok _ |- _ => apply amap2_layout in Hx
                         end; intuition congruence.
Qed.

Ltac split_try :=
  repeat match goal with
         | |- context [rbind ?r _] => destruct r eqn:?; cbn [rbind]; try discriminate
         end.

Lemma relax_laid_out (self : NEB.t) (imax i : nat) (d0 : nat) (rest : list nat)
    (forces forces' : ndarray) :
  laid_out (d0 :: rest) forces -> NEB.relax self imax i forces = Ok forces' ->
  laid_out (d0 :: rest) forces'.
Proof.
  intros Hl. unfold NEB.relax.
  destruct (NEB.dynamic_relaxation self); [|now intros [= <-]].
  split_try.
  destruct (PrimFloat.ltb _ _); [|now intros [= <-]].
  destruct (_ =? _); [now intros [= <-]|].
  intros Hset. eapply setitem0_laid_out; eassumption.
Qed.

Lemma getitem0_layout (d0 : nat) (rest : list nat) (a f : ndarray) (i : nat) :
  laid_out (d0 :: rest) a -> getitem0 a i = Ok f ->
  i < d0 /\ shape f = rest /\ length (data f) = size_of_shape rest.
Proof.
  intros [Hs Hl]. unfold getitem0, len0, stride0. rewrite Hs. cbn [hd tl].
  destruct (Nat.ltb_spec i d0); [|discriminate]. intros [= <-]. cbn [shape data].
  repeat split; auto.
  rewrite length_firstn, length_skipn, Hl. cbn [size_of_shape fold_right].
  fold (size_of_shape rest). set (st := size_of_shape rest). nia.
Qed.

Lemma image_step_laid_out (self : NEB.t) (energies : ndarray) (imax : nat) (eqlength : float)
    (i : nat) (d0 : nat) (rest : list nat) (t1 : ndarray) (nt1 : float)
    (forces : ndarray) (st : ndarray * float * ndarray) :
  laid_out (d0 :: rest) forces ->
  NEB.image_step self energies imax eqlength i (t1, nt1, forces) = Ok st ->
  laid_out (d0 :: rest) (snd st).
Proof.
  intros Hl. unfold NEB.image_step. split_try. intros [= <-]. cbn [snd].
  eapply relax_laid_out; [|eassumption].
  match goal with
  | Hg : getitem0 forces _ = Ok _, He : NEB.effective_force _ _ _ _ _ _ _ _ _ _ _ = Ok _ |- _ =>
      destruct (getitem0_layout _ _ _ _ _ Hl Hg) as (Hi & Hsf & Hlf);
      apply effective_force_layout in He; destruct He as [_ He]
  end.
  apply store0_laid_out; auto. congruence.
Qed.

Lemma forces_loop_laid_out (self : NEB.t) (energies : ndarray) (imax : nat) (eqlength : float)
    (d0 : nat) (rest : list nat) :
  forall (idx : list nat) (t1 : ndarray) (nt1 : float) (forces F : ndarray),
  laid_out (d0 :: rest) forces ->
  NEB.forces_loop self energies imax eqlength idx (t1, nt1, forces) = Ok F ->
  laid_out (d0 :: rest) F.
Proof.
  induction idx as [|i idx IH]; intros t1 nt1 forces F Hl; cbn [NEB.forces_loop].
  - now intros [= <-].
  - destruct (NEB.image_step _ _ _ _ _ _) as [[[t2 nt2] forces']|e] eqn:Hstep;
      cbn [rbind]; [|discriminate].
    apply IH. apply (image_step_laid_out _ _ _ _ _ _ _ _ _ _ _ Hl Hstep).
Qed.

Lemma evaluate_serial_laid_out (self : NEB.t) (imgs : list Atoms) :
  forall (idx : list nat) (energies forces x : ndarray) (ef : ndarray * ndarray),
  evaluated self (energies, forces) ->
  NEB.evaluate_serial imgs idx energies forces x = Ok ef -> evaluated self ef.
Proof.
  induction idx as [|i idx IH]; intros energies forces x ef [He Hf];
    cbn [NEB.evaluate_serial].
  - intros [= <-]. now split.
  - split_try. apply IH. split; cbn [fst snd].
    + eapply set_scalar_laid_out; eassumption.
    + eapply setitem0_laid_out; eassumption.
Qed.

Lemma run_laid_out (self : NEB.t) (image : Atoms) (i : nat) (ef : ndarray * ndarray) :
  evaluated self ef -> evaluated self (NEB.run image i ef).
Proof.
  destruct ef as [energies forces]. intros [He Hf]. unfold NEB.run.
  destruct (Atoms.get_potential_energy image); [|now split].
  destruct (set_scalar energies i a) eqn:Hset; [|now split].
  pose proof (set_scalar_laid_out _ _ _ _ _ He Hset) as He'.
  destruct (Atoms.get_forces image); [|now split].
  destruct (setitem0 forces (i - 1) a1) eqn:Hf'; [|now split].
  split; [exact He'|]. eapply setitem0_laid_out; eassumption.
Qed.

Lemma evaluate_threads_laid_out (self : NEB.t) (imgs : list Atoms) (idx : list nat)
    (energies forces : ndarray) (ef : ndarray * ndarray) :
  evaluated self (energies, forces) ->
  NEB.evaluate_threads imgs idx energies forces = Ok ef -> evaluated self ef.
Proof.
  intros Hef. unfold NEB.evaluate_threads.
  destruct (NEB.threads imgs idx) as [ts|e]; cbn [rbind]; [|discriminate].
  intros [= <-]. revert Hef. generalize (energies, forces).
  induction ts as [|th ts IH]; intros p Hp; cbn [fold_left]; [exact Hp|].
  apply IH. now apply run_laid_out.
Qed.

Lemma rank_evaluate_laid_out (self : NEB.t) (energies forces : ndarray) (q : nat)
    (ef : ndarray * ndarray) :
  evaluated self (energies, forces) ->
  NEB.rank_evaluate self energies forces q = Ok ef -> evaluated self ef.
Proof.
  intros [He Hf]. unfold NEB.rank_evaluate. split_try. intros [= <-].
  split; cbn [fst snd].
  - eapply set_scalar_laid_out; eassumption.
  - eapply setitem0_laid_out; eassumption.
Qed.

Lemma broadcast_loop_laid_out (self : NEB.t) (energies0 forces0 : ndarray) :
  forall (idx : list nat) (energies forces : ndarray) (ef : ndarray * ndarray),
  evaluated self (energies, forces) ->
  NEB.broadcast_loop self energies0 forces0 idx energies forces = Ok ef ->
  evaluated self ef.
Proof.
  induction idx as [|i idx IH]; intros energies forces ef [He Hf];
    cbn [NEB.broadcast_loop].
  - intros [= <-]. now split.
  - split_try. apply IH. split; cbn [fst snd].
    + eapply set_scalar_laid_out; eassumption.
    + eapply setitem0_laid_out; eassumption.
Qed.

Lemma evaluate_laid_out (self : NEB.t) (energies forces x : ndarray)
    (ef : ndarray * ndarray) :
  evaluated self (energies, forces) ->
  NEB.evaluate self energies forces x = Ok ef -> evaluated self ef.
Proof.
  intros Hef. unfold NEB.evaluate.
  destruct (negb (NEB.parallel self)); [apply evaluate_serial_laid_out; exact Hef|].
  destruct (size (NEB.world self) =? 1); [apply evaluate_threads_laid_out; exact Hef|].
  unfold NEB.evaluate_distributed.
  destruct (NEB.rank_evaluate self energies forces (rank (NEB.world self))) as [own|e] eqn:Hown;
    cbn [rbind]; [|discriminate].
  destruct (existsb _ _); [discriminate|].
  apply broadcast_loop_laid_out.
  destruct own. eapply rank_evaluate_laid_out; eassumption.
Qed.

Lemma endpoint_energies_laid_out (self : NEB.t) (sh : list nat) (energies energies' : ndarray) :
  laid_out sh energies -> NEB.endpoint_energies self energies = Ok energies' ->
  laid_out sh energies'.
Proof.
  intros He. unfold NEB.endpoint_energies.
  destruct (negb _); [|now intros [= <-]].
  split_try. intros Hset.
  eapply set_scalar_laid_out; [|exact Hset].
  eapply set_scalar_laid_out; eassumption.
Qed.

Lemma project_returns (self s : NEB.t) (F : ndarray) (s' : NEB.t) :
  NEB.project self s = (Ok F, s') ->
  exists e0 energies raw real top t1 eqlength forces,
    NEB.endpoint_energies self (np_empty [NEB.nimages self]) = Ok e0
    /\ NEB.evaluate self e0 (np_empty [NEB.nimages self - 2; NEB.natoms self; 3])
         (np_empty [NEB.nimages self - 2; NEB.natoms self; 3]) = Ok (energies, raw)
    /\ set_slice0 (np_zeros [NEB.nimages self; NEB.natoms self; 3]) 1
         (NEB.nimages self - 1) raw = Ok real
    /\ getitem_last (Np.argsort (interior (data energies))) = Ok top
    /\ NEB.spring_direction self 0 = Ok t1
    /\ NEB.equilibrium_length self = Ok eqlength
    /\ NEB.forces_loop self energies (1 + top) eqlength (seq 1 (NEB.nimages self - 2))
         (t1, Np.norm t1, raw) = Ok forces
    /\ reshape_rows3 forces = Ok F
    /\ s' = NEB.with_emax (item energies (1 + top))
              (NEB.with_imax (1 + top)
                 (NEB.with_real_forces real (NEB.with_energies energies s))).
Proof.
  unfold NEB.project, bind, lift, modify.
  destruct (NEB.endpoint_energies _ _) as [e0|] eqn:E1; [|discriminate].
  destruct (NEB.evaluate _ _ _ _) as [[energies raw]|] eqn:E2; [|discriminate].
  destruct (set_slice0 _ _ _ _) as [real|] eqn:E3; [|discriminate].
  destruct (getitem_last _) as [top|] eqn:E4; [|discriminate].
  destruct (NEB.spring_direction _ _) as [t1|] eqn:E5; [|discriminate].
  destruct (NEB.equilibrium_length _) as [eqlength|] eqn:E6; [|discriminate].
  destruct (NEB.forces_loop _ _ _ _ _ _) as [forces|] eqn:E7; [|discriminate].
  destruct (reshape_rows3 forces) as [F'|] eqn:HF; [|discriminate].
  intros [= <- <-].
  exists e0, energies, raw, real, top, t1, eqlength, forces. repeat split; auto.
Qed.

Lemma project_evaluated (self : NEB.t) (e0 energies raw : ndarray) :
  NEB.endpoint_energies self (np_empty [NEB.nimages self]) = Ok e0 ->
  NEB.evaluate self e0 (np_empty [NEB.nimages self - 2; NEB.natoms self; 3])
    (np_empty [NEB.nimages self - 2; NEB.natoms self; 3]) = Ok (energies, raw) ->
  evaluated self (energies, raw).
Proof.
  intros He0 Hev. eapply evaluate_laid_out; [|exact Hev].
  split; cbn [fst snd].
  - eapply endpoint_energies_laid_out; [|exact He0]. apply laid_out_full.
  - apply laid_out_full.
Qed.

Lemma get_forces_returns (s : NEB.t) (F : ndarray) (s' : NEB.t) :
  NEB.get_forces s = (Ok F, s') ->
  exists self,
    NEB.project self self = (Ok F, s')
    /\ same_first s self
    /\ (NEB.remove_rotation_and_translation s = false -> self = s)
    /\ 2 <= NEB.nimages self.
Proof.
  unfold NEB.get_forces. unfold bind at 1, get at 1.
  unfold bind at 1.
  destruct (NEB.has_duplicates _); [discriminate|]. cbn [ret].
  unfold bind at 1.
  destruct (Nat.ltb_spec (NEB.nimages s) 2); [discriminate|]. cbn [ret].
  unfold bind at 1.
  destruct (NEB.remove_rotation_and_translation s) eqn:Hrrt.
  - destruct (NEB.align_loop _ s) as [[[]|e] self] eqn:Halign; [|discriminate].
    unfold bind, get. intros Hp. exists self.
    pose proof (align_loop_same_first _ (seq_from_one _) _ _ _ Halign) as Hsame.
    repeat split; try apply Hsame; auto; try discriminate.
    destruct Hsame as (_ & _ & _ & -> & _). assumption.
  - unfold bind, get. cbn [ret]. intros Hp. exists s.
    repeat split; auto.
Qed.

Lemma reshape_rows3_shape (a b : ndarray) (m n : nat) :
  laid_out [m; n; 3] a -> reshape_rows3 a = Ok b -> shape b = [m * n; 3].
Proof.
  intros [_ Hl]. unfold reshape_rows3.
  assert (Hdiv : length (data a) / 3 = m * n).
  { rewrite Hl. cbn [size_of_shape fold_right].
    replace (m * (n * (3 * 1))) with (m * n * 3) by lia. now apply Nat.div_mul. }
  rewrite Hdiv.
  destruct (_ =? 0); [|discriminate]. now intros [= <-].
Qed.

Lemma get_forces_shape (s : NEB.t) (F : ndarray) (s' : NEB.t) :
  NEB.get_forces s = (Ok F, s') ->
  shape F = [(NEB.nimages s - 2) * NEB.natoms s; 3]
  /\ length (data F) = 3 * NEB.natoms s * (NEB.nimages s - 2).
Proof.
  intros Hrun. destruct (get_forces_returns _ _ _ Hrun) as (self & Hp & Hsame & _ & _).
  destruct (project_returns _ _ _ _ Hp)
    as (e0 & energies & raw & real & top & t1 & eql & forces
        & He0 & Hev & _ & _ & _ & _ & Hloop & HF & _).
  destruct (project_evaluated _ _ _ _ He0 Hev) as [_ Hraw]. cbn [snd] in Hraw.
  pose proof (forces_loop_laid_out _ _ _ _ _ _ _ _ _ _ _ Hraw Hloop) as Hforces.
  destruct Hsame as (_ & _ & Hn & Hm & _). rewrite <- Hn, <- Hm.
  split; [eapply reshape_rows3_shape; eassumption|].
  destruct Hforces as [_ Hl]. unfold reshape_rows3 in HF.
  destruct (_ =? 0); [|discriminate]. injection HF as <-. cbn [data].
  rewrite Hl. simpl. lia.
Qed.
End Band_layout.

(** ** The highest image *)

Lemma ltb_irrefl (x : float) : (x <? x)%float = false.
Proof.
  rewrite ltb_spec. unfold SFltb, SFcompare.
  destruct (Prim2SF x) as [s|s| |s m e]; try reflexivity.
  - destruct s; reflexivity.
  - destruct s; rewrite Z.compare_refl, Pos.compare_cont_refl; reflexivity.
Qed.

Lemma npy_lt_irrefl (x : float) : F64.npy_lt x x = false.
Proof.
  unfold F64.npy_lt. rewrite ltb_irrefl. destruct (x =? x)%float; reflexivity.
Qed.

Lemma sift_no_less (lt : nat -> nat -> bool) (vi : nat) (desc : list nat) :
  (forall vk, In vk desc -> lt vi vk = false) -> Np.sift lt vi desc = vi :: desc.
Proof.
  destruct desc as [|vk rest]; [reflexivity|]. intros Hlt. simpl.
  now rewrite Hlt by (left; reflexivity).
Qed.

Lemma argsort_desc_constant (v : list float) (e : float) :
  Forall (eq e) v -> Np.argsort_desc v = rev (seq 0 (length v)).
Proof.
  intros Hv. unfold Np.argsort_desc.
  set (step := fun desc vi => Np.sift _ vi desc).
  assert (Hstep : forall k j, j + k = length v ->
            fold_left step (seq j k) (rev (seq 0 j)) = rev (seq 0 (length v))).
  { induction k as [|k IH]; intros j Hj.
    - simpl. now replace j with (length v) by lia.
    - cbn [seq fold_left]. subst step. cbv beta.
      rewrite sift_no_less.
      + change (j :: rev (seq 0 j)) with ([j] ++ rev (seq 0 j)) at 1.
        replace ([j] ++ rev (seq 0 j)) with (rev (seq 0 (S j)))
          by (rewrite seq_S, rev_app_distr; reflexivity).
        apply IH. lia.
      + intros vk Hin. apply in_rev, in_seq in Hin.
        assert (Hnth : forall i, i < length v -> nth i v 0%float = e).
        { intros i Hi. rewrite Forall_forall in Hv. symmetry. apply Hv. now apply nth_In. }
        rewrite !Hnth by lia. apply npy_lt_irrefl. }
  apply (Hstep (length v) 0). lia.
Qed.

Lemma getitem_last_app {A} (l : list A) (a : A) : getitem_last (l ++ [a]) = Ok a.
Proof.
  destruct l as [|x l]; [reflexivity|]. cbn [app getitem_last]. f_equal. apply last_last.
Qed.

Lemma argsort_constant_last `{Numpy} (v : list float) (e : float) :
  Forall (eq e) v -> v <> [] -> length v <= 16 ->
  getitem_last (Np.argsort v) = Ok (length v - 1).
Proof.
  intros Hv Hne Hshort. unfold Np.argsort.
  destruct (Nat.leb_spec (length v) 16); [|lia].
  rewrite (argsort_desc_constant v e Hv), rev_involutive.
  destruct v as [|x v]; [congruence|]. cbn [length].
  rewrite seq_S, getitem_last_app. f_equal. lia.
Qed.

Lemma interior_nth (l : list float) (j : nat) :
  j < length l - 2 -> nth j (interior l) 0%float = nth (S j) l 0%float.
Proof.
  intros Hj. unfold interior. destruct l as [|x l]; [simpl in Hj; lia|].
  cbn [tl nth]. rewrite removelast_firstn_len.
  rewrite nth_firstn. simpl in Hj.
  destruct (Nat.ltb_spec j (Nat.pred (length l))); [reflexivity|lia].
Qed.

Section Highest.
Context `{Memory} `{Calculator} `{Geometry} `{Numpy}.

(** C2. After a [get_forces] that returns, [self.energies] holds the
    energies of the call, and if the energies of all interior images are
    equal then [imax] is [M - 2]: the tie goes to the highest interior
    index, the last in the order of [argsort].  This is for at most 16
    interior images, which [argsort] leaves in the order of their
    indices when they are equal. *)
Theorem imax_of_equal_energies (band band' : NEB.t) (F : ndarray) :
  NEB.get_forces band = (Ok F, band') ->
  NEB.nimages band - 2 <= 16 ->
  exists energies,
    NEB.energies band' = Some energies
    /\ forall e : float,
         (forall i, 1 <= i <= NEB.nimages band - 2 -> item energies i = e) ->
         NEB.imax band' = Some (NEB.nimages band - 2).
Proof.
  intros Hrun Hshort. destruct (get_forces_returns _ _ _ Hrun) as (self & Hp & Hsame & _ & Hm).
  destruct (project_returns _ _ _ _ Hp)
    as (e0 & energies & raw & real & top & t1 & eql & forces
        & He0 & Hev & _ & Htop & _ & _ & _ & _ & ->).
  destruct (project_evaluated _ _ _ _ He0 Hev) as [[_ Hlen] _]. cbn [fst] in Hlen.
  simpl in Hlen. rewrite Nat.mul_1_r in Hlen.
  destruct Hsame as (_ & _ & _ & Hn & _).
  exists energies. split; [reflexivity|]. intros e Hall.
  cbn [NEB.imax NEB.with_emax NEB.with_imax]. f_equal.
  assert (Hint : length (interior (data energies)) = NEB.nimages self - 2).
  { rewrite interior_length. lia. }
  assert (Hconst : Forall (eq e) (interior (data energies))).
  { apply Forall_forall. intros y Hy.
    destruct (In_nth _ _ 0%float Hy) as (j & Hj & <-).
    rewrite interior_nth by lia. symmetry. apply Hall. lia. }
  destruct (Nat.eq_dec (NEB.nimages self) 2) as [Htwo|Htwo].
  - destruct (interior (data energies)); [discriminate|simpl in Hint; lia].
  - rewrite (argsort_constant_last _ e Hconst) in Htop.
    + injection Htop as <-. lia.
    + intros Hnil. rewrite Hnil in Hint. simpl in Hint. lia.
    + lia.
Qed.
End Highest.

Section Flat_runs.
#[local] Existing Instances Demo.memory Demo.free_space Demo.sideways Demo.in_order.

Lemma imax_of_equal_energies_witness :
  exists energies,
    NEB.energies (snd (NEB.get_forces (Demo.band Demo.four "aseneb" false false false)))
    = Some energies
    /\ forall e : float,
         (forall i, 1 <= i <= 4 - 2 -> item energies i = e) ->
         NEB.imax (snd (NEB.get_forces (Demo.band Demo.four "aseneb" false false false)))
         = Some (4 - 2).
Proof.
  apply (imax_of_equal_energies (Demo.band Demo.four "aseneb" false false false) _
           (mk_ndarray [2; 3] [0; 0.125; 0; 0; 0.25; 0]%float)).
  - vm_compute. reflexivity.
  - cbn. lia.
Defined.

(** On a flat surface the four-image band has equal interior energies and
    [imax = 2], not [1]. *)
Lemma imax_of_flat_band_is_not_one :
  let band' := snd (NEB.get_forces (Demo.band Demo.four "aseneb" false false false)) in
  exists energies,
    NEB.energies band' = Some energies
    /\ (forall i, 1 <= i <= 2 -> item energies i = 0%float)
    /\ NEB.imax band' <> Some 1.
Proof.
  eexists. split; [vm_compute; reflexivity|]. split.
  - intros i Hi. assert (Hc : i = 1 \/ i = 2) by lia. destruct Hc as [-> | ->]; reflexivity.
  - vm_compute. discriminate.
Qed.
End Flat_runs.

(** ** Blocks of the force array *)

Lemma window_outside {A} (a v v' b : list A) (p q : nat) :
  length v = length v' ->
  p + q <= length a \/ length a + length v <= p ->
  firstn q (skipn p (a ++ v ++ b)) = firstn q (skipn p (a ++ v' ++ b)).
Proof.
  intros Hv [Hin|Hout].
  - rewrite !skipn_app. replace (p - length a) with 0 by lia. cbn [skipn].
    rewrite !firstn_app, length_skipn. replace (q - (length a - p)) with 0 by lia.
    reflexivity.
  - rewrite !skipn_app. rewrite (skipn_all2 a) by lia. cbn [app].
    rewrite (skipn_all2 v) by lia. rewrite (skipn_all2 v') by lia. cbn [app].
    now rewrite Hv.
Qed.

Lemma window_inside {A} (a v b : list A) (p q : nat) :
  length a = p -> length v = q -> firstn q (skipn p (a ++ v ++ b)) = v.
Proof.
  intros <- <-. rewrite skipn_app, skipn_all, Nat.sub_diag. cbn [skipn app].
  rewrite firstn_app, firstn_all, Nat.sub_diag. cbn [firstn]. apply app_nil_r.
Qed.

Lemma store0_data (a : ndarray) (i : nat) (v : list float) :
  data (store0 a i v)
  = firstn (i * stride0 a) (data a) ++ v ++ skipn ((i + 1) * stride0 a) (data a).
Proof. reflexivity. Qed.

Lemma getitem0_store0_same (d0 : nat) (rest : list nat) (a : ndarray) (i : nat)
    (v : list float) :
  laid_out (d0 :: rest) a -> i < d0 -> length v = size_of_shape rest ->
  getitem0 (store0 a i v) i = Ok (mk_ndarray rest v).
Proof.
  intros [Hs Hl] Hi Hv. unfold getitem0, len0, store0, stride0.
  cbn [shape data]. rewrite Hs. cbn [hd tl].
  destruct (Nat.ltb_spec i d0); [|lia]. f_equal. f_equal.
  apply window_inside; [|exact Hv].
  rewrite length_firstn, Hl. cbn [size_of_shape fold_right]. fold (size_of_shape rest).
  set (st := size_of_shape rest).
  assert (i * st <= d0 * st) by (apply Nat.mul_le_mono_r; lia). lia.
Qed.

Lemma getitem0_store0_other (d0 : nat) (rest : list nat) (a : ndarray) (i j : nat)
    (v : list float) :
  laid_out (d0 :: rest) a -> i < d0 -> length v = size_of_shape rest -> j <> i ->
  getitem0 (store0 a i v) j = getitem0 a j.
Proof.
  intros [Hs Hl] Hi Hv Hj. unfold getitem0, len0, store0, stride0.
  cbn [shape data]. rewrite Hs. cbn [hd tl].
  destruct (Nat.ltb_spec j d0); [|reflexivity]. f_equal. f_equal.
  cbn [size_of_shape fold_right] in Hl. fold (size_of_shape rest) in Hl.
  set (st := size_of_shape rest) in *.
  assert (Hd : data a = firstn (i * st) (data a)
                        ++ firstn st (skipn (i * st) (data a))
                        ++ skipn ((i + 1) * st) (data a)).
  { rewrite <- (firstn_skipn (i * st) (data a)) at 1. f_equal.
    rewrite <- (firstn_skipn st (skipn (i * st) (data a))) at 1. f_equal.
    rewrite skipn_skipn. f_equal. lia. }
  symmetry. rewrite Hd at 1. symmetry.
  assert (Hij : (j + 1) * st <= i * st \/ (i + 1) * st <= j * st).
  { destruct (Nat.lt_ge_cases j i); [left|right]; apply Nat.mul_le_mono_r; lia. }
  assert (Hi' : (i + 1) * st <= d0 * st) by (apply Nat.mul_le_mono_r; lia).
  assert (Hst : (i + 1) * st = i * st + st) by lia.
  apply window_outside.
  - rewrite length_firstn, length_skipn. lia.
  - rewrite !length_firstn. lia.
Qed.

Section Band_blocks.
Context `{Memory} `{Calculator} `{Geometry} `{Numpy}.

Lemma getitem0_block (m n : nat) (a g : ndarray) (j : nat) :
  laid_out [m; n; 3] a -> getitem0 a j = Ok g ->
  j < m /\ g = mk_ndarray [n; 3] (firstn (n * 3) (skipn (j * n * 3) (data a))).
Proof.
  intros [Hs Hl]. unfold getitem0, len0, stride0. rewrite Hs. cbn [hd tl].
  destruct (Nat.ltb_spec j m); [|discriminate]. intros [= <-]. split; [assumption|].
  cbn [size_of_shape fold_right].
  replace (n * (3 * 1)) with (n * 3) by lia.
  replace (j * (n * 3)) with (j * n * 3) by lia. reflexivity.
Qed.

Lemma rows_of_block (m n : nat) (a rows g : ndarray) (j : nat) :
  laid_out [m; n; 3] a -> reshape_rows3 a = Ok rows -> getitem0 a j = Ok g ->
  slice0 rows (j * n) (j * n + n) = g.
Proof.
  intros Hl Hrows Hg. pose proof (reshape_rows3_shape _ _ _ _ Hl Hrows) as Hs.
  destruct (getitem0_block _ _ _ _ _ Hl Hg) as [Hj ->].
  rewrite (slice0_block rows (m * n) 3 j n Hs).
  - unfold reshape_rows3 in Hrows. destruct (_ =? 0); [|discriminate].
    now injection Hrows as <-.
  - assert ((j + 1) * n <= m * n) by (apply Nat.mul_le_mono_r; lia). lia.
Qed.

Lemma force_norm_block (self : NEB.t) (m i : nat) (forces g : ndarray) :
  laid_out [m; NEB.natoms self; 3] forces -> getitem0 forces (i - 1) = Ok g ->
  NEB.force_norm self i forces = ChainOfStates.max_row_norm g.
Proof.
  intros Hl Hg. unfold NEB.force_norm.
  destruct (reshape_rows3 forces) as [rows|e] eqn:Hrows.
  - cbn [rbind]. rewrite (Nat.mul_comm (NEB.natoms self) (i - 1)).
    now rewrite (rows_of_block _ _ _ _ _ _ Hl Hrows Hg).
  - exfalso. destruct Hl as [_ Hl]. unfold reshape_rows3 in Hrows. rewrite Hl in Hrows.
    cbn [size_of_shape fold_right] in Hrows.
    replace (m * (NEB.natoms self * (3 * 1))) with (m * NEB.natoms self * 3) in Hrows by lia.
    rewrite Nat.Div0.mod_mul in Hrows. discriminate.
Qed.

Lemma relax_block (self : NEB.t) (imax i m : nat) (forces1 forces2 g : ndarray) :
  laid_out [m; NEB.natoms self; 3] forces1 ->
  1 <= i -> 1 <= imax ->
  getitem0 forces1 (i - 1) = Ok g ->
  NEB.relax self imax i forces1 = Ok forces2 ->
  (forall j, j <> i - 1 -> getitem0 forces2 j = getitem0 forces1 j)
  /\ (NEB.dynamic_relaxation self = false -> getitem0 forces2 (i - 1) = Ok g)
  /\ (NEB.dynamic_relaxation self = true ->
      exists b, below_tolerance self imax i g = Ok b
                /\ getitem0 forces2 (i - 1)
                   = Ok (if b && negb (i =? imax) then np_zeros [NEB.natoms self; 3] else g)).
Proof.
  intros Hl Hi Himax Hg. unfold NEB.relax, below_tolerance.
  rewrite (force_norm_block self m i forces1 g Hl Hg).
  destruct (NEB.dynamic_relaxation self).
  2:{ intros [= <-]. repeat split; auto; discriminate. }
  destruct (ChainOfStates.max_row_norm g) as [force_i|]; cbn [rbind]; [|discriminate].
  destruct (NEB.tolerance self imax i) as [tol|]; cbn [rbind]; [|discriminate].
  replace (i - 1 =? imax - 1) with (i =? imax)
    by (destruct (Nat.eqb_spec i imax), (Nat.eqb_spec (i - 1) (imax - 1)); auto; lia).
  destruct (force_i <? tol)%float; cbn [andb].
  2:{ intros [= <-]. repeat split; auto; try discriminate. intros _. eauto. }
  destruct (i =? imax); cbn [negb].
  { intros [= <-]. repeat split; auto; try discriminate. intros _. eauto. }
  unfold setitem0. destruct (i - 1 <? len0 forces1) eqn:Hlt; [|discriminate].
  destruct (assignable _ _); [|discriminate]. intros [= <-].
  pose proof Hl as [Hs _]. unfold len0 in Hlt. rewrite Hs in Hlt. cbn [hd] in Hlt.
  apply Nat.ltb_lt in Hlt.
  assert (Hz : length (data (np_zeros [1; NEB.natoms self; 3]))
               = size_of_shape [NEB.natoms self; 3]).
  { unfold np_zeros, np_full. cbn [data]. rewrite repeat_length. simpl. lia. }
  repeat split.
  - intros j Hj. now apply (getitem0_store0_other m [NEB.natoms self; 3]).
  - discriminate.
  - intros _. exists true. split; [reflexivity|]. cbn [andb].
    rewrite (getitem0_store0_same m [NEB.natoms self; 3]) by assumption.
    f_equal. unfold np_zeros, np_full. f_equal. cbn [data]. f_equal. simpl. lia.
Qed.

Lemma image_step_block (self : NEB.t) (energies : ndarray) (imax : nat) (eqlength : float)
    (i m : nat) (t1 : ndarray) (forces : ndarray) (t2 : ndarray) (nt2 : float)
    (forces' : ndarray) :
  laid_out [m; NEB.natoms self; 3] forces ->
  1 <= i -> 1 <= imax ->
  NEB.spring_direction self (i - 1) = Ok t1 ->
  NEB.image_step self energies imax eqlength i (t1, Np.norm t1, forces)
  = Ok (t2, nt2, forces') ->
  NEB.spring_direction self i = Ok t2 /\ nt2 = Np.norm t2
  /\ (forall j, j <> i - 1 -> getitem0 forces' j = getitem0 forces j)
  /\ exists g, nudged_force self energies imax eqlength forces i = Ok g
               /\ relaxed self imax i g (getitem0 forces' (i - 1)).
Proof.
  intros Hl Hi Himax Ht1. unfold NEB.image_step.
  destruct (NEB.spring_direction self i) as [t2'|] eqn:Ht2; cbn [rbind]; [|discriminate].
  destruct (NEB.tangent_of _ _ _ _ _ _ _ _) as [tangent|] eqn:Htan; cbn [rbind];
    [|discriminate].
  destruct (getitem0 forces (i - 1)) as [f|] eqn:Hf; cbn [rbind]; [|discriminate].
  destruct (NEB.effective_force _ _ _ _ _ _ _ _ _ _ _) as [g|] eqn:Hg; cbn [rbind];
    [|discriminate].
  destruct (NEB.relax _ _ _ _) as [forces2|] eqn:Hrelax; cbn [rbind]; [|discriminate].
  intros [= <- <- <-].
  destruct (getitem0_layout _ _ _ _ _ Hl Hf) as (Him & Hsf & Hlf).
  destruct (effective_force_layout _ _ _ _ _ _ _ _ _ _ _ _ Hg) as [Hsg Hlg].
  assert (Hdata : length (data g) = size_of_shape [NEB.natoms self; 3]) by congruence.
  set (forces1 := store0 forces (i - 1) (data g)) in *.
  assert (Hl1 : laid_out [m; NEB.natoms self; 3] forces1)
    by (apply store0_laid_out; assumption).
  assert (Hg1 : getitem0 forces1 (i - 1) = Ok g).
  { subst forces1. rewrite (getitem0_store0_same m [NEB.natoms self; 3]) by assumption.
    f_equal. destruct g as [sh d]. cbn in *. congruence. }
  destruct (relax_block self imax i m forces1 forces2 g Hl1 Hi Himax Hg1 Hrelax)
    as (Hother & Hoff & Hon).
  repeat split; auto.
  - intros j Hj. rewrite Hother by assumption. subst forces1.
    now apply (getitem0_store0_other m [NEB.natoms self; 3]).
  - exists g. split; [|split; assumption].
    unfold nudged_force. rewrite Ht1, Ht2. cbn [rbind]. rewrite Htan. cbn [rbind].
    rewrite Hf. cbn [rbind]. exact Hg.
Qed.

Lemma nudged_force_other_raw (self : NEB.t) (energies : ndarray) (imax : nat)
    (eqlength : float) (raw raw' : ndarray) (i : nat) :
  getitem0 raw' (i - 1) = getitem0 raw (i - 1) ->
  nudged_force self energies imax eqlength raw' i
  = nudged_force self energies imax eqlength raw i.
Proof. intros Hraw. unfold nudged_force. now rewrite Hraw. Qed.

Lemma forces_loop_blocks (self : NEB.t) (energies : ndarray) (imax : nat) (eqlength : float)
    (m : nat) :
  1 <= imax ->
  forall (n a : nat) (t1 forces F : ndarray),
  laid_out [m; NEB.natoms self; 3] forces ->
  1 <= a ->
  NEB.spring_direction self (a - 1) = Ok t1 ->
  NEB.forces_loop self energies imax eqlength (seq a n) (t1, Np.norm t1, forces) = Ok F ->
  (forall j, j + 1 < a \/ a + n <= j + 1 -> getitem0 F j = getitem0 forces j)
  /\ (forall i, a <= i < a + n ->
      exists g, nudged_force self energies imax eqlength forces i = Ok g
                /\ relaxed self imax i g (getitem0 F (i - 1))).
Proof.
  intros Himax. induction n as [|n IH]; intros a t1 forces F Hl Ha Ht1.
  - cbn [seq NEB.forces_loop snd]. intros [= <-]. split; [reflexivity|]. intros i Hi; lia.
  - cbn [seq NEB.forces_loop].
    destruct (NEB.image_step _ _ _ _ _ _) as [[[t2 nt2] forces']|] eqn:Hstep; cbn [rbind];
      [|discriminate].
    intros Hloop.
    pose proof (image_step_laid_out _ _ _ _ _ _ _ _ _ _ _ Hl Hstep) as Hl'. cbn [snd] in Hl'.
    destruct (image_step_block _ _ _ _ _ _ _ _ _ _ _ Hl Ha Himax Ht1 Hstep)
      as (Ht2 & -> & Hother & g & Hg & Hblock).
    assert (Ht2' : NEB.spring_direction self (S a - 1) = Ok t2).
    { replace (S a - 1) with a by lia. exact Ht2. }
    destruct (IH (S a) t2 forces' F Hl' ltac:(lia) Ht2' Hloop) as [Hkeep Hdone].
    split.
    + intros j Hj. rewrite Hkeep by lia. apply Hother. lia.
    + intros i Hi. destruct (Nat.eq_dec i a) as [->|Hia].
      * exists g. split; [exact Hg|]. rewrite Hkeep by lia. exact Hblock.
      * destruct (Hdone i ltac:(lia)) as (g' & Hg' & Hblock').
        exists g'. split; [|exact Hblock'].
        rewrite <- Hg'. symmetry. apply nudged_force_other_raw. apply Hother. lia.
Qed.

Lemma nudged_force_same (s s' : NEB.t) (energies : ndarray) (imax : nat)
    (eqlength : float) (raw : ndarray) (i : nat) :
  same_images s s' ->
  nudged_force s' energies imax eqlength raw i = nudged_force s energies imax eqlength raw i.
Proof.
  destruct s, s'. unfold same_images, same_options. cbn.
  intros (-> & _ & _ & _ & _ & _ & -> & -> & -> & _ & _). reflexivity.
Qed.

Lemma below_tolerance_same (s s' : NEB.t) (imax i : nat) (g : ndarray) :
  same_images s s' -> below_tolerance s' imax i g = below_tolerance s imax i g.
Proof.
  destruct s, s'. unfold same_images, same_options. cbn.
  intros (-> & _ & _ & _ & _ & _ & _ & _ & _ & -> & ->). reflexivity.
Qed.

Lemma equilibrium_length_same (s s' : NEB.t) :
  same_images s s' -> NEB.equilibrium_length s' = NEB.equilibrium_length s.
Proof.
  destruct s, s'. unfold same_images, same_options. cbn.
  intros (-> & _ & _ & _ & _ & _ & _ & -> & _). reflexivity.
Qed.

Lemma relaxed_same (s s' : NEB.t) (imax i : nat) (g : ndarray) (block : result ndarray) :
  same_images s s' -> relaxed s imax i g block -> relaxed s' imax i g block.
Proof.
  intros Hsame. pose proof (below_tolerance_same s s' imax i g Hsame) as Hb.
  destruct Hsame as (_ & Hn & _ & _ & Hdyn & _). unfold relaxed.
  rewrite Hdyn, Hb, Hn. auto.
Qed.

(** The rows of every interior image in the array [get_forces] returns. *)
Lemma get_forces_blocks (band band' : NEB.t) (F : ndarray) :
  NEB.get_forces band = (Ok F, band') ->
  exists energies imax raw real eqlength,
    NEB.energies band' = Some energies
    /\ NEB.imax band' = Some imax
    /\ NEB.real_forces band' = Some real
    /\ set_slice0 (np_zeros [NEB.nimages band; NEB.natoms band; 3]) 1
         (NEB.nimages band - 1) raw = Ok real
    /\ NEB.equilibrium_length band' = Ok eqlength
    /\ same_first band band'
    /\ forall i, 1 <= i <= NEB.nimages band - 2 ->
         exists g, nudged_force band' energies imax eqlength raw i = Ok g
                   /\ relaxed band' imax i g
                        (Ok (slice0 F ((i - 1) * NEB.natoms band)
                                      ((i - 1) * NEB.natoms band + NEB.natoms band))).
Proof.
  intros Hrun. destruct (get_forces_returns _ _ _ Hrun) as (self & Hp & Hsame & _ & Hm).
  pose proof (project_same_images self self _ _ Hp) as Himages.
  destruct (project_returns _ _ _ _ Hp)
    as (e0 & energies & raw & real & top & t1 & eql & forces
        & He0 & Hev & Hreal & Htop & Ht1 & Heql & Hloop & HF & Hs').
  destruct (project_evaluated _ _ _ _ He0 Hev) as [_ Hraw]. cbn [snd] in Hraw.
  pose proof (forces_loop_laid_out _ _ _ _ _ _ _ _ _ _ _ Hraw Hloop) as Hforces.
  destruct (forces_loop_blocks self energies (1 + top) eql (NEB.nimages self - 2)
              ltac:(lia) _ 1 t1 raw forces Hraw (le_n 1) Ht1 Hloop) as [_ Hdone].
  pose proof Hsame as (_ & _ & Hn & Hmm & _).
  exists energies, (1 + top), raw, real, eql.
  split; [subst band'; reflexivity|]. split; [subst band'; reflexivity|].
  split; [subst band'; reflexivity|].
  split; [rewrite <- Hn, <- Hmm; exact Hreal|].
  split; [rewrite (equilibrium_length_same self band' Himages); exact Heql|].
  split; [eapply same_first_trans; [exact Hsame|now apply same_images_same_first]|].
  intros i Hi. rewrite <- Hmm in Hi. rewrite <- Hn.
  destruct (Hdone i ltac:(lia)) as (g & Hg & Hblock).
  exists g. split; [now rewrite (nudged_force_same self band' _ _ _ _ _ Himages)|].
  apply (relaxed_same self band' _ _ _ _ Himages).
  destruct (getitem0 forces (i - 1)) as [blk|] eqn:Hblk.
  - now rewrite (rows_of_block _ _ _ _ _ _ Hforces HF Hblk).
  - exfalso. destruct Hforces as [Hs _]. unfold getitem0, len0 in Hblk.
    rewrite Hs in Hblk. cbn [hd] in Hblk.
    destruct (Nat.ltb_spec (i - 1) (NEB.nimages self - 2)); [discriminate|lia].
Qed.
End Band_blocks.

(** ** Dynamic relaxation *)

Section Relaxation.
Context `{Memory} `{Calculator} `{Geometry} `{Numpy}.

End Relaxation.

Section Relaxed_band_runs.
#[local] Existing Instances Demo.memory Demo.free_space Demo.sideways Demo.in_order.


End Relaxed_band_runs.

(** ** The climber's neighbours in [eb] *)

Lemma float_of_spec (x : float) (sx : spec_float) :
  Prim2SF x = sx -> x = SF2Prim sx.
Proof. intros <-. symmetry. apply SF2Prim_Prim2SF. Qed.

Lemma is_nan_of_spec (x : float) : Prim2SF x = S754_nan -> x = nan.
Proof. intros Hx. apply float_of_spec in Hx. exact Hx. Qed.

Lemma eqb_zero_spec (z : float) :
  (z =? 0)%float = true -> exists s, Prim2SF z = S754_zero s.
Proof.
  rewrite eqb_spec. change (Prim2SF 0) with (S754_zero false).
  unfold SFeqb, SFcompare. destruct (Prim2SF z) as [s|s| |s m e]; try discriminate.
  - eauto.
  - destruct s; discriminate.
  - destruct s; discriminate.
Qed.

Lemma abs_not_below_zero (x z : float) (s : bool) :
  Prim2SF z = S754_zero s -> (abs x <? z)%float = false.
Proof.
  intros Hz. rewrite ltb_spec, abs_spec, Hz. unfold SFltb, SFcompare, SFabs.
  destruct (Prim2SF x) as [sx|sx| |sx m e]; reflexivity.
Qed.

Lemma mul_div_zero (x z : float) (s : bool) :
  Prim2SF z = S754_zero s -> (x * z / z)%float = nan.
Proof.
  intros Hz. apply is_nan_of_spec.
  rewrite div_spec, mul_spec, Hz. unfold SF64div, SF64mul, SFdiv, SFmul.
  destruct (Prim2SF x) as [sx|sx| |sx m e]; reflexivity.
Qed.

Lemma add_nan (p : float) : (p + nan)%float = nan.
Proof.
  apply is_nan_of_spec. rewrite add_spec. change (Prim2SF nan) with S754_nan.
  unfold SF64add, SFadd. destruct (Prim2SF p); reflexivity.
Qed.

Lemma deltav_zero (energies : ndarray) (i : nat) (deltavmax deltavmin : float) :
  NEB.deltav energies i = (deltavmax, deltavmin) ->
  (deltavmax =? 0)%float = true ->
  exists s, Prim2SF deltavmax = S754_zero s /\ deltavmin = deltavmax.
Proof.
  unfold NEB.deltav, F64.py_max, F64.py_min, F64.gtb.
  set (up := abs _). set (down := abs _). intros [= <- <-] Hzero.
  destruct (eqb_zero_spec _ Hzero) as [s Hs]. exists s. split; [exact Hs|].
  destruct (up <? down)%float eqn:Hlt.
  - subst up. rewrite (abs_not_below_zero _ down s Hs) in Hlt. discriminate.
  - subst down. now rewrite (abs_not_below_zero _ up s Hs).
Qed.

Lemma scaled_by_zero_is_nan (p : list float) (spring : list float) (z : float) (s : bool) :
  Prim2SF z = S754_zero s ->
  Forall (fun x => x = nan)
         (map2 PrimFloat.add p (map (fun y => y / z)%float (map (fun y => y * z)%float spring))).
Proof.
  intros Hz. revert p. induction spring as [|x spring IH]; intros [|a p]; cbn; constructor.
  - rewrite (mul_div_zero x z s Hz). apply add_nan.
  - apply IH.
Qed.

Section Climbing.
Context `{Memory} `{Calculator} `{Geometry} `{Numpy}.

Lemma nudged_force_beside (self : NEB.t) (energies raw g : ndarray) (imax i : nat)
    (eqlength : float) :
  NEB.method self = "eb"%string -> NEB.climb self = true ->
  NEB.beside i imax = true ->
  nudged_force self energies imax eqlength raw i = Ok g ->
  exists perp spring,
    perpendicular_force self energies imax raw i = Ok perp
    /\ spring_force self eqlength i = Ok spring
    /\ Np.add perp (Np.div_s (Np.mul_s spring (snd (NEB.deltav energies i)))
                             (fst (NEB.deltav energies i))) = Ok g.
Proof.
  intros Hm Hc Hb. unfold nudged_force, perpendicular_force, spring_force.
  destruct (NEB.spring_direction self (i - 1)) as [t1|]; [|discriminate].
  destruct (NEB.spring_direction self i) as [t2|]; [|discriminate].
  cbn [rbind].
  destruct (NEB.tangent_of _ _ _ _ _ _ _ _) as [tangent|]; [|discriminate].
  cbn [rbind].
  destruct (getitem0 raw (i - 1)) as [f|]; [|discriminate].
  cbn [rbind]. unfold NEB.effective_force.
  destruct (Np.vdot f tangent) as [ft|]; [|discriminate]. cbn [rbind].
  assert (Hne : (i =? imax)%nat = false).
  { unfold NEB.beside in Hb. apply Nat.eqb_neq.
    apply orb_true_iff in Hb as [Hb|Hb]; apply Nat.eqb_eq in Hb; lia. }
  rewrite Hne, Hm, Hc, Hb. cbn [andb]. rewrite String.eqb_refl.
  destruct (Np.sub f (Np.s_mul ft tangent)) as [perp|]; [|discriminate]. cbn [rbind].
  destruct (getitem (NEB.k self) (i - 1)) as [k1|]; [|discriminate]. cbn [rbind].
  destruct (getitem (NEB.k self) i) as [k2|]; [|discriminate]. cbn [rbind].
  destruct (NEB.deltav energies i) as [deltavmax deltavmin]. cbn [fst snd].
  destruct (Np.add _ _) as [spring|]; [|discriminate]. cbn [rbind].
  intros Hg. exists perp, spring. repeat split; assumption.
Qed.

(** C5. In [eb] with climbing, in a returning [get_forces] the nudged
    force of a neighbour [i] of the climber is the force without its
    component along the tangent plus [(f1 + f2) * deltavmin / deltavmax],
    the quotient being taken as it is: when [deltavmax] is zero every
    component of that force is NaN. The rows of image [i] in the array
    returned are this force, unless dynamic relaxation zeroes them. *)
Theorem neighbour_of_climber_scales_springs (band band' : NEB.t) (F : ndarray) (i : nat) :
  NEB.get_forces band = (Ok F, band') ->
  NEB.method band = "eb"%string ->
  NEB.climb band = true ->
  1 <= i <= NEB.nimages band - 2 ->
  exists energies imax raw eqlength,
    NEB.energies band' = Some energies
    /\ NEB.imax band' = Some imax
    /\ NEB.equilibrium_length band' = Ok eqlength
    /\ (NEB.beside i imax = true ->
        exists perp spring g,
          perpendicular_force band' energies imax raw i = Ok perp
          /\ spring_force band' eqlength i = Ok spring
          /\ Np.add perp (Np.div_s (Np.mul_s spring (snd (NEB.deltav energies i)))
                                   (fst (NEB.deltav energies i))) = Ok g
          /\ relaxed band' imax i g (Ok (rows_of_image (NEB.natoms band) i F))
          /\ ((fst (NEB.deltav energies i) =? 0)%float = true ->
              Forall (fun x => x = nan) (data g))).
Proof.
  intros Hrun Hm Hc Hint.
  destruct (get_forces_blocks band band' F Hrun)
    as (energies & imax & raw & real & eql & He & Hi & _ & _ & Heq & Hsame & Hrows).
  exists energies, imax, raw, eql. split; [exact He|]. split; [exact Hi|].
  split; [exact Heq|]. intros Hb.
  destruct (Hrows i Hint) as (g & Hg & Hrel).
  destruct Hsame as (_ & _ & Hn & _ & _ & _ & _ & Hc' & Hm' & _).
  rewrite <- Hm' in Hm. rewrite <- Hc' in Hc.
  destruct (nudged_force_beside band' energies raw g imax i eql Hm Hc Hb Hg)
    as (perp & spring & Hperp & Hspring & Hsum).
  exists perp, spring, g. split; [exact Hperp|]. split; [exact Hspring|].
  split; [exact Hsum|]. split; [exact Hrel|].
  intros Hzero.
  destruct (NEB.deltav energies i) as [deltavmax deltavmin] eqn:Hdv. cbn [fst snd] in *.
  destruct (deltav_zero energies i deltavmax deltavmin Hdv Hzero) as (s & Hs & ->).
  unfold Np.add, amap2 in Hsum. destruct (same_layout _ _); [|discriminate].
  injection Hsum as <-. cbn [data Np.div_s Np.mul_s amap].
  exact (scaled_by_zero_is_nan (data perp) (data spring) deltavmax s Hs).
Qed.
End Climbing.

Section Climbing_runs.
#[local] Existing Instances Demo.memory Demo.free_space Demo.sideways Demo.in_order.

Lemma neighbour_of_climber_scales_springs_witness :
  exists imax,
    NEB.imax (snd (NEB.get_forces (Demo.band Demo.four "eb" true false false)))
    = Some imax.
Proof.
  destruct (neighbour_of_climber_scales_springs
              (Demo.band Demo.four "eb" true false false)
              (snd (NEB.get_forces (Demo.band Demo.four "eb" true false false)))
              (mk_ndarray [2; 3] [nan; nan; nan; 0; 0.25; 0]%float) 1)
    as (energies & imax & raw & eql & _ & Himax & _).
  - vm_compute. reflexivity.
  - reflexivity.
  - reflexivity.
  - cbn. lia.
  - exists imax. exact Himax.
Defined.

(** Four images of equal energy: image 1 is beside the climber, image 2,
    and [deltavmax] is zero at image 1. With the quotient taken to be zero
    the force of image 1 would be its perpendicular force, [(0, 1/8, 0)];
    the rows [get_forces] returns for it are NaN. *)
Lemma flat_band_divides_by_zero :
  let band := Demo.band Demo.four "eb" true false false in
  let raw := mk_ndarray [2; 1; 3] [0; 0.125; 0; 0; 0.25; 0]%float in
  exists F band' energies perp spring,
    NEB.get_forces band = (Ok F, band')
    /\ NEB.energies band' = Some energies
    /\ NEB.imax band' = Some 2
    /\ NEB.beside 1 2 = true
    /\ (fst (NEB.deltav energies 1) =? 0)%float = true
    /\ perpendicular_force band' energies 2 raw 1 = Ok perp
    /\ spring_force band' 1 1 = Ok spring
    /\ Np.add perp (Np.mul_s spring (guarded_quotient (snd (NEB.deltav energies 1))
                                                      (fst (NEB.deltav energies 1))))
       = Ok (mk_ndarray [1; 3] [0; 0.125; 0]%float)
    /\ data (rows_of_image 1 1 F) = [nan; nan; nan]%float.
Proof.
  intros band raw. do 5 eexists.
  split; [vm_compute; reflexivity|]. split; [reflexivity|]. split; [reflexivity|].
  split; [reflexivity|]. split; [vm_compute; reflexivity|].
  split; [vm_compute; reflexivity|]. split; [vm_compute; reflexivity|].
  split; vm_compute; reflexivity.
Qed.
End Climbing_runs.

(** ** The shapes of the forces *)

Lemma same_sizes_refl (c : ChainOfStates.t) : same_sizes c c.
Proof. split; reflexivity. Qed.

Lemma same_sizes_trans (c1 c2 c3 : ChainOfStates.t) :
  same_sizes c1 c2 -> same_sizes c2 c3 -> same_sizes c1 c3.
Proof. intros [A1 A2] [B1 B2]. split; congruence. Qed.

Lemma chain_set_positions_loop_sizes (X : ndarray) (idx : list nat) (n1 : nat) :
  preserves same_sizes (ChainOfStates.set_positions_loop X idx n1).
Proof.
  revert n1. induction idx as [|i rest IH]; intros n1; cbn [ChainOfStates.set_positions_loop].
  - apply (preserves_ret same_sizes same_sizes_refl).
  - repeat first
      [ apply (preserves_bind same_sizes same_sizes_trans)
      | match goal with |- forall _, preserves _ _ => intro end
      | apply (preserves_lift same_sizes same_sizes_refl)
      | apply (preserves_get same_sizes same_sizes_refl)
      | apply (preserves_modify same_sizes); intros; split; reflexivity
      | apply IH ].
Qed.

Lemma chain_set_positions_sizes (X : ndarray) :
  preserves same_sizes (ChainOfStates.set_positions X).
Proof.
  unfold ChainOfStates.set_positions.
  apply (preserves_bind same_sizes same_sizes_trans).
  - apply (preserves_get same_sizes same_sizes_refl).
  - intros self. apply chain_set_positions_loop_sizes.
Qed.

Section String_layout.
Context `{Memory} `{Calculator} `{Geometry} `{Numpy} `{Preconditioner} `{Interpolation}.

Lemma same_extents_refl (s : PreconMEP.t) : same_extents s s.
Proof. apply same_sizes_refl. Qed.

Lemma same_extents_trans (s1 s2 s3 : PreconMEP.t) :
  same_extents s1 s2 -> same_extents s2 s3 -> same_extents s1 s3.
Proof. apply same_sizes_trans. Qed.

Lemma mep_set_dofs_extents (X : ndarray) : preserves same_extents (PreconMEP.set_dofs X).
Proof.
  unfold PreconMEP.set_dofs, ChainOfStates.set_dofs.
  apply (preserves_bind same_extents same_extents_trans).
  { apply (preserves_get same_extents same_extents_refl). }
  intros self. apply (preserves_bind same_extents same_extents_trans).
  { apply (preserves_lift same_extents same_extents_refl). }
  intros P. unfold PreconMEP.set_positions, zoom. intros s r s'.
  destruct (ChainOfStates.set_positions P (PreconMEP.base s)) as [r0 c'] eqn:Hc.
  intros [= _ <-]. unfold same_extents. cbn [PreconMEP.base PreconMEP.with_base].
  exact (chain_set_positions_sizes P _ _ _ Hc).
Qed.

Lemma mep_raw_forces_loop_laid_out (imgs : list Atoms) (sh : list nat) (d0 : nat)
    (idx : list nat) (forces forces' : ndarray) :
  laid_out (d0 :: sh) forces ->
  PreconMEP.raw_forces_loop imgs idx forces = Ok forces' ->
  laid_out (d0 :: sh) forces'.
Proof.
  revert forces. induction idx as [|i rest IH]; intros forces Hl;
    cbn [PreconMEP.raw_forces_loop].
  - now intros [= <-].
  - destruct (getitem imgs i) as [image|]; [|discriminate]. cbn [rbind].
    destruct (Atoms.get_forces image) as [f|]; [|discriminate]. cbn [rbind].
    destruct (setitem0 forces (i - 1) f) as [forces1|] eqn:Hset; [|discriminate].
    cbn [rbind]. apply IH. eapply setitem0_laid_out; eassumption.
Qed.

Lemma mep_raw_forces_laid_out (self : PreconMEP.t) (forces : ndarray) :
  PreconMEP.raw_forces self = Ok forces ->
  laid_out [PreconMEP.nimages self - 2; PreconMEP.natoms self; 3] forces.
Proof.
  unfold PreconMEP.raw_forces.
  destruct (PreconMEP.get_all_forces self) as [all|].
  - destruct (assignable _ _) eqn:Ha; [|discriminate]. intros [= <-].
    split; [reflexivity|]. cbn [data]. now apply assignable_length in Ha.
  - destruct (NEB.has_duplicates _); [discriminate|].
    apply mep_raw_forces_loop_laid_out. apply laid_out_full.
Qed.

Lemma mep_image_step_laid_out (s : ndarray) (sp : spline) (i : nat) (sh : list nat)
    (d0 : nat) (forces forces' : ndarray) (st st' : PreconMEP.t) :
  laid_out (d0 :: sh) forces ->
  PreconMEP.image_step s sp i forces st = (Ok forces', st') ->
  laid_out (d0 :: sh) forces'.
Proof.
  intros Hl. unfold PreconMEP.image_step, bind, get, lift, modify, ret.
  repeat match goal with
         | |- context [match ?x with _ => _ end] =>
             match x with
             | setitem0 _ _ _ => fail 1
             | _ => destruct x eqn:?; try discriminate
             end
         end;
  match goal with
  | |- context [setitem0 ?a ?j ?b] =>
      destruct (setitem0 a j b) eqn:Hset; [|discriminate];
      intros [= <- _]; eapply setitem0_laid_out; eassumption
  end.
Qed.

Lemma mep_forces_loop_laid_out (s : ndarray) (sp : spline) (sh : list nat) (d0 : nat)
    (idx : list nat) (forces forces' : ndarray) (st st' : PreconMEP.t) :
  laid_out (d0 :: sh) forces ->
  PreconMEP.forces_loop s sp idx forces st = (Ok forces', st') ->
  laid_out (d0 :: sh) forces'.
Proof.
  revert forces st. induction idx as [|i rest IH]; intros forces st Hl;
    cbn [PreconMEP.forces_loop].
  - now intros [= <- _].
  - unfold bind.
    destruct (PreconMEP.image_step s sp i forces st) as [[forces1|] st1] eqn:Hstep;
      [|discriminate].
    apply IH. eapply mep_image_step_laid_out; eassumption.
Qed.

Lemma mep_get_forces_laid_out (self self' : PreconMEP.t) (G : ndarray) :
  PreconMEP.get_forces self = (Ok G, self') ->
  laid_out [PreconMEP.nimages self - 2; PreconMEP.natoms self; 3] G.
Proof.
  unfold PreconMEP.get_forces. unfold bind at 1, get at 1. unfold bind at 1.
  destruct (PreconMEP.nimages self <? 2); [discriminate|]. unfold lift at 1.
  destruct (PreconMEP.raw_forces self) as [forces|] eqn:Hraw; [|discriminate].
  unfold bind at 1, lift at 1.
  destruct (PreconMEP.spline_fit self precon_norm) as [[s sp]|]; [|discriminate].
  unfold bind at 1, modify at 1.
  apply mep_forces_loop_laid_out. now apply mep_raw_forces_laid_out.
Qed.

Lemma mep_force_function_shape (self self' : PreconMEP.t) (X V : ndarray) :
  PreconMEP.force_function X self = (Ok V, self') ->
  laid_out [3 * PreconMEP.natoms self * (PreconMEP.nimages self - 2)] V.
Proof.
  unfold PreconMEP.force_function. unfold bind at 1.
  destruct (PreconMEP.set_dofs X self) as [[[]|] s1] eqn:Hset; [|discriminate].
  unfold bind at 1.
  destruct (PreconMEP.get_forces s1) as [[G|] s2] eqn:Hget; [|discriminate].
  intros [= <- _]. apply mep_get_forces_laid_out in Hget as [_ Hlen].
  destruct (mep_set_dofs_extents X _ _ _ Hset) as [Hn Hm].
  unfold PreconMEP.natoms, PreconMEP.nimages in *. rewrite Hn, Hm in Hlen.
  assert (Hsize : length (data G)
                  = 3 * ChainOfStates.natoms (PreconMEP.base self)
                    * (ChainOfStates.nimages (PreconMEP.base self) - 2)).
  { rewrite Hlen. cbn [size_of_shape fold_right]. lia. }
  unfold laid_out, ravel. cbn [shape data size_of_shape fold_right].
  rewrite Hsize. split; [reflexivity|]. lia.
Qed.

(** C10. When they return, [NEB.get_forces] gives an array of shape
    [((M - 2) * N, 3)] and [PreconMEP.get_forces] one of shape
    [(M - 2, N, 3)], which is never the shape of the former;
    [PreconMEP.force_function] gives a vector of [3 * N * (M - 2)]
    entries. *)
Theorem force_array_shapes (band band' : NEB.t) (mep mep' mep'' : PreconMEP.t)
    (F G V X : ndarray) :
  NEB.get_forces band = (Ok F, band') ->
  PreconMEP.get_forces mep = (Ok G, mep') ->
  PreconMEP.force_function X mep = (Ok V, mep'') ->
  shape F = [(NEB.nimages band - 2) * NEB.natoms band; 3]
  /\ shape G = [PreconMEP.nimages mep - 2; PreconMEP.natoms mep; 3]
  /\ shape V = [3 * PreconMEP.natoms mep * (PreconMEP.nimages mep - 2)]
  /\ length (data V) = 3 * PreconMEP.natoms mep * (PreconMEP.nimages mep - 2)
  /\ shape F <> shape G.
Proof.
  intros HF HG HV.
  destruct (get_forces_shape band F band' HF) as [HsF _].
  destruct (mep_get_forces_laid_out mep mep' G HG) as [HsG _].
  destruct (mep_force_function_shape mep mep'' X V HV) as [HsV HlV].
  split; [exact HsF|]. split; [exact HsG|]. split; [exact HsV|]. split.
  - rewrite HlV. cbn [size_of_shape fold_right]. lia.
  - rewrite HsF, HsG. discriminate.
Qed.
End String_layout.

Section Shape_runs.
#[local] Existing Instances Demo.memory Demo.free_space Demo.sideways Demo.in_order
  Demo.identity Demo.polygon.

Lemma force_array_shapes_witness :
  let band := Demo.band Demo.four "aseneb" false false false in
  let mep := Demo.mep Demo.four in
  let X := mk_ndarray [6] [1; 0; 0; 2; 0; 0]%float in
  let F := mk_ndarray [2; 3] [0; 0.125; 0; 0; 0.25; 0]%float in
  let G := mk_ndarray [2; 1; 3] [0; 0.125; 0; 0; 0.25; 0]%float in
  let V := mk_ndarray [6] [0; 0.125; 0; 0; 0.25; 0]%float in
  fst (NEB.get_forces band) = Ok F
  /\ fst (PreconMEP.get_forces mep) = Ok G
  /\ fst (PreconMEP.force_function X mep) = Ok V
  /\ shape F = [(4 - 2) * 1; 3]
  /\ shape G = [4 - 2; 1; 3]
  /\ shape V = [3 * 1 * (4 - 2)]
  /\ shape F <> shape G.
Proof.
  intros band mep X F G V.
  split; [vm_compute; reflexivity|]. split; [vm_compute; reflexivity|].
  split; [vm_compute; reflexivity|].
  destruct (force_array_shapes band (snd (NEB.get_forces band))
              mep (snd (PreconMEP.get_forces mep))
              (snd (PreconMEP.force_function X mep)) F G V X)
    as (HF & HG & HV & _ & Hne).
  - vm_compute. reflexivity.
  - vm_compute. reflexivity.
  - vm_compute. reflexivity.
  - split; [exact HF|]. split; [exact HG|]. split; [exact HV|exact Hne].
Defined.
End Shape_runs.

(** ** The energy and the forces of [IDPP] *)

Lemma map2_length {A B C} (f : A -> B -> C) (l1 : list A) (l2 : list B) :
  length l1 = length l2 -> length (map2 f l1 l2) = length l1.
Proof.
  revert l2. induction l1 as [|a l1 IH]; intros [|b l2] Hl; simpl in *; try discriminate; auto.
Qed.

Lemma nth_map2 {A B C} (f : A -> B -> C) (l1 : list A) (l2 : list B) (k : nat)
    (d : C) (d1 : A) (d2 : B) :
  k < length l1 -> k < length l2 ->
  nth k (map2 f l1 l2) d = f (nth k l1 d1) (nth k l2 d2).
Proof.
  revert l2 k. induction l1 as [|a l1 IH]; intros [|b l2] [|k] H1 H2; simpl in *;
    try lia; auto.
  apply IH; lia.
Qed.

Lemma nth_map_in {A B} (f : A -> B) (l : list A) (k : nat) (d : B) (d' : A) :
  k < length l -> nth k (map f l) d = f (nth k l d').
Proof.
  intros Hk. rewrite (nth_indep _ d (f d')) by now rewrite length_map.
  apply map_nth.
Qed.

Lemma flat_map_blocks_length {A} (f : nat -> list A) (m a n : nat) :
  (forall i, a <= i < a + n -> length (f i) = m) ->
  length (flat_map f (seq a n)) = n * m.
Proof.
  revert a. induction n as [|n IH]; intros a Hf; [reflexivity|].
  cbn [seq flat_map]. rewrite length_app, (Hf a) by lia.
  rewrite IH; [simpl; lia|]. intros i Hi. apply Hf. lia.
Qed.

Lemma nth_flat_map_blocks {A} (f : nat -> list A) (m a n i j : nat) (d : A) :
  (forall i, a <= i < a + n -> length (f i) = m) ->
  i < n -> j < m ->
  nth (i * m + j) (flat_map f (seq a n)) d = nth j (f (a + i)) d.
Proof.
  revert a i. induction n as [|n IH]; intros a i Hf Hi Hj; [lia|].
  cbn [seq flat_map]. destruct i as [|i].
  - rewrite app_nth1 by (rewrite (Hf a); lia). simpl. now rewrite Nat.add_0_r.
  - rewrite app_nth2 by (rewrite (Hf a) by lia; simpl; lia).
    rewrite (Hf a) by lia.
    replace (S i * m + j - m) with (i * m + j) by (simpl; lia).
    rewrite IH; [f_equal; f_equal; lia| |lia|lia].
    intros i' Hi'. apply Hf. lia.
Qed.

Lemma flat_map_map {A B C} (f : B -> list C) (g : A -> B) (l : list A) :
  flat_map f (map g l) = flat_map (fun x => f (g x)) l.
Proof. induction l as [|x l IH]; simpl; [reflexivity|]. now rewrite IH. Qed.

Lemma thrice_length {A} (l : list A) :
  length (flat_map (fun x => [x; x; x]) l) = length l * 3.
Proof. induction l as [|x l IH]; simpl; [reflexivity|]. rewrite IH. lia. Qed.

Lemma nth_thrice {A} (l : list A) (k c : nat) (d : A) :
  c < 3 -> nth (k * 3 + c) (flat_map (fun x => [x; x; x]) l) d = nth k l d.
Proof.
  intros Hc. revert k. induction l as [|x l IH]; intros k.
  - simpl. now destruct (k * 3 + c), k.
  - destruct k as [|k].
    + simpl. destruct c as [|[|[|c]]]; try reflexivity; lia.
    + replace (S k * 3 + c) with (S (S (S (k * 3 + c)))) by lia.
      cbn [flat_map app nth]. apply IH.
Qed.

Lemma stack_spec (sh : list nat) (rows : list ndarray) (l : list float) :
  IDPP.stack sh rows = Ok l ->
  l = flat_map data rows
  /\ Forall (fun a => length (data a) = size_of_shape sh) rows.
Proof.
  revert l. induction rows as [|a rows IH]; intros l; cbn [IDPP.stack].
  - intros [= <-]. split; constructor.
  - destruct (shape_eqb (shape a) sh && (length (data a) =? size_of_shape sh)) eqn:Ha;
      [|discriminate].
    destruct (IDPP.stack sh rows) as [tail|]; [|discriminate]. cbn [rbind].
    intros [= <-]. destruct (IH tail eq_refl) as [-> Hall]. split; [reflexivity|].
    constructor; [|exact Hall]. apply andb_prop in Ha as [_ Ha]. now apply Nat.eqb_eq.
Qed.

Lemma on_the_diagonal (n i j : nat) :
  i < n -> j < n -> ((i * n + j) mod (n + 1) =? 0) = (i =? j).
Proof.
  intros Hi Hj. destruct (Nat.eqb_spec i j) as [->|Hne].
  - apply Nat.eqb_eq. symmetry. apply (Nat.mod_unique _ _ j); lia.
  - apply Nat.eqb_neq. destruct (Nat.lt_ge_cases j i) as [Hlt|Hge].
    + rewrite <- (Nat.mod_unique (i * n + j) (n + 1) (i - 1) (n + 1 - i + j)); nia.
    + rewrite <- (Nat.mod_unique (i * n + j) (n + 1) i (j - i)); nia.
Qed.

Lemma nth_set_every (step : nat) (v : float) (l : list float) (countdown k : nat)
    (d : float) :
  0 < step -> countdown < step -> k < length l ->
  nth k (IDPP.set_every step v countdown l) d
  = if (countdown <=? k) && ((k - countdown) mod step =? 0) then v else nth k l d.
Proof.
  intros Hstep. revert countdown k.
  induction l as [|x l IH]; intros countdown k Hc Hk; [simpl in Hk; lia|].
  cbn [IDPP.set_every]. destruct countdown as [|c].
  - destruct k as [|k].
    + cbn [nth]. rewrite Nat.sub_0_r, Nat.Div0.mod_0_l. reflexivity.
    + cbn [nth]. rewrite IH by (simpl in Hk; lia).
      rewrite Nat.sub_0_r. cbn [Nat.leb andb].
      destruct (Nat.leb_spec (step - 1) k) as [Hle|Hlt]; cbn [andb].
      * replace (S k) with (k - (step - 1) + 1 * step) by lia.
        now rewrite Nat.Div0.mod_add.
      * rewrite (Nat.mod_small (S k)) by lia. reflexivity.
  - destruct k as [|k]; [reflexivity|].
    cbn [nth]. rewrite IH by (simpl in Hk; lia). reflexivity.
Qed.

Lemma set_every_length (step : nat) (v : float) (l : list float) (countdown : nat) :
  length (IDPP.set_every step v countdown l) = length l.
Proof.
  revert countdown. induction l as [|x l IH]; intros [|c]; simpl; auto.
Qed.

Lemma nth_pairs (n i j : nat) :
  i < n -> j < n -> nth (i * n + j) (IDPP.pairs n) (0, 0) = (i, j).
Proof.
  intros Hi Hj. unfold IDPP.pairs.
  rewrite (nth_flat_map_blocks _ n) by (intros; rewrite ?length_map, ?length_seq; lia).
  rewrite (nth_map_in _ _ _ _ 0) by (rewrite length_seq; lia).
  now rewrite seq_nth.
Qed.

Lemma pairs_length (n : nat) : length (IDPP.pairs n) = n * n.
Proof.
  unfold IDPP.pairs. apply flat_map_blocks_length.
  intros. now rewrite length_map, length_seq.
Qed.

Lemma square_index (n k : nat) : k < n * n -> k = (k / n) * n + k mod n /\ k / n < n /\ k mod n < n.
Proof.
  intros Hk. assert (Hn : n <> 0) by lia.
  pose proof (Nat.div_mod_eq k n). pose proof (Nat.mod_upper_bound k n Hn).
  split; [lia|]. split; [|assumption].
  apply Nat.Div0.div_lt_upper_bound. lia.
Qed.

Section Pair_potential.
Context `{Geometry} `{Libm} `{Numpy}.

Lemma stack_rows (sh : list nat) (g : nat -> ndarray) (n : nat) (l : list float) :
  IDPP.stack sh (map g (seq 0 n)) = Ok l ->
  l = flat_map (fun i => data (g i)) (seq 0 n)
  /\ (forall i, i < n -> length (data (g i)) = size_of_shape sh)
  /\ length l = n * size_of_shape sh.
Proof.
  intros Hs. apply stack_spec in Hs as [-> Hall].
  rewrite flat_map_map.
  assert (Hlen : forall i, i < n -> length (data (g i)) = size_of_shape sh).
  { intros i Hi. rewrite Forall_forall in Hall. apply Hall.
    apply in_map. apply in_seq. lia. }
  split; [reflexivity|]. split; [exact Hlen|].
  apply flat_map_blocks_length. intros i Hi. apply Hlen. lia.
Qed.

Lemma calculate_formulas (self : IDPP.t) (atoms : Atoms) (e : float) (f : ndarray) :
  IDPP.calculate self atoms = Ok (e, f) ->
  e = IDPP.energy_formula self atoms
  /\ laid_out [len0 (positions atoms); 3] f
  /\ forall j c, j < len0 (positions atoms) -> c < 3 ->
       nth (j * 3 + c) (data f) 0%float = IDPP.force_formula self atoms j c.
Proof.
  unfold IDPP.calculate, Atoms.get_positions.
  set (n := len0 (positions atoms)).
  rewrite !map_map.
  destruct (IDPP.stack [n] _) as [dl|] eqn:Hd; [|discriminate]. cbn [rbind].
  destruct (IDPP.stack [n; 3] _) as [Dl|] eqn:HD; [|discriminate]. cbn [rbind].
  apply stack_rows in Hd as (Hdl & Hdrow & Hdlen).
  apply stack_rows in HD as (HDl & HDrow & HDlen).
  cbn [size_of_shape fold_right] in *. rewrite Nat.mul_1_r in *.
  destruct (Np.sub _ _) as [dd|] eqn:Hdd; [|discriminate]. cbn [rbind data].
  unfold Np.sub, amap2, same_layout in Hdd.
  destruct (_ && _) eqn:Hlay in Hdd; [|discriminate].
  apply andb_prop in Hlay as [_ Hlay]. apply Nat.eqb_eq in Hlay. cbn [data] in Hlay.
  injection Hdd as <-. cbn [data].
  intros [= <- <-].
set (dd := map2 PrimFloat.sub dl (data (IDPP.target self))).
  set (d1 := IDPP.set_every (n + 1) 1 0 dl).
  assert (Hddlen : length dd = n * n).
  { unfold dd. rewrite map2_length; assumption. }
  assert (Hd1len : length d1 = n * n).
  { unfold d1. now rewrite set_every_length. }
  assert (Hin : forall i j, i < n -> j < n -> i * n + j < n * n) by (intros; nia).
  assert (Hraw : forall i j, i < n -> j < n ->
            nth (i * n + j) dl 0%float = IDPP.d_raw self atoms i j).
  { intros i j Hi Hj. rewrite Hdl.
    rewrite (nth_flat_map_blocks _ n) by (try lia; intros; apply Hdrow; lia).
    reflexivity. }
  assert (HDelta : forall i j, i < n -> j < n ->
            nth (i * n + j) dd 0%float = IDPP.Delta self atoms i j).
  { intros i j Hi Hj. unfold dd.
    rewrite (nth_map2 _ _ _ _ _ 0%float 0%float) by (rewrite <- ?Hlay, Hdlen; auto).
    unfold IDPP.Delta. now rewrite Hraw. }
  assert (Hd_ : forall i j, i < n -> j < n ->
            nth (i * n + j) d1 0%float = IDPP.d_ self atoms i j).
  { intros i j Hi Hj. unfold d1.
    rewrite nth_set_every by (rewrite ?Hdlen; auto; lia).
    cbn [Nat.leb andb]. rewrite Nat.sub_0_r, on_the_diagonal by assumption.
    unfold IDPP.d_. destruct (i =? j); [reflexivity|]. now apply Hraw. }
  assert (HD_ : forall i j c, i < n -> j < n -> c < 3 ->
            nth (i * (n * 3) + (j * 3 + c)) Dl 0%float = IDPP.D_ self atoms i j c).
  { intros i j c Hi Hj Hc. rewrite HDl.
    rewrite (nth_flat_map_blocks _ (n * 3)) by (try nia; intros; apply HDrow; lia).
    reflexivity. }
  split; [|split].
  - unfold IDPP.energy_formula. fold n. f_equal. f_equal.
    apply (nth_ext _ _ 0%float 0%float).
    + rewrite map2_length by (rewrite !length_map; congruence).
      now rewrite !length_map, pairs_length.
    + intros k Hk.
      rewrite map2_length in Hk by (rewrite !length_map; congruence).
      rewrite length_map, Hddlen in Hk.
      destruct (square_index n k Hk) as (Hkq & Hi & Hj).
      revert Hkq Hi Hj. generalize (k / n) (k mod n). intros i j -> Hi Hj.
      rewrite (nth_map2 _ _ _ _ _ 0%float 0%float)
        by (rewrite !length_map; congruence).
      rewrite (nth_map_in F64.square _ _ _ 0%float) by congruence.
      rewrite (nth_map_in (fun x => pow x 4) _ _ _ 0%float) by congruence.
      rewrite (nth_map_in _ _ _ _ (0, 0)) by now rewrite pairs_length.
      rewrite HDelta, Hd_, nth_pairs by assumption.
      reflexivity.
  - split; [reflexivity|]. cbn [data size_of_shape fold_right].
    rewrite length_map. unfold IDPP.sum_axis0.
    rewrite (flat_map_blocks_length _ 3); [lia|].
    intros. now rewrite length_map, length_seq.
  - intros j c Hj Hc. cbn [data]. unfold IDPP.sum_axis0.
    assert (Hblocks : forall j', 0 <= j' < 0 + n ->
              length (map (fun c0 =>
                Np.sum (map (fun i => nth (i * (n * 3) + j' * 3 + c0)
                  (map2 PrimFloat.mul
                     (flat_map (fun c1 : float => [c1; c1; c1])
                        (map2 PrimFloat.div
                           (map2 PrimFloat.mul dd
                              (map (fun q => (1 - q)%float)
                                 (map2 PrimFloat.div (map (fun x => (2 * x)%float) dd) d1)))
                           (map (fun x => pow x 5) d1)))
                     Dl) 0%float) (seq 0 n))) (seq 0 3)) = 3).
    { intros. now rewrite length_map, length_seq. }
    rewrite (nth_map_in _ _ _ _ 0%float)
      by (rewrite (flat_map_blocks_length _ 3 0 n Hblocks); nia).
    rewrite (nth_flat_map_blocks _ 3 0 n j c 0%float Hblocks Hj Hc).
    rewrite (nth_map_in _ _ _ _ 0) by now rewrite length_seq.
    rewrite seq_nth by assumption. cbn [Nat.add].
    unfold IDPP.force_formula. fold n. f_equal. f_equal.
    apply map_ext_in. intros i Hi. apply in_seq in Hi.
    assert (Hi' : i < n) by lia.
    set (coefficient := map2 PrimFloat.div _ _).
    assert (Hclen : length coefficient = n * n).
    { unfold coefficient. rewrite map2_length.
      - rewrite map2_length; [exact Hddlen|].
        rewrite length_map, map2_length; rewrite ?length_map; congruence.
      - rewrite length_map, map2_length.
        + congruence.
        + rewrite length_map, map2_length; rewrite ?length_map; congruence. }
    rewrite (nth_map2 _ _ _ _ _ 0%float 0%float)
      by (rewrite ?thrice_length, ?Hclen, ?HDlen; nia).
    rewrite <- Nat.add_assoc, HD_ by assumption.
    replace (i * (n * 3) + (j * 3 + c)) with ((i * n + j) * 3 + c) by lia.
    rewrite nth_thrice by assumption.
    unfold coefficient.
    rewrite (nth_map2 _ _ _ _ _ 0%float 0%float).
    2:{ rewrite map2_length; rewrite ?length_map, ?map2_length; rewrite ?length_map;
          try congruence. rewrite Hddlen. auto. }
    2:{ rewrite length_map, Hd1len. auto. }
    rewrite (nth_map2 _ _ _ _ _ 0%float 0%float).
    2:{ rewrite Hddlen. auto. }
    2:{ rewrite length_map, map2_length; rewrite ?length_map; try congruence.
        rewrite Hddlen. auto. }
    rewrite (nth_map_in (fun q => (1 - q)%float) _ _ _ 0%float).
    2:{ rewrite map2_length; rewrite ?length_map; try congruence. rewrite Hddlen. auto. }
    rewrite (nth_map2 _ _ _ _ _ 0%float 0%float).
    2:{ rewrite length_map, Hddlen. auto. }
    2:{ rewrite Hd1len. auto. }
    rewrite (nth_map_in (fun x => (2 * x)%float) _ _ _ 0%float) by (rewrite Hddlen; auto).
    rewrite (nth_map_in (fun x => pow x 5) _ _ _ 0%float) by (rewrite Hd1len; auto).
    rewrite HDelta, Hd_ by assumption. reflexivity.
Qed.
Lemma stack_returns (sh : list nat) (rows : list ndarray) :
  Forall (fun a => laid_out sh a) rows -> exists l, IDPP.stack sh rows = Ok l.
Proof.
  induction 1 as [|a rows [Hs Hl] _ [tail IH]]; cbn [IDPP.stack]; [eauto|].
  rewrite Hs, shape_eqb_refl, Hl, Nat.eqb_refl, IH. cbn [andb rbind]. eauto.
Qed.

Lemma row_length (l : list float) (n j : nat) :
  length l = n * 3 -> j < n -> length (IDPP.row 3 l j) = 3.
Proof.
  intros Hl Hj. unfold IDPP.row. rewrite length_firstn, length_skipn. nia.
Qed.

Lemma displacements_laid_out (self : IDPP.t) (atoms : Atoms) (n i : nat) :
  IDPP.mic self = false -> laid_out [n; 3] (positions atoms) -> i < n ->
  laid_out [n; 3] (fst (IDPP.displacements self atoms i))
  /\ laid_out [n] (snd (IDPP.displacements self atoms i)).
Proof.
  intros Hmic [Hs Hl] Hi. unfold IDPP.displacements, Atoms.get_positions.
  rewrite Hmic. cbn [fst snd]. cbn [size_of_shape fold_right] in Hl.
  unfold IDPP.row_lengths, IDPP.minus_row, laid_out, len0.
  cbn [shape data]. rewrite Hs. cbn [hd size_of_shape fold_right].
  repeat split.
  - rewrite (flat_map_blocks_length _ 3); [lia|].
    intros j Hj. rewrite map2_length; rewrite !(row_length _ n); auto; lia.
  - rewrite length_map, length_seq. lia.
Qed.

Lemma calculate_returns (self : IDPP.t) (atoms : Atoms) :
  IDPP.mic self = false ->
  laid_out [len0 (positions atoms); 3] (positions atoms) ->
  laid_out [len0 (positions atoms); len0 (positions atoms)] (IDPP.target self) ->
  exists e f, IDPP.calculate self atoms = Ok (e, f).
Proof.
  intros Hmic HP [HTs HTl]. unfold IDPP.calculate, Atoms.get_positions.
  set (n := len0 (positions atoms)) in *.
  assert (Hrows : forall i, In i (seq 0 n) ->
            laid_out [n; 3] (fst (IDPP.displacements self atoms i))
            /\ laid_out [n] (snd (IDPP.displacements self atoms i))).
  { intros i Hi. apply in_seq in Hi. apply displacements_laid_out; auto. lia. }
  rewrite !map_map.
  destruct (stack_returns [n] (map (fun i => snd (IDPP.displacements self atoms i))
                                   (seq 0 n))) as [dl Hd].
  { apply Forall_map, Forall_forall. intros i Hi. now apply Hrows. }
  destruct (stack_returns [n; 3] (map (fun i => fst (IDPP.displacements self atoms i))
                                      (seq 0 n))) as [Dl HD].
  { apply Forall_map, Forall_forall. intros i Hi. now apply Hrows. }
  rewrite Hd, HD. cbn [rbind].
  apply stack_rows in Hd as (_ & _ & Hdlen).
  unfold Np.sub, amap2, same_layout. cbn [shape data].
  rewrite HTs, shape_eqb_refl, Hdlen, HTl. cbn [size_of_shape fold_right andb].
  rewrite Nat.eqb_refl. cbn [rbind]. eauto.
Qed.
End Pair_potential.

Section Pair_potential_claim.
Context `{Geometry} `{Libm} `{Numpy}.

(** C8. When [calculate] returns, the energy is
    [1/2 sum_ij Delta_ij^2 / d_ij^4] and the force on atom [j] is
    [-2 sum_i Delta_ij (1 - 2 Delta_ij / d_ij) / d_ij^5 D_ij], the sum
    running over the first index, with [Delta] from the raw distances and
    [d_ii] replaced by one, so that no diagonal term divides by zero; and
    it returns, without [mic], for [n] positions of three coordinates and
    a target of shape [(n, n)]. *)
Theorem idpp_energy_and_forces (self : IDPP.t) (atoms : Atoms) :
  (forall e f,
     IDPP.calculate self atoms = Ok (e, f) ->
     e = IDPP.energy_formula self atoms
     /\ laid_out [len0 (positions atoms); 3] f
     /\ forall j c, j < len0 (positions atoms) -> c < 3 ->
          nth (j * 3 + c) (data f) 0%float = IDPP.force_formula self atoms j c)
  /\ (forall i, IDPP.d_ self atoms i i = 1%float)
  /\ (IDPP.mic self = false ->
      laid_out [len0 (positions atoms); 3] (positions atoms) ->
      laid_out [len0 (positions atoms); len0 (positions atoms)] (IDPP.target self) ->
      exists e f, IDPP.calculate self atoms = Ok (e, f)).
Proof.
  split; [|split].
  - intros e f. apply calculate_formulas.
  - intros i. unfold IDPP.d_. now rewrite Nat.eqb_refl.
  - apply calculate_returns.
Qed.
End Pair_potential_claim.

Section Pair_runs.
#[local] Existing Instances Demo.free_space Demo.libm Demo.in_order.

Lemma idpp_energy_and_forces_witness :
  exists e f,
    IDPP.calculate Demo.apart Demo.pair = Ok (e, f)
    /\ e = IDPP.energy_formula Demo.apart Demo.pair
    /\ nth (1 * 3 + 0) (data f) 0%float = IDPP.force_formula Demo.apart Demo.pair 1 0.
Proof.
  destruct (idpp_energy_and_forces Demo.apart Demo.pair) as (Hformulas & _ & Hreturns).
  destruct Hreturns as (e & f & Hrun).
  - reflexivity.
  - split; reflexivity.
  - split; reflexivity.
  - exists e, f. split; [exact Hrun|].
    destruct (Hformulas e f Hrun) as (He & _ & Hf). split; [exact He|].
    apply Hf; cbn; lia.
Defined.

(** Two atoms one unit apart with a target of two units: the force
    returned for atom 0 is [(-6, -0, -0)], away from atom 1, and the sum
    over the second index, which the claim writes, is [6] in the first
    coordinate. *)
Lemma idpp_claimed_force_has_the_opposite_sign :
  exists e f,
    IDPP.calculate Demo.apart Demo.pair = Ok (e, f)
    /\ nth (0 * 3 + 0) (data f) 0%float = (-6)%float
    /\ IDPP.force_formula_claimed Demo.apart Demo.pair 0 0 = 6%float
    /\ nth (0 * 3 + 0) (data f) 0%float <> IDPP.force_formula_claimed Demo.apart Demo.pair 0 0.
Proof.
  eexists. eexists. split; [vm_compute; reflexivity|].
  split; [reflexivity|]. split; [vm_compute; reflexivity|].
  intros Heq. apply (f_equal (fun x => PrimFloat.eqb x 6)) in Heq.
  vm_compute in Heq. discriminate.
Qed.
End Pair_runs.

(** ** The knots of the spline *)



















Section Spline.
Context `{Memory} `{Calculator} `{Geometry} `{Numpy} `{Preconditioner} `{Interpolation}.





End Spline.

Section Spline_claim.
Context `{Memory} `{Calculator} `{Geometry} `{Numpy} `{Preconditioner} `{Interpolation}.



End Spline_claim.

Section Spline_runs.
#[local] Existing Instances Demo.memory Demo.free_space Demo.sideways Demo.in_order
  Demo.identity Demo.polygon.


End Spline_runs.

(** * Further properties *)

(** ** Errors of the band *)

Section Band_errors.
Context `{Memory} `{Calculator} `{Geometry} `{Numpy}.

(** [NEB.get_forces] never returns on a band of fewer than three images:
    without an interior image there is no highest image to take. *)
Theorem get_forces_needs_an_interior_image (band : NEB.t) :
  NEB.nimages band <= 2 -> exists e s', NEB.get_forces band = (Raise e, s').
Proof.
  intros Hfew. destruct (NEB.get_forces band) as [[F|e] s'] eqn:Hrun; [|eauto].
  exfalso.
  destruct (get_forces_returns _ _ _ Hrun) as (self & Hp & Hsame & _ & Hm).
  destruct (project_returns _ _ _ _ Hp)
    as (e0 & energies & raw & real & top & t1 & eql & forces
        & He0 & Hev & _ & Htop & _).
  destruct (project_evaluated _ _ _ _ He0 Hev) as [[_ Hlen] _]. cbn [fst] in Hlen.
  simpl in Hlen. rewrite Nat.mul_1_r in Hlen.
  destruct Hsame as (_ & _ & _ & Hn & _).
  assert (Hint : length (interior (data energies)) = 0).
  { rewrite interior_length. lia. }
  destruct (interior (data energies)); [|discriminate].
  discriminate.
Qed.

(** [set_positions] under dynamic relaxation with [parallel] on raises
    [ValueError] at the first interior image and moves nothing; a band
    without interior images has nothing to set and returns. *)
Theorem set_positions_refuses_parallel_relaxation (band : NEB.t) (positions : ndarray) :
  (NEB.dynamic_relaxation band = true -> NEB.parallel band = true ->
   3 <= length (NEB.images band) ->
   NEB.set_positions positions band = (Raise NEB.dynamic_relaxation_in_parallel, band))
  /\ (length (NEB.images band) <= 2 ->
      NEB.set_positions positions band = (Ok tt, band)).
Proof.
  split.
  - intros Hdyn Hpar Hlen.
    destruct (ends_split (NEB.images band)) as (first & mid & final & Himgs); [lia|].
    destruct mid as [|image mid].
    { rewrite Himgs in Hlen. simpl in Hlen. lia. }
    unfold NEB.set_positions, NEB.set_positions_with, bind, get.
    rewrite Himgs, interior_ends.
    cbn [length seq NEB.set_positions_loop]. unfold bind, get, lift.
    rewrite Hdyn, Hpar. reflexivity.
  - intros Hlen. unfold NEB.set_positions, NEB.set_positions_with, bind, get.
    pose proof (interior_length (NEB.images band)) as Hint.
    destruct (interior (NEB.images band)); [reflexivity|simpl in Hint; lia].
Qed.
End Band_errors.

(** ** Errors of [set_dofs] *)

Lemma set_dofs_reshape_fails {S} (base : S -> ChainOfStates.t) (sp : ndarray -> M S unit)
    (x : ndarray) (s : S) :
  2 <= ChainOfStates.nimages (base s) ->
  length (data x) <> 3 * ChainOfStates.natoms (base s) * (ChainOfStates.nimages (base s) - 2) ->
  ChainOfStates.set_dofs base sp x s = (Raise (ValueError "cannot reshape array"), s).
Proof.
  intros Hm Hl. unfold ChainOfStates.set_dofs, bind, get, lift.
  replace (ChainOfStates.nimages (base s) <? 2) with false
    by (symmetry; apply Nat.ltb_ge; lia).
  cbn [andb]. unfold reshape. cbn [size_of_shape fold_right].
  replace ((ChainOfStates.nimages (base s) - 2) * ChainOfStates.natoms (base s) * (3 * 1)
           =? length (data x)) with false
    by (symmetry; apply Nat.eqb_neq; lia).
  reflexivity.
Qed.

(** On a chain of at least two images, [set_dofs] of a vector that does not
    hold [3 * N * (M - 2)] numbers raises [ValueError] and changes no
    image, whatever the class of the chain and its options. *)
Theorem set_dofs_rejects_other_lengths `{Memory} `{Calculator} `{Geometry} `{Numpy}
    `{Preconditioner} `{Interpolation} (x : ndarray) :
  (forall c : ChainOfStates.t,
      2 <= ChainOfStates.nimages c ->
      length (data x) <> 3 * ChainOfStates.natoms c * (ChainOfStates.nimages c - 2) ->
      ChainOfStates.set_dofs (fun c => c) ChainOfStates.set_positions x c
      = (Raise (ValueError "cannot reshape array"), c))
  /\ (forall band : NEB.t,
         2 <= NEB.nimages band ->
         length (data x) <> 3 * NEB.natoms band * (NEB.nimages band - 2) ->
         NEB.set_dofs x band = (Raise (ValueError "cannot reshape array"), band))
  /\ (forall mep : PreconMEP.t,
         2 <= PreconMEP.nimages mep ->
         length (data x) <> 3 * PreconMEP.natoms mep * (PreconMEP.nimages mep - 2) ->
         PreconMEP.set_dofs x mep = (Raise (ValueError "cannot reshape array"), mep)).
Proof.
  split; [|split].
  - intros c Hm Hl. now apply (set_dofs_reshape_fails (fun c => c)).
  - intros band Hm Hl. now apply set_dofs_reshape_fails.
  - intros mep Hm Hl. now apply set_dofs_reshape_fails.
Qed.

(** ** The communicator of a parallel band *)

(** A parallel band over consistent images on a communicator of more than
    one process: construction raises [ZeroDivisionError] for two images,
    whose count of interior images it divides by, and [AssertionError]
    when the number of processes is no multiple of the number of interior
    images. *)
Theorem parallel_band_needs_a_fitting_world
    (imgs : list Atoms) (k : spring_constants) (fmax : float)
    (climb rrt : bool) (world : World) (method : string)
    (relax : bool) (scale_fmax : float) :
  imgs <> [] ->
  Forall Atoms.well_formed imgs ->
  consistent imgs ->
  NEB.known_method method = true ->
  relax = true \/ F64.truthy scale_fmax = false ->
  size world <> 1 ->
  let neb := NEB.__init__ imgs k fmax climb true rrt world method relax scale_fmax in
  (length imgs = 2 -> neb = Raise ZeroDivisionError)
  /\ (length imgs <> 2 ->
      (Z.of_nat (size world) mod (Z.of_nat (length imgs) - 2) <> 0)%Z ->
      neb = Raise AssertionError).
Proof.
  intros Hne Hwf Hcons Hm Hscale Hsize neb. subst neb.
  destruct imgs as [|first rest]; [congruence|].
  destruct (chain_init_consistent (first :: rest) Hwf first eq_refl) as [Hok _].
  unfold NEB.__init__. rewrite (Hok Hcons). cbn [rbind]. rewrite Hm. cbn [negb].
  assert (Hs : negb relax && F64.truthy scale_fmax = false).
  { destruct Hscale as [->| ->]; [reflexivity|apply andb_false_r]. }
  rewrite Hs. cbn [ChainOfStates.nimages]. unfold NEB.world_fits.
  destruct (Nat.eqb_spec (size world) 1) as [|_]; [contradiction|].
  split.
  - intros ->. reflexivity.
  - intros Hlen Hmod.
    destruct (Nat.eqb_spec (length (first :: rest)) 2) as [|_]; [contradiction|].
    cbn [rbind].
    destruct (Z.eqb_spec (Z.of_nat (size world) mod (Z.of_nat (length (first :: rest)) - 2)) 0);
      [contradiction|reflexivity].
Qed.

Section Error_runs.
#[local] Existing Instances Demo.memory Demo.free_space Demo.sideways Demo.in_order
  Demo.identity Demo.polygon.

Lemma get_forces_needs_an_interior_image_witness :
  exists e s',
    NEB.get_forces (Demo.band [Demo.atom 0 0 0; Demo.atom 1 0 1] "eb" false false false)
    = (Raise e, s').
Proof.
  apply (get_forces_needs_an_interior_image
           (Demo.band [Demo.atom 0 0 0; Demo.atom 1 0 1] "eb" false false false)).
  cbn. lia.
Defined.

Lemma set_positions_refuses_parallel_relaxation_witness :
  let band := NEB.mk (ChainOfStates.mk Demo.three 0 1 3) false true nan false true
                     0.5%float 0%float "aseneb" [0.5; 0.5]%float Demo.alone None None None in
  NEB.set_positions (mk_ndarray [1; 3] [5; 6; 7]%float) band
  = (Raise NEB.dynamic_relaxation_in_parallel, band).
Proof.
  intros band.
  apply (proj1 (set_positions_refuses_parallel_relaxation band
                  (mk_ndarray [1; 3] [5; 6; 7]%float))).
  - reflexivity.
  - reflexivity.
  - cbn. lia.
Defined.

Lemma set_dofs_rejects_other_lengths_witness :
  let band := Demo.band Demo.three "aseneb" false false true in
  NEB.set_dofs (mk_ndarray [4] [5; 6; 7; 8]%float) band
  = (Raise (ValueError "cannot reshape array"), band).
Proof.
  intros band.
  apply (proj1 (proj2 (set_dofs_rejects_other_lengths (mk_ndarray [4] [5; 6; 7; 8]%float)))).
  - cbn. lia.
  - cbn. lia.
Defined.

Lemma parallel_band_needs_a_fitting_world_witness :
  NEB.__init__ Demo.four (Scalar 0.5%float) 0.5%float false true false (mk_World 3 0)
               "aseneb" false 0%float
  = Raise AssertionError.
Proof.
  refine (proj2 (parallel_band_needs_a_fitting_world Demo.four (Scalar 0.5%float) 0.5%float
                   false false (mk_World 3 0) "aseneb" false 0%float _ _ _ _ _ _) _ _).
  - discriminate.
  - repeat constructor.
  - intros first [= <-]. repeat constructor.
  - reflexivity.
  - right. reflexivity.
  - cbn. lia.
  - cbn. lia.
  - cbn. lia.
Defined.
End Error_runs.

(** ** The order of [argsort] *)

Lemma npy_lt_spec (a b : float) : F64.npy_lt a b = sf_lt (Prim2SF a) (Prim2SF b).
Proof. unfold F64.npy_lt, sf_lt. now rewrite ltb_spec, !eqb_spec. Qed.

Ltac sf_order :=
  repeat match goal with
         | |- context [(?a ?= ?b)%Z] => destruct (Z.compare_spec a b); cbn
         | |- context [Pos.compare_cont Eq ?a ?b] =>
             change (Pos.compare_cont Eq a b) with (Pos.compare a b);
             destruct (Pos.compare_spec a b); cbn
         end;
  try reflexivity; try discriminate; try lia.

Lemma sf_lt_asym (x y : spec_float) : sf_lt x y = true -> sf_lt y x = false.
Proof.
  unfold sf_lt, SFltb, SFeqb, SFcompare.
  destruct x as [sx|sx| |sx mx ex], y as [sy|sy| |sy my ey];
    try destruct sx; try destruct sy; cbn; try reflexivity; try discriminate; sf_order.
Qed.

Lemma sf_lt_negtrans (x y z : spec_float) :
  sf_lt x y = false -> sf_lt y z = false -> sf_lt x z = false.
Proof.
  unfold sf_lt, SFltb, SFeqb, SFcompare.
  destruct x as [sx|sx| |sx mx ex], y as [sy|sy| |sy my ey], z as [sz|sz| |sz mz ez];
    try destruct sx; try destruct sy; try destruct sz; cbn;
    try reflexivity; try discriminate; sf_order.
Qed.

Lemma npy_lt_asym (a b : float) : F64.npy_lt a b = true -> F64.npy_lt b a = false.
Proof. rewrite !npy_lt_spec. apply sf_lt_asym. Qed.

Lemma npy_lt_negtrans (a b c : float) :
  F64.npy_lt a b = false -> F64.npy_lt b c = false -> F64.npy_lt a c = false.
Proof. rewrite !npy_lt_spec. apply sf_lt_negtrans. Qed.

Lemma sift_In (lt : nat -> nat -> bool) (vi : nat) (desc : list nat) (x : nat) :
  In x (Np.sift lt vi desc) <-> x = vi \/ In x desc.
Proof.
  induction desc as [|vk rest IH]; cbn [Np.sift].
  - simpl. intuition congruence.
  - destruct (lt vi vk); cbn [In]; [rewrite IH|]; intuition congruence.
Qed.

Lemma sift_head (v : list float) (vi : nat) (desc : list nat) :
  (forall h rest, desc = h :: rest ->
     forall x, In x desc -> F64.npy_lt (nth h v 0%float) (nth x v 0%float) = false) ->
  forall h rest,
    Np.sift (fun a b => F64.npy_lt (nth a v 0%float) (nth b v 0%float)) vi desc = h :: rest ->
    forall x, In x (h :: rest) -> F64.npy_lt (nth h v 0%float) (nth x v 0%float) = false.
Proof.
  intros Hdesc h rest Hs x Hx. rewrite <- Hs in Hx. apply sift_In in Hx.
  destruct desc as [|vk tail]; cbn [Np.sift] in Hs.
  - injection Hs as <- _. destruct Hx as [->|[]]. apply npy_lt_irrefl.
  - specialize (Hdesc vk tail eq_refl).
    destruct (F64.npy_lt (nth vi v 0%float) (nth vk v 0%float)) eqn:Hlt.
    + injection Hs as <- _. destruct Hx as [->|Hx]; [now apply npy_lt_asym|now apply Hdesc].
    + injection Hs as <- _. destruct Hx as [->|Hx]; [apply npy_lt_irrefl|].
      eapply npy_lt_negtrans; [exact Hlt|now apply Hdesc].
Qed.

Lemma argsort_desc_head (v : list float) :
  v <> [] ->
  exists top rest,
    Np.argsort_desc v = top :: rest
    /\ top < length v
    /\ forall i, i < length v -> F64.npy_lt (nth top v 0%float) (nth i v 0%float) = false.
Proof.
  intros Hne. unfold Np.argsort_desc.
  set (step := fun desc vi => Np.sift _ vi desc).
  assert (Hinv : forall k j desc,
            (forall x, In x desc <-> x < j) ->
            (forall h rest, desc = h :: rest ->
               forall x, In x desc -> F64.npy_lt (nth h v 0%float) (nth x v 0%float) = false) ->
            let out := fold_left step (seq j k) desc in
            (forall x, In x out <-> x < j + k)
            /\ (forall h rest, out = h :: rest ->
                  forall x, In x out ->
                    F64.npy_lt (nth h v 0%float) (nth x v 0%float) = false)).
  { induction k as [|k IH]; intros j desc Hin Hhead; cbn [seq fold_left].
    - split; [intros x; rewrite Hin; lia|exact Hhead].
    - replace (j + S k) with (S j + k) by lia. apply IH.
      + intros x. unfold step. rewrite sift_In, Hin. lia.
      + intros h rest Hs x Hx. rewrite Hs in Hx.
        exact (sift_head v j desc Hhead h rest Hs x Hx). }
  destruct (Hinv (length v) 0 []) as [Hin Hhead].
  { intros x. simpl. lia. }
  { discriminate. }
  cbn [Nat.add] in Hin.
  destruct (fold_left step (seq 0 (length v)) []) as [|top rest] eqn:Hout.
  - destruct v as [|e v]; [congruence|]. specialize (proj2 (Hin 0)). simpl. lia.
  - exists top, rest. split; [reflexivity|]. split.
    + apply Hin. now left.
    + intros i Hi. apply (Hhead top rest eq_refl). now apply Hin.
Qed.

Section Highest_energy.
Context `{Memory} `{Calculator} `{Geometry} `{Numpy}.

(** After a [get_forces] that returns on a band of at most 16 interior
    images, [get_potential_energy] is the energy of the interior image
    [imax], and no interior energy comes after it in NumPy's order, in
    which NaN is the highest: none is greater. *)
Theorem potential_energy_is_the_highest (band band' : NEB.t) (F : ndarray) :
  NEB.get_forces band = (Ok F, band') ->
  NEB.nimages band - 2 <= 16 ->
  exists energies imax,
    NEB.energies band' = Some energies
    /\ NEB.imax band' = Some imax
    /\ 1 <= imax <= NEB.nimages band - 2
    /\ NEB.get_potential_energy band' = item energies imax
    /\ forall i, 1 <= i <= NEB.nimages band - 2 ->
         F64.npy_lt (item energies imax) (item energies i) = false
         /\ (item energies imax <? item energies i)%float = false.
Proof.
  intros Hrun Hshort.
  destruct (get_forces_returns _ _ _ Hrun) as (self & Hp & Hsame & _ & Hm).
  destruct (project_returns _ _ _ _ Hp)
    as (e0 & energies & raw & real & top & t1 & eql & forces
        & He0 & Hev & _ & Htop & _ & _ & _ & _ & ->).
  destruct (project_evaluated _ _ _ _ He0 Hev) as [[_ Hlen] _]. cbn [fst] in Hlen.
  simpl in Hlen. rewrite Nat.mul_1_r in Hlen.
  destruct Hsame as (_ & _ & _ & Hn & _).
  assert (Hint : length (interior (data energies)) = NEB.nimages self - 2).
  { rewrite interior_length. lia. }
  unfold Np.argsort in Htop.
  destruct (Nat.leb_spec (length (interior (data energies))) 16); [|lia].
  destruct (interior (data energies)) as [|e es] eqn:Hv; [discriminate|].
  destruct (argsort_desc_head (e :: es)) as (top' & rest & Hsort & Hlt & Hhigh);
    [discriminate|].
  rewrite Hsort in Htop. cbn [rev] in Htop. rewrite getitem_last_app in Htop.
  injection Htop as <-.
  exists energies, (1 + top'). split; [reflexivity|]. split; [reflexivity|].
  split; [lia|]. split; [reflexivity|].
  intros i Hi.
  assert (Hnp : F64.npy_lt (item energies (1 + top')) (item energies i) = false).
  { specialize (Hhigh (i - 1) ltac:(lia)). rewrite <- Hv in Hhigh.
    rewrite !interior_nth in Hhigh by lia.
    unfold item. now replace (S (i - 1)) with i in Hhigh by lia. }
  split; [exact Hnp|]. unfold F64.npy_lt in Hnp. now apply orb_false_elim in Hnp.
Qed.
End Highest_energy.

Section Highest_energy_runs.
#[local] Existing Instances Demo.memory Demo.free_space Demo.sideways Demo.in_order.

Lemma potential_energy_is_the_highest_witness :
  exists energies imax,
    NEB.energies (snd (NEB.get_forces (Demo.band Demo.four "eb" false false false)))
    = Some energies
    /\ NEB.imax (snd (NEB.get_forces (Demo.band Demo.four "eb" false false false)))
       = Some imax
    /\ NEB.get_potential_energy
         (snd (NEB.get_forces (Demo.band Demo.four "eb" false false false)))
       = item energies imax.
Proof.
  destruct (potential_energy_is_the_highest
              (Demo.band Demo.four "eb" false false false)
              (snd (NEB.get_forces (Demo.band Demo.four "eb" false false false)))
              (mk_ndarray [2; 3] [0; 0.125; 0; 0; 0.25; 0]%float))
    as (energies & imax & He & Hi & _ & Hpot & _).
  - vm_compute. reflexivity.
  - cbn. lia.
  - exists energies, imax. split; [exact He|]. split; [exact Hi|exact Hpot].
Defined.
End Highest_energy_runs.

(** ** Linear interpolation *)

Lemma place_length (pos1 d : ndarray) (j : nat) (l : list Atoms) :
  length (place pos1 d j l) = length l.
Proof. revert j; induction l; simpl; auto. Qed.

Lemma same_layout_scaled (a d : ndarray) (x : float) :
  same_layout a (Np.s_mul x d) = same_layout a d.
Proof. unfold same_layout, Np.s_mul, amap. cbn [shape data]. now rewrite length_map. Qed.

Lemma interpolate_loop_places (pos1 d : ndarray) (first final : Atoms) :
  same_layout pos1 d = true ->
  forall (todo pre : list Atoms),
  Forall (fun img => shape (positions img) = shape pos1) todo ->
  interpolate_loop pos1 d (seq (S (length pre)) (length todo))
    (first :: (pre ++ todo) ++ [final])
  = (Ok tt, first :: (pre ++ place pos1 d (S (length pre)) todo) ++ [final]).
Proof.
  intros Hlay. induction todo as [|x todo IH]; intros pre Hshape; [reflexivity|].
  cbn [length seq interpolate_loop].
  unfold bind at 1. unfold get at 1.
  unfold bind at 1. unfold lift at 1. unfold getitem. cbn [nth_error].
  rewrite <- app_assoc. cbn [app]. rewrite nth_error_middle.
  unfold bind at 1. unfold lift at 1.
  unfold Np.add, amap2.
  rewrite same_layout_scaled, Hlay.
  unfold bind at 1. unfold lift at 1.
  inversion Hshape as [|? ? Hx Htodo]; subst.
  unfold Atoms.set_positions. cbn [shape]. rewrite Hx, shape_eqb_refl.
  unfold bind at 1. unfold modify at 1.
  cbn [list_update]. rewrite (list_update_app pre x _ (todo ++ [final])).
  specialize (IH (pre ++ [Atoms.with_positions (point pos1 d (S (length pre))) x]) Htodo).
  rewrite length_app in IH. cbn [length] in IH.
  replace (length pre + 1) with (S (length pre)) in IH by lia.
  rewrite <- !app_assoc in IH. cbn [app] in IH. rewrite <- !app_assoc.
  exact IH.
Qed.

Lemma same_atoms_refl (a : Atoms) : same_atoms a a.
Proof. repeat split. Qed.

Lemma same_atoms_trans (a b c : Atoms) : same_atoms a b -> same_atoms b c -> same_atoms a c.
Proof. intros (A1 & A2 & A3 & A4) (B1 & B2 & B3 & B4). repeat split; congruence. Qed.

Lemma same_atoms_all_refl (l : list Atoms) : Forall2 same_atoms l l.
Proof. induction l; constructor; auto using same_atoms_refl. Qed.

Lemma same_atoms_all_trans (l1 l2 l3 : list Atoms) :
  Forall2 same_atoms l1 l2 -> Forall2 same_atoms l2 l3 -> Forall2 same_atoms l1 l3.
Proof.
  intros H12. revert l3. induction H12 as [|a b l1 l2 Hab _ IH]; intros l3 H23;
    inversion H23; subst; constructor; eauto using same_atoms_trans.
Qed.

Lemma same_atoms_update (l : list Atoms) (i : nat) (a a' : Atoms) :
  nth_error l i = Some a -> same_atoms a a' -> Forall2 same_atoms l (list_update l i a').
Proof.
  revert i. induction l as [|h t IH]; intros [|i] Hi Ha; simpl in *; try discriminate.
  - injection Hi as ->. constructor; [exact Ha|apply same_atoms_all_refl].
  - constructor; [apply same_atoms_refl|eauto].
Qed.

Lemma same_line_ends_refl (l : list Atoms) : same_line_ends l l.
Proof. repeat split. apply same_atoms_all_refl. Qed.

Lemma same_line_ends_trans (l1 l2 l3 : list Atoms) :
  same_line_ends l1 l2 -> same_line_ends l2 l3 -> same_line_ends l1 l3.
Proof.
  intros (A1 & A2 & A3 & A4) (B1 & B2 & B3 & B4).
  repeat split; try congruence. eapply same_atoms_all_trans; eassumption.
Qed.

Lemma set_positions_same_atoms (a a' : Atoms) (p : ndarray) :
  Atoms.set_positions a p = Ok a' -> same_atoms a a'.
Proof.
  unfold Atoms.set_positions. destruct (shape_eqb _ _); [|discriminate].
  intros [= <-]. repeat split.
Qed.

Lemma interpolate_loop_ends (pos1 d : ndarray) (idx : list nat) :
  forall (l : list Atoms) (r : result unit) (l' : list Atoms),
  Forall (fun i => 1 <= i /\ i + 1 < length l) idx ->
  interpolate_loop pos1 d idx l = (r, l') -> same_line_ends l l'.
Proof.
  induction idx as [|i idx IH]; intros l r l' Hidx; cbn [interpolate_loop].
  - intros [= _ <-]. apply same_line_ends_refl.
  - inversion Hidx as [|? ? [Hlo Hhi] Hrest]; subst.
    unfold bind at 1. unfold get at 1.
    unfold bind at 1. unfold lift at 1. unfold getitem at 1.
    destruct (nth_error l i) as [image|] eqn:Hi;
      [|intros [= _ <-]; apply same_line_ends_refl].
    unfold bind at 1. unfold lift at 1.
    destruct (Np.add _ _) as [p|]; [|intros [= _ <-]; apply same_line_ends_refl].
    unfold bind at 1. unfold lift at 1.
    destruct (Atoms.set_positions image p) as [image'|] eqn:Hset;
      [|intros [= _ <-]; apply same_line_ends_refl].
    unfold bind at 1. unfold modify at 1. intros Hloop.
    eapply same_line_ends_trans; [|eapply IH; [|exact Hloop]].
    + split; [apply list_update_length|]. split; [now apply nth_error_list_update_0|].
      split; [now apply getitem_last_list_update|].
      eapply same_atoms_update; [exact Hi|]. eapply set_positions_same_atoms; exact Hset.
    + rewrite list_update_length. exact Hrest.
Qed.

Lemma interpolate_loop_returns (pos1 d : ndarray) (first final : Atoms) :
  forall (todo pre : list Atoms) (l' : list Atoms),
  interpolate_loop pos1 d (seq (S (length pre)) (length todo))
    (first :: (pre ++ todo) ++ [final]) = (Ok tt, l') ->
  (todo <> [] -> same_layout pos1 d = true)
  /\ Forall (fun img => shape (positions img) = shape pos1) todo.
Proof.
  induction todo as [|x todo IH]; intros pre l'; [split; [congruence|constructor]|].
  cbn [length seq interpolate_loop].
  unfold bind at 1. unfold get at 1.
  unfold bind at 1. unfold lift at 1. unfold getitem. cbn [nth_error].
  rewrite <- app_assoc. cbn [app]. rewrite nth_error_middle.
  unfold bind at 1. unfold lift at 1.
  unfold Np.add, amap2. rewrite same_layout_scaled.
  destruct (same_layout pos1 d) eqn:Hlay; [|discriminate].
  unfold bind at 1. unfold lift at 1.
  unfold Atoms.set_positions. cbn [shape].
  destruct (shape_eqb (shape pos1) (shape (positions x))) eqn:Hx; [|discriminate].
  apply shape_eqb_eq in Hx.
  unfold bind at 1. unfold modify at 1.
  cbn [list_update]. rewrite (list_update_app pre x _ (todo ++ [final])).
  intros Hloop.
  set (x' := Atoms.with_positions _ x) in Hloop.
  specialize (IH (pre ++ [x']) l').
  rewrite length_app in IH. cbn [length] in IH.
  replace (length pre + 1) with (S (length pre)) in IH by lia.
  rewrite <- !app_assoc in IH. cbn [app] in IH.
  destruct (IH Hloop) as [_ Htodo].
  split; [reflexivity|]. constructor; [now symmetry|exact Htodo].
Qed.

Lemma place_shapes (pos1 d : ndarray) (j : nat) (l : list Atoms) :
  Forall (fun img => shape (positions img) = shape pos1) (place pos1 d j l).
Proof. revert j; induction l; intros j; simpl; constructor; auto. Qed.

Lemma place_twice (pos1 d : ndarray) (j : nat) (l : list Atoms) :
  place pos1 d j (place pos1 d j l) = place pos1 d j l.
Proof. revert j; induction l as [|a l IH]; intros j; simpl; [reflexivity|]. now rewrite IH. Qed.

Lemma getitem_last_ends {A} (first : A) (mid : list A) (final : A) :
  getitem_last (first :: mid ++ [final]) = Ok final.
Proof. apply (getitem_last_app (first :: mid) final). Qed.

Section Line.
Context `{Geometry}.

Lemma interpolation_line_ends (mic : bool) (first final : Atoms) (mid mid' : list Atoms) :
  length mid' = length mid ->
  interpolation_line mic (first :: mid' ++ [final])
  = interpolation_line mic (first :: mid ++ [final]).
Proof.
  intros Hl. unfold interpolation_line.
  rewrite !getitem_last_ends. cbn [getitem nth_error length].
  now rewrite !length_app, Hl.
Qed.

Lemma interpolate_same_line_ends (mic : bool) (images : list Atoms) (r : result unit)
    (images' : list Atoms) :
  interpolate mic images = (r, images') -> same_line_ends images images'.
Proof.
  unfold interpolate. unfold bind at 1. unfold get at 1.
  unfold bind at 1. unfold lift at 1.
  destruct (interpolation_line mic images) as [line|];
    [|intros [= _ <-]; apply same_line_ends_refl].
  apply interpolate_loop_ends. apply Forall_forall. intros i Hi.
  apply in_seq in Hi. lia.
Qed.

(** [interpolate] changes neither the number of the images nor the first
    or the last of them, and of the others nothing but the positions,
    when it returns and when it raises on the way; of one or two images it
    changes nothing, and on an empty list it raises [IndexError]. *)
Theorem interpolate_keeps_the_ends (mic : bool) (images : list Atoms) (r : result unit)
    (images' : list Atoms) :
  interpolate mic images = (r, images') ->
  same_line_ends images images'
  /\ (length images <= 2 -> images' = images)
  /\ (images = [] -> r = Raise IndexError).
Proof.
  intros Hrun. split; [eapply interpolate_same_line_ends; exact Hrun|]. split.
  - intros Hfew. revert Hrun. unfold interpolate, bind, get, lift.
    replace (length images - 2) with 0 by lia.
    destruct (interpolation_line mic images); cbn [seq interpolate_loop];
      now intros [= _ <-].
  - intros ->. now injection Hrun as <- _.
Qed.

Lemma interpolate_on_line (mic : bool) (first final : Atoms)
    (mid : list Atoms) (pos1 d : ndarray) :
  interpolation_line mic (first :: mid ++ [final]) = Ok (pos1, d) ->
  same_layout pos1 d = true ->
  Forall (fun img => shape (positions img) = shape pos1) mid ->
  interpolate mic (first :: mid ++ [final])
  = (Ok tt, first :: place pos1 d 1 mid ++ [final]).
Proof.
  intros Hline Hlay Hshape. unfold interpolate. unfold bind at 1. unfold get at 1.
  unfold bind at 1. unfold lift at 1. rewrite Hline. cbn [fst snd].
  replace (length (first :: mid ++ [final]) - 2) with (length mid)
    by (cbn [length]; rewrite length_app; simpl; lia).
  exact (interpolate_loop_places pos1 d first final Hlay mid [] Hshape).
Qed.

Lemma straight_line (first final : Atoms) (mid : list Atoms) :
  same_layout (positions final) (positions first) = true ->
  interpolation_line false (first :: mid ++ [final])
  = Ok (positions first, straight_step first final (S (S (length mid))))
  /\ same_layout (positions first) (straight_step first final (S (S (length mid)))) = true.
Proof.
  intros Hlay. unfold interpolation_line.
  rewrite getitem_last_ends. cbn [getitem nth_error rbind].
  unfold Atoms.get_positions, Np.sub, amap2. rewrite Hlay. cbn [rbind].
  replace (length (first :: mid ++ [final])) with (S (S (length mid)))
    by (cbn [length]; rewrite length_app; simpl; lia).
  split; [reflexivity|].
  unfold same_layout in *. apply andb_prop in Hlay as [Hs Hl].
  apply shape_eqb_eq in Hs. apply Nat.eqb_eq in Hl.
  unfold straight_step, Np.div_s, amap. cbn [shape data].
  rewrite Hs, shape_eqb_refl, length_map, map2_length by assumption.
  cbn [andb]. apply Nat.eqb_eq. now symmetry.
Qed.

(** When the step [d] has the layout of [pos1] and the inner images have
    the shape of [pos1], [interpolate] returns and has put inner image [i]
    at [pos1 + i * d].  Without [mic] the step is the difference of the
    last and the first positions over [M - 1], and it has that layout when
    the last positions have the layout of the first. *)
Theorem interpolate_places_images_on_the_line (first final : Atoms) (mid : list Atoms) :
  (forall mic pos1 d,
     interpolation_line mic (first :: mid ++ [final]) = Ok (pos1, d) ->
     same_layout pos1 d = true ->
     Forall (fun img => shape (positions img) = shape pos1) mid ->
     interpolate mic (first :: mid ++ [final])
     = (Ok tt, first :: place pos1 d 1 mid ++ [final]))
  /\ (same_layout (positions final) (positions first) = true ->
      Forall (fun img => shape (positions img) = shape (positions first)) mid ->
      interpolate false (first :: mid ++ [final])
      = (Ok tt,
         first :: place (positions first) (straight_step first final (S (S (length mid))))
                        1 mid ++ [final])).
Proof.
  split.
  - intros mic pos1 d. apply interpolate_on_line.
  - intros Hlay Hshape. destruct (straight_line first final mid Hlay) as [Hline Hstep].
    now apply interpolate_on_line.
Qed.

(** A second [interpolate] changes nothing: the images a returning
    [interpolate] leaves are those it leaves when it is run on them
    again. *)
Theorem interpolate_twice (mic : bool) (images images' : list Atoms) :
  interpolate mic images = (Ok tt, images') ->
  interpolate mic images' = (Ok tt, images').
Proof.
  intros Hrun. destruct images as [|first rest]; [discriminate|].
  destruct rest as [|second rest].
  { revert Hrun. unfold interpolate, bind, get, lift.
    destruct (interpolation_line mic [first]) eqn:Hline; [|discriminate].
    cbn [length Nat.sub seq interpolate_loop]. unfold ret. intros [= <-].
    now rewrite Hline. }
  destruct (ends_split (first :: second :: rest)) as (f & mid & final & Himgs);
    [simpl; lia|].
  rewrite Himgs in *. clear Himgs.
  pose proof Hrun as Hrun'. revert Hrun'.
  unfold interpolate. unfold bind at 1. unfold get at 1.
  unfold bind at 1. unfold lift at 1.
  destruct (interpolation_line mic (f :: mid ++ [final])) as [[pos1 d]|] eqn:Hline;
    [|discriminate].
  cbn [fst snd].
  replace (length (f :: mid ++ [final]) - 2) with (length mid)
    by (cbn [length]; rewrite length_app; simpl; lia).
  intros Hloop.
  destruct (interpolate_loop_returns pos1 d f final mid [] images' Hloop) as [Hlay Hshape].
  destruct mid as [|x mid].
  { cbn in Hloop. injection Hloop as <-. exact Hrun. }
  specialize (Hlay ltac:(discriminate)).
  rewrite (interpolate_on_line mic f final (x :: mid) pos1 d Hline Hlay Hshape) in Hrun.
  injection Hrun as <-.
  pose proof (interpolate_on_line mic f final (place pos1 d 1 (x :: mid)) pos1 d)
    as Hagain.
  rewrite place_twice in Hagain. apply Hagain.
  - rewrite <- Hline. apply interpolation_line_ends. apply place_length.
  - exact Hlay.
  - apply place_shapes.
Qed.
End Line.

Section Line_runs.
#[local] Existing Instances Demo.free_space.

Lemma interpolate_keeps_the_ends_witness :
  same_line_ends [Demo.atom 0 0 0; Demo.atom 5 5 1; Demo.atom 2 0 2]
                 [Demo.atom 0 0 0; Demo.atom 1 0 1; Demo.atom 2 0 2].
Proof.
  apply (interpolate_keeps_the_ends false
           [Demo.atom 0 0 0; Demo.atom 5 5 1; Demo.atom 2 0 2] (Ok tt)).
  vm_compute. reflexivity.
Defined.

Lemma interpolate_places_images_on_the_line_witness :
  interpolate false [Demo.atom 0 0 0; Demo.atom 5 5 1; Demo.atom 7 7 2; Demo.atom 3 0 3]
  = (Ok tt, [Demo.atom 0 0 0; Demo.atom 1 0 1; Demo.atom 2 0 2; Demo.atom 3 0 3]).
Proof.
  apply (proj2 (interpolate_places_images_on_the_line (Demo.atom 0 0 0) (Demo.atom 3 0 3)
                  [Demo.atom 5 5 1; Demo.atom 7 7 2])).
  - reflexivity.
  - repeat constructor.
Defined.

Lemma interpolate_twice_witness :
  interpolate false [Demo.atom 0 0 0; Demo.atom 1 0 1; Demo.atom 2 0 2]
  = (Ok tt, [Demo.atom 0 0 0; Demo.atom 1 0 1; Demo.atom 2 0 2]).
Proof.
  apply (interpolate_twice false [Demo.atom 0 0 0; Demo.atom 5 5 1; Demo.atom 2 0 2]).
  vm_compute. reflexivity.
Defined.
End Line_runs.

Lemma list_update_last {A} (l : list A) (x y : A) :
  list_update (l ++ [x]) (length l) y = l ++ [y].
Proof. apply (list_update_app l x y []). Qed.

Section Band_line.
Context `{Geometry} `{Initializer}.

(** [NEB.interpolate] by a method other than ['idpp'], on a band of at
    least two images: returning or raising, it keeps the number of images
    and the first image; the last image stays when
    [remove_rotation_and_translation] is off and is replaced by its
    alignment onto the first image when it is on; and the options of the
    band stay. *)
Theorem neb_interpolate_aligns_the_last_image (method : string) (mic : bool) (band : NEB.t)
    (first final : Atoms) (mid : list Atoms) (r : result unit) (band' : NEB.t) :
  NEB.images band = first :: mid ++ [final] ->
  method <> "idpp"%string ->
  neb_interpolate method mic band = (r, band') ->
  length (NEB.images band') = length (NEB.images band)
  /\ nth_error (NEB.images band') 0 = Some first
  /\ getitem_last (NEB.images band')
     = Ok (if NEB.remove_rotation_and_translation band
           then minimize_rotation_and_translation first final
           else final)
  /\ same_options band band'.
Proof.
  intros Himgs Hm. apply String.eqb_neq in Hm.
  unfold neb_interpolate. unfold bind at 1. unfold get at 1.
  set (final' := if NEB.remove_rotation_and_translation band
                 then minimize_rotation_and_translation first final else final).
  assert (Hstage : exists mid_band,
            (if NEB.remove_rotation_and_translation band
             then first0 <- lift (getitem (NEB.images band) 0) ;;
                  final0 <- lift (getitem_last (NEB.images band)) ;;
                  modify (NEB.set_image (length (NEB.images band) - 1)
                            (minimize_rotation_and_translation first0 final0))
             else ret tt) band = (Ok tt, mid_band)
            /\ NEB.images mid_band = first :: mid ++ [final']
            /\ same_options band mid_band).
  { subst final'. destruct (NEB.remove_rotation_and_translation band).
    - eexists. unfold bind, lift, modify. rewrite Himgs, getitem_last_ends.
      cbn [getitem nth_error]. split; [reflexivity|]. split.
      + unfold NEB.set_image, NEB.images, ChainOfStates.set_image.
        cbn [NEB.base NEB.with_base ChainOfStates.images ChainOfStates.with_images].
        fold (NEB.images band). rewrite Himgs.
        replace (length (first :: mid ++ [final]) - 1) with (S (length mid))
          by (cbn [length]; rewrite length_app; simpl; lia).
        cbn [list_update]. now rewrite list_update_last.
      + repeat split.
    - exists band. split; [reflexivity|]. split; [exact Himgs|apply same_options_refl]. }
  destruct Hstage as (mid_band & Hrun1 & Himgs1 & Hopt1).
  unfold bind at 1. rewrite Hrun1.
  unfold chain_interpolate. rewrite Hm. unfold bind at 1.
  unfold on_images, zoom.
  destruct (interpolate mic (NEB.images mid_band)) as [r1 l1] eqn:Hline.
  pose proof (interpolate_same_line_ends mic _ _ _ Hline) as (Hlen & Hfirst & Hlast & _).
  intros Hout.
  assert (Hband' : NEB.images band' = l1 /\ same_options mid_band band').
  { destruct r1 as [[]|e]; injection Hout as _ <-; split; try reflexivity; repeat split. }
  destruct Hband' as [-> Hopt2].
  rewrite Himgs1 in Hlen, Hfirst, Hlast. rewrite Himgs.
  split; [rewrite Hlen; cbn [length]; now rewrite !length_app|].
  split; [exact Hfirst|]. split; [now rewrite Hlast, getitem_last_ends|].
  eapply same_options_trans; eassumption.
Qed.
End Band_line.

Section Band_line_runs.
#[local] Existing Instances Demo.free_space idle.

Lemma neb_interpolate_aligns_the_last_image_witness :
  getitem_last
    (NEB.images
       (snd (neb_interpolate "linear" false
               (Demo.band [Demo.atom 0 0 0; Demo.atom 5 5 1; Demo.atom 2 0 2]
                          "aseneb" false true false))))
  = Ok (minimize_rotation_and_translation (Demo.atom 0 0 0) (Demo.atom 2 0 2)).
Proof.
  refine (proj1 (proj2 (proj2
            (neb_interpolate_aligns_the_last_image "linear" false
               (Demo.band [Demo.atom 0 0 0; Demo.atom 5 5 1; Demo.atom 2 0 2]
                          "aseneb" false true false)
               (Demo.atom 0 0 0) (Demo.atom 2 0 2) [Demo.atom 5 5 1]
               (fst (neb_interpolate "linear" false
                       (Demo.band [Demo.atom 0 0 0; Demo.atom 5 5 1; Demo.atom 2 0 2]
                                  "aseneb" false true false)))
               _ _ _ _)))).
  - reflexivity.
  - discriminate.
  - apply surjective_pairing.
Defined.
End Band_line_runs.

(** ** NEBTools *)

Section Guess.
Context `{Calculator}.
Variable images : list Atoms.
Variable E : nat -> float.
Hypothesis energies : forall i, i < length images -> energy_of images i = Ok (E i).

Lemma skipn_cons_nth (index : nat) :
  index < length images ->
  exists image, skipn index images = image :: skipn (S index) images
                /\ Atoms.get_potential_energy image = Ok (E index).
Proof.
  intros Hi. pose proof (energies index Hi) as He. unfold energy_of, getitem in He.
  destruct (nth_error images index) as [image|] eqn:Hn; [|discriminate].
  exists image. split; [|exact He].
  clear He energies. revert index Hi Hn.
  induction images as [|h t IH]; intros [|i] Hi Hn; simpl in *; try lia.
  - now injection Hn as ->.
  - apply IH; [lia|exact Hn].
Qed.

Lemma energy_of_beyond (i : nat) : length images <= i -> energy_of images i = Raise IndexError.
Proof.
  intros Hi. unfold energy_of, getitem.
  now rewrite (proj2 (nth_error_None images i) Hi).
Qed.

Lemma first_repeat_skips (k index : nat) :
  (forall i, index <= i < index + k -> (E i =? E 0)%float = false) ->
  index + k <= length images ->
  first_repeat images (E 0) (skipn index images) index
  = first_repeat images (E 0) (skipn (index + k) images) (index + k).
Proof.
  revert index. induction k as [|k IH]; intros index Hne Hlen.
  - now rewrite Nat.add_0_r.
  - destruct (skipn_cons_nth index ltac:(lia)) as (image & -> & He).
    cbn [first_repeat]. rewrite He. cbn [rbind]. rewrite Hne by lia.
    rewrite IH; [f_equal; [f_equal|]; lia| |lia].
    intros i Hi. apply Hne. lia.
Qed.

Lemma first_repeat_none (index : nat) :
  (forall i, index <= i < length images -> (E i =? E 0)%float = false) ->
  index <= length images ->
  first_repeat images (E 0) (skipn index images) index = Ok None.
Proof.
  intros Hne Hlen.
  rewrite (first_repeat_skips (length images - index) index).
  - replace (index + (length images - index)) with (length images) by lia.
    now rewrite skipn_all.
  - intros i Hi. apply Hne. lia.
  - lia.
Qed.

Lemma first_repeat_hit (j : nat) :
  1 <= j < length images ->
  (forall i, 1 <= i < j -> (E i =? E 0)%float = false) ->
  (E j =? E 0)%float = true ->
  first_repeat images (E 0) (tl images) 1
  = if (S j <? length images)
    then Ok (Some (if (E (S j) =? E 0)%float then j + 1 else j))
    else Ok (Some j).
Proof.
  intros Hj Hne Hhit.
  change (tl images) with (skipn 1 images).
  rewrite (first_repeat_skips (j - 1) 1) by (try lia; intros; apply Hne; lia).
  replace (1 + (j - 1)) with j by lia.
  destruct (skipn_cons_nth j ltac:(lia)) as (image & -> & He).
  cbn [first_repeat]. rewrite He. cbn [rbind]. rewrite Hhit.
  replace (j + 1) with (S j) by lia.
  destruct (Nat.ltb_spec (S j) (length images)) as [Hin|Hout].
  - rewrite (energies (S j) Hin). now destruct (E (S j) =? E 0)%float.
  - now rewrite energy_of_beyond.
Qed.

(** A trajectory of at least two bands of [n >= 2] images each: when no
    inner image of the first band has the energy of image 0, the second
    band begins with that energy, the last images of the two bands have
    one energy, and the first band either ends with the energy of image
    0 (the symmetric case) or neither it nor image 1 of the second band
    has it, [_guess_nimages] returns [n]. *)
Theorem guess_nimages_of_repeated_bands (n : nat) :
  2 <= n -> 2 * n <= length images ->
  (forall i, 1 <= i < n - 1 -> (E i =? E 0)%float = false) ->
  (E n =? E 0)%float = true ->
  (E (n - 1) =? E (2 * n - 1))%float = true ->
  (E (n - 1) =? E 0)%float = true
  \/ ((E (n - 1) =? E 0)%float = false /\ (E (n + 1) =? E 0)%float = false) ->
  _guess_nimages images = Ok (n, guessed n).
Proof.
  intros Hn Hlen Hinner Hsecond Hlast Hcase. unfold _guess_nimages.
  rewrite (energies 0) by lia. cbn [rbind].
  assert (Hfound : first_repeat images (E 0) (tl images) 1 = Ok (Some n)).
  { destruct Hcase as [Hsym|[Hasym Hnext]].
    - rewrite (first_repeat_hit (n - 1)) by (auto; lia).
      replace (S (n - 1)) with n by lia.
      destruct (Nat.ltb_spec n (length images)); [|lia].
      rewrite Hsecond. do 2 f_equal. lia.
    - rewrite (first_repeat_hit n); try lia; auto.
      + destruct (Nat.ltb_spec (S n) (length images)); [|lia].
        replace (S n) with (n + 1) by lia. now rewrite Hnext.
      + intros i Hi. destruct (Nat.eq_dec i (n - 1)) as [->|]; [exact Hasym|].
        apply Hinner. lia. }
  rewrite Hfound. cbn [rbind].
  rewrite (energies (n - 1)), (energies (2 * n - 1)) by lia. cbn [rbind].
  now rewrite Hlast.
Qed.

(** When no later image has the energy of image 0, [_guess_nimages]
    takes the images for one band: it returns their number. *)
Theorem guess_nimages_of_one_band :
  images <> [] ->
  (forall i, 1 <= i < length images -> (E i =? E 0)%float = false) ->
  _guess_nimages images = Ok (length images, one_band).
Proof.
  intros Hne Hall. unfold _guess_nimages.
  rewrite (energies 0) by (destruct images; [congruence|simpl; lia]). cbn [rbind].
  change (tl images) with (skipn 1 images).
  rewrite first_repeat_none; [reflexivity|exact Hall|].
  destruct images; [congruence|simpl; lia].
Qed.

(** One band of at least three images whose last image has the energy
    of the first, and no image between them: [_guess_nimages] breaks with
    one image less than there are, and raises [IndexError] when it looks
    for the last image of a second band. *)
Theorem guess_nimages_of_one_symmetric_band :
  3 <= length images ->
  (forall i, 1 <= i < length images - 1 -> (E i =? E 0)%float = false) ->
  (E (length images - 1) =? E 0)%float = true ->
  _guess_nimages images = Raise IndexError.
Proof.
  intros Hlen Hinner Hlast. unfold _guess_nimages.
  rewrite (energies 0) by lia. cbn [rbind].
  rewrite (first_repeat_hit (length images - 1)) by (auto; lia).
  destruct (Nat.ltb_spec (S (length images - 1)) (length images)); [lia|].
  cbn [rbind]. rewrite (energies (length images - 1 - 1)) by lia. cbn [rbind].
  now rewrite energy_of_beyond by lia.
Qed.
End Guess.

Section Guess_runs.
#[local] Existing Instances by_height.

Ltac each_image :=
  intros i Hi;
  repeat (destruct i as [|i]; [reflexivity|]);
  simpl in Hi; lia.

Lemma guess_nimages_of_repeated_bands_witness :
  _guess_nimages two_bands = Ok (3, guessed 3).
Proof.
  apply (guess_nimages_of_repeated_bands two_bands
           (fun i => nth i [0; 2; 1; 0; 3; 1]%float 0%float)).
  - each_image.
  - lia.
  - simpl. lia.
  - intros i Hi. assert (i = 1) as -> by lia. reflexivity.
  - reflexivity.
  - reflexivity.
  - right. split; reflexivity.
Defined.

Lemma guess_nimages_of_one_band_witness :
  _guess_nimages rising_band = Ok (3, one_band).
Proof.
  apply (guess_nimages_of_one_band rising_band
           (fun i => nth i [0; 2; 1]%float 0%float)).
  - each_image.
  - discriminate.
  - intros i Hi. simpl in Hi.
    assert (Hc : i = 1 \/ i = 2) by lia. destruct Hc as [-> | ->]; reflexivity.
Defined.

Lemma guess_nimages_of_one_symmetric_band_witness :
  _guess_nimages level_band = Raise IndexError.
Proof.
  apply (guess_nimages_of_one_symmetric_band level_band
           (fun i => nth i [0; 2; 0]%float 0%float)).
  - each_image.
  - simpl. lia.
  - intros i Hi. simpl in Hi. assert (i = 1) as -> by lia. reflexivity.
  - reflexivity.
Defined.
End Guess_runs.

(** ** The climbing image *)

Section Climber.
Context `{Memory} `{Calculator} `{Geometry} `{Numpy}.

Lemma imax_is_interior (band band' : NEB.t) (F : ndarray) :
  NEB.get_forces band = (Ok F, band') ->
  NEB.nimages band - 2 <= 16 ->
  exists imax, NEB.imax band' = Some imax /\ 1 <= imax <= NEB.nimages band - 2.
Proof.
  intros Hrun Hshort.
  destruct (get_forces_returns _ _ _ Hrun) as (self & Hp & Hsame & _ & Hm).
  destruct (project_returns _ _ _ _ Hp)
    as (e0 & energies & raw & real & top & t1 & eql & forces
        & He0 & Hev & _ & Htop & _ & _ & _ & _ & ->).
  destruct (project_evaluated _ _ _ _ He0 Hev) as [[_ Hlen] _]. cbn [fst] in Hlen.
  simpl in Hlen. rewrite Nat.mul_1_r in Hlen.
  destruct Hsame as (_ & _ & _ & Hn & _).
  assert (Hint : length (interior (data energies)) = NEB.nimages self - 2).
  { rewrite interior_length. lia. }
  unfold Np.argsort in Htop.
  destruct (Nat.leb_spec (length (interior (data energies))) 16); [|lia].
  destruct (interior (data energies)) as [|e es] eqn:Hv; [discriminate|].
  destruct (argsort_desc_head (e :: es)) as (top' & rest & Hsort & Hlt & _);
    [discriminate|].
  rewrite Hsort in Htop. cbn [rev] in Htop. rewrite getitem_last_app in Htop.
  injection Htop as <-.
  exists (1 + top'). split; [reflexivity|]. lia.
Qed.

Lemma nudged_force_of_climber (self : NEB.t) (energies raw : ndarray) (imax : nat)
    (eqlength : float) :
  NEB.climb self = true ->
  nudged_force self energies imax eqlength raw imax
  = climbing_force self energies imax raw imax.
Proof.
  intros Hc. unfold nudged_force, climbing_force.
  destruct (NEB.spring_direction self (imax - 1)) as [t1|]; [|reflexivity].
  destruct (NEB.spring_direction self imax) as [t2|]; [|reflexivity].
  cbn [rbind].
  destruct (NEB.tangent_of _ _ _ _ _ _ _ _) as [tangent|]; [|reflexivity].
  cbn [rbind].
  destruct (getitem0 raw (imax - 1)) as [f|]; [|reflexivity].
  cbn [rbind]. unfold NEB.effective_force.
  destruct (Np.vdot f tangent) as [ft|]; [|reflexivity]. cbn [rbind].
  now rewrite Nat.eqb_refl, Hc.
Qed.

(** With [climb] on, on a band of at most 16 interior images, the rows
    that a returning [get_forces] gives the image [imax] are its real
    force with the component along the tangent turned round: no spring
    constant enters them, and dynamic relaxation leaves them as they
    are. *)
Theorem climbing_image_feels_no_spring (band band' : NEB.t) (F : ndarray) :
  NEB.get_forces band = (Ok F, band') ->
  NEB.climb band = true ->
  NEB.nimages band - 2 <= 16 ->
  exists energies imax raw real,
    NEB.energies band' = Some energies
    /\ NEB.imax band' = Some imax
    /\ 1 <= imax <= NEB.nimages band - 2
    /\ NEB.real_forces band' = Some real
    /\ set_slice0 (np_zeros [NEB.nimages band; NEB.natoms band; 3]) 1
         (NEB.nimages band - 1) raw = Ok real
    /\ climbing_force band' energies imax raw imax
       = Ok (rows_of_image (NEB.natoms band) imax F).
Proof.
  intros Hrun Hc Hshort.
  destruct (imax_is_interior band band' F Hrun Hshort) as (imax' & Hi' & Hrange).
  destruct (get_forces_blocks band band' F Hrun)
    as (energies & imax & raw & real & eql & He & Hi & Hr & Hreal & _ & Hsame & Hrows).
  rewrite Hi in Hi'. injection Hi' as <-.
  exists energies, imax, raw, real.
  split; [exact He|]. split; [exact Hi|]. split; [exact Hrange|].
  split; [exact Hr|]. split; [exact Hreal|].
  destruct (Hrows imax Hrange) as (g & Hg & Hoff & Hon).
  destruct Hsame as (_ & _ & Hn & _ & _ & _ & _ & Hc' & _).
  rewrite <- Hc' in Hc. rewrite (nudged_force_of_climber band' _ _ _ _ Hc) in Hg.
  rewrite Hg. unfold rows_of_image.
  destruct (NEB.dynamic_relaxation band') eqn:Hdyn.
  - destruct (Hon eq_refl) as (b & _ & Hblock).
    rewrite Nat.eqb_refl in Hblock. cbn [negb] in Hblock. rewrite andb_false_r in Hblock.
    now rewrite <- Hblock.
  - now rewrite <- (Hoff eq_refl).
Qed.
End Climber.

Section Climber_runs.
#[local] Existing Instances Demo.memory Demo.free_space Demo.sideways Demo.in_order.

Lemma climbing_image_feels_no_spring_witness :
  exists imax,
    NEB.imax (snd (NEB.get_forces (Demo.band Demo.four "aseneb" true false false)))
    = Some imax
    /\ 1 <= imax <= 4 - 2.
Proof.
  destruct (climbing_image_feels_no_spring
              (Demo.band Demo.four "aseneb" true false false)
              (snd (NEB.get_forces (Demo.band Demo.four "aseneb" true false false)))
              (mk_ndarray [2; 3] [0; 0.125; 0; 0; 0.25; 0]%float))
    as (energies & imax & raw & real & _ & Hi & Hrange & _).
  - vm_compute. reflexivity.
  - reflexivity.
  - cbn. lia.
  - exists imax. split; [exact Hi|exact Hrange].
Defined.
End Climber_runs.

(** ** What the serial evaluation stores *)

Lemma nth_list_update_same {A} (l : list A) (i : nat) (x d : A) :
  i < length l -> nth i (list_update l i x) d = x.
Proof.
  revert i. induction l as [|h t IH]; intros [|i] Hi; cbn in *; try lia; auto.
  apply IH. lia.
Qed.

Lemma nth_list_update_other {A} (l : list A) (i j : nat) (x d : A) :
  j <> i -> nth j (list_update l i x) d = nth j l d.
Proof.
  revert i j. induction l as [|h t IH]; intros [|i] [|j] Hj; cbn; auto; try lia.
Qed.

Lemma set_scalar_item_same (m : nat) (a a' : ndarray) (i : nat) (x : float) :
  laid_out [m] a -> set_scalar a i x = Ok a' -> item a' i = x.
Proof.
  intros [Hs Hl]. unfold set_scalar, len0. rewrite Hs. cbn [hd].
  destruct (Nat.ltb_spec i m); [|discriminate]. intros [= <-].
  unfold item. cbn [data]. apply nth_list_update_same. rewrite Hl. cbn. lia.
Qed.

Lemma set_scalar_item_other (a a' : ndarray) (i j : nat) (x : float) :
  set_scalar a i x = Ok a' -> j <> i -> item a' j = item a j.
Proof.
  unfold set_scalar. destruct (i <? len0 a); [|discriminate]. intros [= <-] Hj.
  unfold item. cbn [data]. now apply nth_list_update_other.
Qed.

Lemma setitem0_getitem0_same (d0 : nat) (rest : list nat) (a a' v : ndarray) (i : nat) :
  laid_out (d0 :: rest) a -> setitem0 a i v = Ok a' ->
  getitem0 a' i = Ok (mk_ndarray rest (data v)).
Proof.
  intros Ha. pose proof Ha as [Hs Hl]. unfold setitem0, len0. rewrite Hs. cbn [hd tl].
  destruct (Nat.ltb_spec i d0); [|discriminate].
  destruct (assignable v rest) eqn:Hv; [|discriminate].
  intros [= <-]. apply (getitem0_store0_same d0 rest); auto. now apply assignable_length.
Qed.

Lemma setitem0_getitem0_other (d0 : nat) (rest : list nat) (a a' v : ndarray) (i j : nat) :
  laid_out (d0 :: rest) a -> setitem0 a i v = Ok a' -> j <> i ->
  getitem0 a' j = getitem0 a j.
Proof.
  intros Ha. pose proof Ha as [Hs Hl]. unfold setitem0, len0. rewrite Hs. cbn [hd tl].
  destruct (Nat.ltb_spec i d0); [|discriminate].
  destruct (assignable v rest) eqn:Hv; [|discriminate].
  intros [= <-] Hj. apply (getitem0_store0_other d0 rest); auto.
  now apply assignable_length.
Qed.

Lemma window_within {A} (a v b : list A) (p q : nat) :
  length a <= p -> p - length a + q <= length v ->
  firstn q (skipn p (a ++ v ++ b)) = firstn q (skipn (p - length a) v).
Proof.
  intros Ha Hq. rewrite skipn_app, (skipn_all2 a) by exact Ha. cbn [app].
  rewrite skipn_app, firstn_app, length_skipn.
  replace (q - (length v - (p - length a))) with 0 by lia. cbn [firstn].
  apply app_nil_r.
Qed.

Lemma getitem0_full (m : nat) (rest : list nat) (v : float) (i : nat) :
  i < m -> getitem0 (np_full (m :: rest) v) i = Ok (np_full rest v).
Proof.
  intros Hi. unfold getitem0, np_full, len0, stride0. cbn [shape data hd tl].
  destruct (Nat.ltb_spec i m); [|lia]. f_equal. f_equal.
  cbn [size_of_shape fold_right]. fold (size_of_shape rest).
  set (st := size_of_shape rest).
  replace (m * st) with (i * st + (st + (m - i - 1) * st)) by nia.
  rewrite !repeat_app.
  apply window_inside; apply repeat_length.
Qed.

(** [a[1:-1] = v] on an array of at least two entries: the entries of [v]
    are the inner entries of the result, and the two outer ones stay. *)
Lemma set_slice0_inner (m : nat) (rest : list nat) (a v r : ndarray) :
  laid_out (m :: rest) a -> laid_out ((m - 2) :: rest) v -> 2 <= m ->
  set_slice0 a 1 (m - 1) v = Ok r ->
  getitem0 r 0 = getitem0 a 0
  /\ getitem0 r (m - 1) = getitem0 a (m - 1)
  /\ forall i, 1 <= i <= m - 2 -> getitem0 r i = getitem0 v (i - 1).
Proof.
  intros [Hs Hl] [Hvs Hvl] Hm. unfold set_slice0, clip_hi, clip_lo, len0, stride0.
  rewrite Hs. cbn [hd tl].
  replace (Nat.min 1 m) with 1 by lia.
  replace (Nat.max 1 (Nat.min (m - 1) m)) with (m - 1) by lia.
  destruct (assignable v _); [|discriminate]. intros [= <-].
  cbn [size_of_shape fold_right] in Hl, Hvl. fold (size_of_shape rest) in Hl, Hvl.
  unfold getitem0, len0, stride0. cbn [shape data]. rewrite Hs, Hvs. cbn [hd tl].
  set (st := size_of_shape rest) in *.
  assert (Hd : data a = firstn (1 * st) (data a)
                        ++ firstn ((m - 2) * st) (skipn (1 * st) (data a))
                        ++ skipn ((m - 1) * st) (data a)).
  { rewrite <- (firstn_skipn (1 * st) (data a)) at 1. f_equal.
    rewrite <- (firstn_skipn ((m - 2) * st) (skipn (1 * st) (data a))) at 1. f_equal.
    rewrite skipn_skipn. f_equal. nia. }
  assert (Hmid : length (data v)
                 = length (firstn ((m - 2) * st) (skipn (1 * st) (data a)))).
  { rewrite length_firstn, length_skipn. nia. }
  assert (Hfirst : length (firstn (1 * st) (data a)) = st).
  { rewrite length_firstn. nia. }
  split; [|split].
  - destruct (Nat.ltb_spec 0 m); [|lia]. f_equal. f_equal.
    symmetry. rewrite Hd at 1. symmetry.
    apply window_outside; [exact Hmid|]. left. rewrite Hfirst. lia.
  - destruct (Nat.ltb_spec (m - 1) m); [|lia]. f_equal. f_equal.
    symmetry. rewrite Hd at 1. symmetry.
    apply window_outside; [exact Hmid|]. right. rewrite Hfirst. nia.
  - intros i Hi.
    destruct (Nat.ltb_spec i m); [|lia].
    destruct (Nat.ltb_spec (i - 1) (m - 2)); [|lia]. f_equal. f_equal.
    assert (Hfirst' : length (firstn (st + 0) (data a)) = st).
    { rewrite length_firstn. nia. }
    rewrite window_within; rewrite Hfirst'; [|nia|nia].
    f_equal. f_equal. nia.
Qed.

Section Serial.
Context `{Memory} `{Calculator} `{Geometry} `{Numpy}.

Lemma evaluate_serial_records (self : NEB.t) (imgs : list Atoms) :
  forall (idx : list nat) (energies forces x : ndarray) (ef : ndarray * ndarray),
  evaluated self (energies, forces) -> NoDup idx -> (forall i, In i idx -> 1 <= i) ->
  NEB.evaluate_serial imgs idx energies forces x = Ok ef ->
  (forall i, In i idx -> recorded imgs (NEB.natoms self) (fst ef) (snd ef) i (i - 1))
  /\ (forall j, ~ In j idx -> item (fst ef) j = item energies j)
  /\ (forall j, ~ In (S j) idx -> getitem0 (snd ef) j = getitem0 forces j).
Proof.
  induction idx as [|i idx IH]; intros energies forces x ef Hef Hnd Hpos;
    cbn [NEB.evaluate_serial].
  - intros [= <-]. cbn [fst snd]. repeat split; auto. intros i [].
  - destruct Hef as [He Hf]. cbn [fst snd] in He, Hf.
    destruct (getitem imgs i) as [image|] eqn:Himage; cbn [rbind]; [|discriminate].
    unfold Atoms.get_potential_energy, Atoms.get_forces.
    destruct (calc image) as [c|] eqn:Hc; cbn [rbind]; [|discriminate].
    destruct (set_scalar energies i _) as [energies1|] eqn:Hset; cbn [rbind];
      [|discriminate].
    destruct (setitem0 forces (i - 1) _) as [forces1|] eqn:Hsetf; cbn [rbind];
      [|discriminate].
    destruct (setitem0 x (i - 1) _) as [x1|]; cbn [rbind]; [|discriminate].
    intros Hrest. inversion Hnd as [|? ? Hnotin Hnd']; subst.
    assert (Hef1 : evaluated self (energies1, forces1)).
    { split; cbn [fst snd].
      - eapply set_scalar_laid_out; eassumption.
      - eapply setitem0_laid_out; eassumption. }
    destruct (IH energies1 forces1 x1 ef Hef1 Hnd'
                (fun i' Hi' => Hpos i' (or_intror Hi')) Hrest) as (Hin & Hout & Houtf).
    pose proof (Hpos i (or_introl eq_refl)) as Hi1.
    split; [|split].
    + intros i' [<-|Hi']; [|now apply Hin].
      exists image, c. split; [exact Himage|]. split; [exact Hc|]. split.
      * rewrite (Hout i Hnotin). exact (set_scalar_item_same _ _ _ _ _ He Hset).
      * rewrite Houtf by (replace (S (i - 1)) with i by lia; exact Hnotin).
        eapply setitem0_getitem0_same; eassumption.
    + intros j Hj. rewrite Hout by (intros Hin'; apply Hj; now right).
      eapply set_scalar_item_other; [eassumption|].
      intros ->. apply Hj. now left.
    + intros j Hj. rewrite Houtf by (intros Hin'; apply Hj; now right).
      eapply setitem0_getitem0_other; [eassumption|eassumption|].
      intros ->. apply Hj. left. lia.
Qed.

Lemma endpoint_energies_records (self : NEB.t) (energies e0 : ndarray) :
  laid_out [NEB.nimages self] energies -> 2 <= NEB.nimages self ->
  (NEB.method self =? "aseneb")%string = false ->
  NEB.endpoint_energies self energies = Ok e0 ->
  exists first final c0 c1,
    getitem (NEB.images self) 0 = Ok first /\ calc first = Some c0
    /\ getitem_last (NEB.images self) = Ok final /\ calc final = Some c1
    /\ item e0 0 = potential_energy c0 first
    /\ item e0 (NEB.nimages self - 1) = potential_energy c1 final.
Proof.
  intros He Hm Hmethod. unfold NEB.endpoint_energies. rewrite Hmethod. cbn [negb].
  destruct (getitem (NEB.images self) 0) as [first|] eqn:Hfirst; cbn [rbind];
    [|discriminate].
  unfold Atoms.get_potential_energy.
  destruct (calc first) as [c0|] eqn:Hc0; cbn [rbind]; [|discriminate].
  destruct (set_scalar energies 0 _) as [e1|] eqn:Hset; cbn [rbind]; [|discriminate].
  destruct (getitem_last (NEB.images self)) as [final|] eqn:Hfinal; cbn [rbind];
    [|discriminate].
  destruct (calc final) as [c1|] eqn:Hc1; cbn [rbind]; [|discriminate].
  intros Hset1.
  pose proof (set_scalar_laid_out _ _ _ _ _ He Hset) as He1.
  assert (Hlen : len0 e1 = NEB.nimages self) by (unfold len0; now rewrite (proj1 He1)).
  rewrite Hlen in Hset1.
  exists first, final, c0, c1. repeat split; auto.
  - rewrite (set_scalar_item_other _ _ _ 0 _ Hset1) by lia.
    exact (set_scalar_item_same _ _ _ _ _ He Hset).
  - exact (set_scalar_item_same _ _ _ _ _ He1 Hset1).
Qed.

(** Without [parallel], a returning [get_forces] leaves in [energies] the
    energy that the calculator of each interior image gives for it, and in
    [real_forces] that calculator's forces for it, the images being those
    of the band afterwards (so after the alignment, when that is on); the
    first and the last entry of [real_forces] are zero.  For a method
    other than [aseneb] the two outer energies are those of the two end
    images. *)
Theorem serial_evaluation_records_every_image (band band' : NEB.t) (F : ndarray) :
  NEB.get_forces band = (Ok F, band') ->
  NEB.parallel band = false ->
  exists energies real,
    NEB.energies band' = Some energies
    /\ NEB.real_forces band' = Some real
    /\ (forall i, 1 <= i <= NEB.nimages band - 2 ->
        recorded (NEB.images band') (NEB.natoms band) energies real i i)
    /\ getitem0 real 0 = Ok (np_zeros [NEB.natoms band; 3])
    /\ getitem0 real (NEB.nimages band - 1) = Ok (np_zeros [NEB.natoms band; 3])
    /\ ((NEB.method band =? "aseneb")%string = false ->
        exists first final c0 c1,
          getitem (NEB.images band') 0 = Ok first /\ calc first = Some c0
          /\ getitem_last (NEB.images band') = Ok final /\ calc final = Some c1
          /\ item energies 0 = potential_energy c0 first
          /\ item energies (NEB.nimages band - 1) = potential_energy c1 final).
Proof.
  intros Hrun Hserial.
  destruct (get_forces_returns _ _ _ Hrun) as (self & Hp & Hsame & _ & Hm).
  pose proof (project_same_images self self _ _ Hp) as [Hbase _].
  assert (Himages : NEB.images band' = NEB.images self)
    by (unfold NEB.images; now rewrite Hbase).
  destruct (project_returns _ _ _ _ Hp)
    as (e0 & energies & raw & real & top & t1 & eql & forces
        & He0 & Hev & Hreal & _ & _ & _ & _ & _ & Hs').
  destruct Hsame as (_ & _ & Hn & Hmm & _ & _ & Hpar & _ & Hmethod & _).
  rewrite <- Hn, <- Hmm, <- Hmethod, Himages.
  assert (Hstart : evaluated self
            (e0, np_empty [NEB.nimages self - 2; NEB.natoms self; 3])).
  { split; cbn [fst snd]; [|apply laid_out_full].
    eapply endpoint_energies_laid_out; [|exact He0]. apply laid_out_full. }
  pose proof (project_evaluated _ _ _ _ He0 Hev) as [_ Hraw]. cbn [snd] in Hraw.
  unfold NEB.evaluate in Hev. rewrite Hpar, Hserial in Hev. cbn [negb] in Hev.
  destruct (evaluate_serial_records self _ _ _ _ _ _ Hstart
              (seq_NoDup _ _)
              (fun i Hi => proj1 (proj1 (in_seq _ _ _) Hi)) Hev)
    as (Hin & Hout & _). cbn [fst snd] in Hin, Hout.
  destruct (set_slice0_inner _ _ _ _ _ (laid_out_full _ _) Hraw Hm Hreal)
    as (Hzero & Hlast & Hinner).
  exists energies, real.
  split; [subst band'; reflexivity|]. split; [subst band'; reflexivity|].
  split; [|split; [|split]].
  - intros i Hi.
    destruct (Hin i) as (image & c & Himage & Hc & He & Hf); [apply in_seq; lia|].
    exists image, c. repeat split; auto. now rewrite (Hinner i Hi).
  - rewrite Hzero. apply getitem0_full. lia.
  - rewrite Hlast. apply getitem0_full. lia.
  - intros Hother.
    destruct (endpoint_energies_records self _ _ (laid_out_full _ _) Hm Hother He0)
      as (first & final & c0 & c1 & Ha & Hb & Hc & Hd & He5 & He6).
    exists first, final, c0, c1. repeat split; auto.
    + rewrite Hout; [exact He5|]. rewrite in_seq. lia.
    + rewrite Hout; [exact He6|]. rewrite in_seq. lia.
Qed.
End Serial.

Section Serial_runs.
#[local] Existing Instances Demo.memory Demo.free_space Demo.sideways Demo.in_order.

Lemma serial_evaluation_records_every_image_witness :
  exists energies real,
    NEB.energies (snd (NEB.get_forces (Demo.band Demo.four "eb" false true false)))
    = Some energies
    /\ NEB.real_forces (snd (NEB.get_forces (Demo.band Demo.four "eb" false true false)))
       = Some real
    /\ getitem0 real 0 = Ok (np_zeros [1; 3])
    /\ getitem0 real 3 = Ok (np_zeros [1; 3]).
Proof.
  destruct (NEB.get_forces (Demo.band Demo.four "eb" false true false))
    as [[F|e] band'] eqn:Hrun; [|vm_compute in Hrun; discriminate].
  destruct (serial_evaluation_records_every_image _ _ _ Hrun eq_refl)
    as (energies & real & He & Hr & _ & H0 & H3 & _).
  exists energies, real. cbn [snd]. repeat split; assumption.
Defined.
End Serial_runs.

(** ** What the threads store *)

Section Threads.
Context `{Memory} `{Calculator} `{Geometry} `{Numpy}.










End Threads.

Section Thread_runs.
#[local] Existing Instances Demo.memory Demo.free_space Demo.sideways Demo.in_order.

End Thread_runs.

(** ** What the ranks store *)

Section Ranks.
Context `{Memory} `{Calculator} `{Geometry} `{Numpy}.




End Ranks.

Section Rank_runs.
#[local] Existing Instances Demo.memory Demo.free_space Demo.sideways Demo.in_order.

End Rank_runs.

(** ** The largest residual *)

Lemma ltb_upper (a b x : float) :
  (a <? b)%float = true -> (a <? x)%float = false -> (b <? x)%float = false.
Proof.
  rewrite !ltb_spec. unfold SFltb, SFcompare.
  destruct (Prim2SF a) as [sa|sa| |sa ma ea], (Prim2SF b) as [sb|sb| |sb mb eb],
    (Prim2SF x) as [sx|sx| |sx mx ex];
    try destruct sa; try destruct sb; try destruct sx; cbn;
    try reflexivity; try discriminate.
  all: sf_order.
Qed.

Lemma isnan_ltb (a x : float) : F64.isnan a = true -> (a <? x)%float = false.
Proof.
  unfold F64.isnan. rewrite eqb_spec, ltb_spec. unfold SFeqb, SFltb, SFcompare.
  destruct (Prim2SF a) as [sa|sa| |sa ma ea], (Prim2SF x) as [sx|sx| |sx mx ex];
    try destruct sa; try destruct sx; cbn; try reflexivity; try discriminate.
  all: sf_order.
Qed.

Lemma np_maximum_choice (a b : float) :
  F64.np_maximum a b = a \/ F64.np_maximum a b = b.
Proof.
  unfold F64.np_maximum.
  destruct (F64.isnan a); [now left|].
  destruct (F64.isnan b); [now right|].
  destruct (a <? b)%float; [now right|now left].
Qed.

Lemma np_maximum_nan (a b : float) :
  F64.isnan a = true \/ F64.isnan b = true -> F64.isnan (F64.np_maximum a b) = true.
Proof.
  unfold F64.np_maximum.
  destruct (F64.isnan a) eqn:Ha; [now rewrite Ha|].
  destruct (F64.isnan b) eqn:Hb; [now rewrite Hb|].
  now intros [|].
Qed.

Lemma np_maximum_upper (a b x : float) :
  (a <? x)%float = false \/ x = b -> (F64.np_maximum a b <? x)%float = false.
Proof.
  unfold F64.np_maximum.
  destruct (F64.isnan a) eqn:Ha; [intros _; now apply isnan_ltb|].
  destruct (F64.isnan b) eqn:Hb; [intros _; now apply isnan_ltb|].
  destruct (a <? b)%float eqn:Hab.
  - intros [Hx| ->]; [now apply (ltb_upper a)|apply ltb_irrefl].
  - intros [Hx| ->]; assumption.
Qed.

Lemma fold_maximum_upper (t : list float) :
  forall acc x : float,
  (acc <? x)%float = false \/ In x t ->
  (fold_left F64.np_maximum t acc <? x)%float = false.
Proof.
  induction t as [|b t IH]; intros acc x; cbn [fold_left].
  - now intros [Hx|[]].
  - intros [Hx|[<-|Hx]]; apply IH; auto; left; apply np_maximum_upper; auto.
Qed.

Lemma fold_maximum_choice (t : list float) :
  forall acc : float, In (fold_left F64.np_maximum t acc) (acc :: t).
Proof.
  induction t as [|b t IH]; intros acc; cbn [fold_left]; [now left|].
  destruct (IH (F64.np_maximum acc b)) as [Hr|Hr]; [|right; now right].
  rewrite <- Hr.
  destruct (np_maximum_choice acc b) as [Hc|Hc]; rewrite Hc; [now left|right; now left].
Qed.

Lemma fold_maximum_nan (t : list float) :
  forall acc x : float,
  F64.isnan x = true -> x = acc \/ In x t ->
  F64.isnan (fold_left F64.np_maximum t acc) = true.
Proof.
  induction t as [|b t IH]; intros acc x Hnan; cbn [fold_left].
  - now intros [->|[]].
  - intros [Hx|[Hx|Hx]].
    + apply (IH _ (F64.np_maximum acc b)); [|now left].
      apply np_maximum_nan. left. now rewrite <- Hx.
    + apply (IH _ (F64.np_maximum acc b)); [|now left].
      apply np_maximum_nan. right. now rewrite Hx.
    + apply (IH _ x Hnan). now right.
Qed.

Section Residual.
Context `{Memory} `{Calculator} `{Geometry} `{Numpy} `{Preconditioner} `{Interpolation}.

(** [get_residual] gives one of the residuals that [get_fmax_all] lists,
    and none of them is above it; it is NaN as soon as one of them is.
    On a string of two images, which has no residual, it raises
    [ValueError]. *)
Theorem residual_is_the_largest (self : PreconMEP.t) :
  (data (PreconMEP.get_fmax_all self) = [] ->
   exists msg, PreconMEP.get_residual self = Raise (ValueError msg))
  /\ (data (PreconMEP.get_fmax_all self) <> [] ->
      exists r,
        PreconMEP.get_residual self = Ok r
        /\ In r (data (PreconMEP.get_fmax_all self))
        /\ (forall x, In x (data (PreconMEP.get_fmax_all self)) ->
            (r <? x)%float = false)
        /\ (forall x, In x (data (PreconMEP.get_fmax_all self)) ->
            F64.isnan x = true -> F64.isnan r = true)).
Proof.
  unfold PreconMEP.get_residual, PreconMEP.get_fmax_all, Np.max.
  destruct (data (PreconMEP.residuals self)) as [|x t].
  - split; [intros _; eexists; reflexivity|congruence].
  - split; [discriminate|]. intros _. eexists. split; [reflexivity|].
    split; [apply fold_maximum_choice|]. split.
    + intros y [<-|Hy]; apply fold_maximum_upper; auto. left. apply ltb_irrefl.
    + intros y Hy Hnan. apply (fold_maximum_nan _ _ y Hnan).
      destruct Hy as [<-|Hy]; auto.
Qed.
End Residual.

Section Residual_runs.
#[local] Existing Instances Demo.memory Demo.free_space Demo.sideways Demo.in_order
  Demo.identity Demo.polygon.

Lemma residual_is_the_largest_witness :
  exists r, PreconMEP.get_residual (Demo.mep Demo.three) = Ok r
            /\ (r <? 0)%float = false.
Proof.
  destruct (proj2 (residual_is_the_largest (Demo.mep Demo.three)))
    as (r & Hr & _ & Hup & _).
  - discriminate.
  - exists r. split; [exact Hr|]. apply Hup. now left.
Defined.
End Residual_runs.

(** ** The string method and the springs *)

Section Springs.
Context `{Memory} `{Calculator} `{Geometry} `{Numpy} `{Preconditioner} `{Interpolation}.

Lemma spline_fit_loop_springs (k' : list float) (self : PreconMEP.t)
    (norm : norm_argument) :
  forall (idx : list nat) (x d_P : ndarray),
  PreconMEP.spline_fit_loop (with_springs k' self) norm idx x d_P
  = PreconMEP.spline_fit_loop self norm idx x d_P.
Proof.
  induction idx as [|i idx IH]; intros x d_P; cbn [PreconMEP.spline_fit_loop];
    [reflexivity|].
  change (PreconMEP.images (with_springs k' self)) with (PreconMEP.images self).
  change (PreconMEP.distance (with_springs k' self) norm i)
    with (PreconMEP.distance self norm i).
  destruct (getitem _ i); cbn [rbind]; [|reflexivity].
  destruct (setitem0 _ _ _); cbn [rbind]; [|reflexivity].
  destruct (PreconMEP.distance _ _ _); cbn [rbind]; [|reflexivity].
  destruct (set_scalar _ _ _); cbn [rbind]; [|reflexivity].
  apply IH.
Qed.

Lemma spline_fit_springs (k' : list float) (self : PreconMEP.t) (norm : norm_argument) :
  PreconMEP.spline_fit (with_springs k' self) norm = PreconMEP.spline_fit self norm.
Proof.
  unfold PreconMEP.spline_fit, PreconMEP.path_lengths.
  change (PreconMEP.images (with_springs k' self)) with (PreconMEP.images self).
  change (PreconMEP.nimages (with_springs k' self)) with (PreconMEP.nimages self).
  change (PreconMEP.natoms (with_springs k' self)) with (PreconMEP.natoms self).
  destruct (getitem _ 0); cbn [rbind]; [|reflexivity].
  destruct (setitem0 _ _ _); cbn [rbind]; [|reflexivity].
  now rewrite spline_fit_loop_springs.
Qed.

Lemma image_step_springs (k' : list float) (s : ndarray) (x_spline : spline) (i : nat)
    (forces : ndarray) (st : PreconMEP.t) :
  PreconMEP.method st = "string"%string ->
  PreconMEP.image_step s x_spline i forces (with_springs k' st)
  = (fst (PreconMEP.image_step s x_spline i forces st),
     with_springs k' (snd (PreconMEP.image_step s x_spline i forces st)))
  /\ PreconMEP.method (snd (PreconMEP.image_step s x_spline i forces st)) = "string"%string.
Proof.
  intros Hm. unfold PreconMEP.image_step, bind, get, lift, modify, ret.
  change (PreconMEP.precons (with_springs k' st)) with (PreconMEP.precons st).
  change (PreconMEP.images (with_springs k' st)) with (PreconMEP.images st).
  destruct (getitem0 forces (i - 1)) as [f|]; [|now split].
  destruct (getitem (PreconMEP.precons st) i) as [Pi|]; [|now split].
  destruct (getitem (PreconMEP.images st) i) as [image|]; [|now split].
  destruct (P_apply Pi (ravel f) image) as [pf_vec Pi'].
  destruct (Np.vdot _ _) as [along|]; [|now split].
  destruct (Np.sub _ _) as [pf|]; [|now split].
  destruct (PreconMEP.norm_inf _) as [residual|]; [|now split].
  cbn [PreconMEP.with_precons PreconMEP.residuals with_springs PreconMEP.method
       PreconMEP.with_residuals PreconMEP.natoms PreconMEP.base].
  destruct (set_scalar _ _ _) as [residuals|]; [|now split].
  rewrite Hm. cbn [String.eqb Ascii.eqb Bool.eqb].
  destruct (reshape _ _) as [block|]; [|now split].
  destruct (setitem0 _ _ _); now split.
Qed.

Lemma forces_loop_springs (k' : list float) (s : ndarray) (x_spline : spline) :
  forall (idx : list nat) (forces : ndarray) (st : PreconMEP.t),
  PreconMEP.method st = "string"%string ->
  PreconMEP.forces_loop s x_spline idx forces (with_springs k' st)
  = (fst (PreconMEP.forces_loop s x_spline idx forces st),
     with_springs k' (snd (PreconMEP.forces_loop s x_spline idx forces st))).
Proof.
  induction idx as [|i idx IH]; intros forces st Hm; cbn [PreconMEP.forces_loop];
    [reflexivity|].
  unfold bind. destruct (image_step_springs k' s x_spline i forces st Hm) as [-> Hm'].
  destruct (PreconMEP.image_step s x_spline i forces st) as [[forces'|e] st'];
    cbn [fst snd] in *; [|reflexivity].
  now apply IH.
Qed.

(** With the method [string] the spring constants [k] have no part in
    [get_forces]: with other constants it gives the same forces or raises
    the same exception, and leaves the same string but for [k]. *)
Theorem string_method_ignores_the_springs (k' : list float) (self : PreconMEP.t) :
  PreconMEP.method self = "string"%string ->
  PreconMEP.get_forces (with_springs k' self)
  = (fst (PreconMEP.get_forces self), with_springs k' (snd (PreconMEP.get_forces self))).
Proof.
  intros Hm. unfold PreconMEP.get_forces, bind, get, lift, modify, raise.
  change (PreconMEP.nimages (with_springs k' self)) with (PreconMEP.nimages self).
  change (PreconMEP.raw_forces (with_springs k' self)) with (PreconMEP.raw_forces self).
  rewrite spline_fit_springs.
  destruct (PreconMEP.nimages self <? 2); [reflexivity|].
  destruct (PreconMEP.raw_forces self) as [forces|]; [|reflexivity].
  destruct (PreconMEP.spline_fit self precon_norm) as [[s x_spline]|]; [|reflexivity].
  apply (forces_loop_springs k' s x_spline _ forces
           (PreconMEP.with_residuals (amap (fun _ => 0%float) (PreconMEP.residuals self))
              self)).
  exact Hm.
Qed.
End Springs.

Section Spring_runs.
#[local] Existing Instances Demo.memory Demo.free_space Demo.sideways Demo.in_order
  Demo.identity Demo.polygon.

Lemma string_method_ignores_the_springs_witness :
  fst (PreconMEP.get_forces (with_springs [9; 9]%float (Demo.mep Demo.three)))
  = fst (PreconMEP.get_forces (Demo.mep Demo.three)).
Proof.
  rewrite (string_method_ignores_the_springs [9; 9]%float (Demo.mep Demo.three));
    reflexivity.
Defined.
End Spring_runs.

(** ** Constructing a string *)

Section String_construction.
Context `{Memory} `{Calculator} `{Geometry} `{Numpy} `{Preconditioner} `{Interpolation}.

Lemma lower_ascii_twice (c : Ascii.ascii) :
  PreconMEP.lower_ascii (PreconMEP.lower_ascii c) = PreconMEP.lower_ascii c.
Proof.
  unfold PreconMEP.lower_ascii.
  destruct ((65 <=? Ascii.nat_of_ascii c) && (Ascii.nat_of_ascii c <=? 90)) eqn:Hc;
    [|now rewrite Hc].
  apply andb_prop in Hc. destruct Hc as [Hlo Hhi].
  apply Nat.leb_le in Hlo, Hhi.
  rewrite Ascii.nat_ascii_embedding by lia.
  destruct (Nat.leb_spec (Ascii.nat_of_ascii c + 32) 90); [lia|].
  now rewrite andb_false_r.
Qed.

Lemma lower_twice (s : string) : PreconMEP.lower (PreconMEP.lower s) = PreconMEP.lower s.
Proof.
  induction s as [|c s IH]; cbn [PreconMEP.lower]; [reflexivity|].
  now rewrite lower_ascii_twice, IH.
Qed.

(** [PreconMEP(images, precon, method, k)] reads the method without regard
    to case.  What it returns has the method in lower case, [neb] or
    [string], at least two images, one preconditioner for each image and
    one residual for each interior image; a single image, though it
    passes [ChainOfStates.__init__], raises [ValueError] for the negative
    size of the residuals, and any other method raises [ValueError]. *)
Theorem string_construction (imgs : list Atoms) (precon_name method : string)
    (k : spring_constants) (get_all_forces : option (list Atoms -> ndarray)) :
  PreconMEP.__init__ imgs precon_name (PreconMEP.lower method) k get_all_forces
  = PreconMEP.__init__ imgs precon_name method k get_all_forces
  /\ (forall mep,
      PreconMEP.__init__ imgs precon_name method k get_all_forces = Ok mep ->
      PreconMEP.method mep = PreconMEP.lower method
      /\ (PreconMEP.method mep = "neb" \/ PreconMEP.method mep = "string")%string
      /\ PreconMEP.images mep = imgs
      /\ PreconMEP.nimages mep = length imgs
      /\ 2 <= length imgs
      /\ length (PreconMEP.precons mep) = length imgs
      /\ laid_out [length imgs - 2] (PreconMEP.residuals mep)
      /\ forall x, k = Scalar x -> PreconMEP.k mep = repeat x (length imgs - 1))
  /\ (forall b P0,
      ChainOfStates.__init__ imgs = Ok b -> make_precon precon_name = Ok P0 ->
      (PreconMEP.lower method <> "neb" /\ PreconMEP.lower method <> "string")%string ->
      PreconMEP.__init__ imgs precon_name method k get_all_forces
      = Raise (ValueError "method must be one of ['neb', 'string']"))
  /\ (forall b P0,
      ChainOfStates.__init__ imgs = Ok b -> make_precon precon_name = Ok P0 ->
      (PreconMEP.lower method = "neb" \/ PreconMEP.lower method = "string")%string ->
      length imgs = 1 ->
      PreconMEP.__init__ imgs precon_name method k get_all_forces
      = Raise ChainOfStates.negative_dimensions).
Proof.
  unfold PreconMEP.__init__. rewrite lower_twice.
  split; [reflexivity|].
  assert (Hmember : forall m : string,
            existsb (String.eqb m) ["neb"; "string"]%string = true
            <-> (m = "neb" \/ m = "string")%string).
  { intros m. cbn [existsb]. rewrite orb_false_r, orb_true_iff, !String.eqb_eq.
    reflexivity. }
  assert (Hchain : forall b, ChainOfStates.__init__ imgs = Ok b ->
            ChainOfStates.images b = imgs /\ ChainOfStates.nimages b = length imgs).
  { intros b. unfold ChainOfStates.__init__.
    destruct (getitem imgs 0); cbn [rbind]; [|discriminate].
    destruct (ChainOfStates.check_images _ _ _); cbn [rbind]; [|discriminate].
    intros [= <-]. split; reflexivity. }
  split; [|split].
  - intros mep.
    destruct (ChainOfStates.__init__ imgs) as [b|] eqn:Hb; cbn [rbind]; [|discriminate].
    destruct (Hchain b eq_refl) as [Himgs Hn].
    destruct (make_precon precon_name) as [P0|]; cbn [rbind]; [|discriminate].
    destruct (getitem imgs 0) as [first|] eqn:Hfirst; cbn [rbind]; [|discriminate].
    destruct (existsb _ _) eqn:Hm; cbn [negb]; [|discriminate].
    destruct (Nat.ltb_spec (ChainOfStates.nimages b) 2); [discriminate|].
    intros [= <-].
    cbn [PreconMEP.method PreconMEP.images PreconMEP.nimages PreconMEP.base
         PreconMEP.precons PreconMEP.residuals PreconMEP.k].
    unfold PreconMEP.nimages, PreconMEP.images. cbn [PreconMEP.base].
    rewrite Hn in *.
    split; [reflexivity|]. split; [now apply Hmember|]. split; [exact Himgs|].
    split; [reflexivity|]. split; [assumption|]. split.
    + cbn [length]. rewrite length_map. destruct imgs; [discriminate|reflexivity].
    + split; [apply laid_out_full|]. now intros x ->.
  - intros b P0 Hb -> [Hneb Hstring]. rewrite Hb. cbn [rbind].
    unfold ChainOfStates.__init__ in Hb.
    destruct (getitem imgs 0) as [first|] eqn:Hfirst; cbn [rbind] in *; [|discriminate].
    destruct (existsb _ _) eqn:Hm; [|reflexivity].
    apply Hmember in Hm. tauto.
  - intros b P0 Hb -> Hm Hone. rewrite Hb. cbn [rbind].
    destruct (Hchain b Hb) as [_ Hn].
    unfold ChainOfStates.__init__ in Hb.
    destruct (getitem imgs 0) as [first|] eqn:Hfirst; cbn [rbind] in *; [|discriminate].
    apply Hmember in Hm. rewrite Hm. cbn [negb]. rewrite Hn, Hone. reflexivity.
Qed.
End String_construction.

Section String_construction_runs.
#[local] Existing Instances Demo.memory Demo.free_space Demo.sideways Demo.in_order
  Demo.identity Demo.polygon.

Lemma string_construction_witness :
  PreconMEP.__init__ [Demo.atom 0 0 0] "ID" "NEB" (Scalar 0.5%float) None
  = Raise ChainOfStates.negative_dimensions.
Proof.
  eapply (proj2 (proj2 (proj2 (string_construction [Demo.atom 0 0 0] "ID" "NEB"
                                 (Scalar 0.5%float) None)))).
  - reflexivity.
  - reflexivity.
  - left. reflexivity.
  - reflexivity.
Defined.
End String_construction_runs.

(** ** The energies of the end images *)

Section End_energies.
Context `{Memory} `{Calculator} `{Geometry} `{Numpy}.


(** With another method than [aseneb] the end images are evaluated first:
    [get_forces] on a band whose first image has no calculator raises
    what [Atoms.get_potential_energy] raises for it, and leaves the band
    as it was. *)
Theorem other_methods_evaluate_the_end_images (band : NEB.t) (first : Atoms) :
  NEB.remove_rotation_and_translation band = false ->
  NEB.has_duplicates (NEB.calculators (NEB.images band)) = false ->
  2 <= NEB.nimages band ->
  (NEB.method band =? "aseneb")%string = false ->
  getitem (NEB.images band) 0 = Ok first -> calc first = None ->
  NEB.get_forces band = (Raise Atoms.no_calculator, band).
Proof.
  intros Hrrt Hdup Hm Hmethod Hfirst Hcalc.
  unfold NEB.get_forces, bind, get, ret, raise. rewrite Hdup.
  destruct (Nat.ltb_spec (NEB.nimages band) 2); [lia|].
  rewrite Hrrt. unfold NEB.project, bind, lift, NEB.endpoint_energies.
  rewrite Hmethod, Hfirst. cbn [negb rbind].
  unfold Atoms.get_potential_energy. rewrite Hcalc. reflexivity.
Qed.
End End_energies.

Section End_energy_runs.
#[local] Existing Instances Demo.memory Demo.free_space Demo.sideways Demo.in_order.


Lemma other_methods_evaluate_the_end_images_witness :
  NEB.get_forces (headless "eb") = (Raise Atoms.no_calculator, headless "eb").
Proof.
  apply (other_methods_evaluate_the_end_images (headless "eb") (bare 0)).
  - reflexivity.
  - reflexivity.
  - cbn. lia.
  - reflexivity.
  - reflexivity.
  - reflexivity.
Defined.
End End_energy_runs.
